(** * Pairwise sequence alignment (biotite.sequence.align.pairwise)

    A shallow embedding of [src/biotite/sequence/align/pairwise.pyx]:
    the ungapped scorer, the two dynamic-programming table fillers
    (general and affine gap penalty), the branching traceback and the
    assembly of the returned alignments, followed by the properties the
    specification states about them.

    Conventions of the embedding.
    - [int32] values are integers of [Z]; every C addition on them is
      written with [add32], which wraps to 32 bits.
    - numpy arrays are lists ([table] for two-dimensional ones) read and
      written by index through stdpp's lookup and insert.
    - Python exceptions are the constructors of [error]; a function that
      can raise returns a [result].
    - The one loop whose termination is not syntactic, the traceback,
      takes a fuel argument; [OutOfFuel] is the result when it runs out,
      and the development proves it never does for the fuel
      [align_optimal] passes. *)

From Stdlib Require Import ZArith Lia Bool String Ascii.
From stdpp Require Import base list sorting.

Set Default Proof Using "Type".
Local Open Scope Z_scope.

(** ** Machine integers *)

Definition INT32_MIN : Z := -2147483648.
Definition INT32_MAX : Z := 2147483647.

(** Two's-complement reduction of an integer to the [int32] range. *)
Definition wrap32 (x : Z) : Z := (x + 2147483648) mod 4294967296 - 2147483648.

(** Addition of two [int32] operands, as the compiled C code performs it. *)
Definition add32 (a b : Z) : Z := wrap32 (a + b).

Definition fits_int32 (x : Z) : bool := (INT32_MIN <=? x) && (x <=? INT32_MAX).

(** [cdef inline int32 int_max(int32 a, int32 b): return a if a >= b else b] *)
Definition int_max (a b : Z) : Z := if a >=? b then a else b.

(** ** Arrays *)

(** A two-dimensional numpy array, row-major. *)
Abbreviation table := (list (list Z)).

(** [np.zeros((r, c))] *)
Definition np_zeros (r c : nat) : table := replicate r (replicate c 0).

Definition shape0 (t : table) : nat := length t.
Definition shape1 (t : table) : nat :=
  match t with [] => 0%nat | row :: _ => length row end.

(** [t[i, j]] in the functions compiled with [boundscheck(False)].  The
    loops of the source keep the indices inside the array; outside it the
    source reads unspecified memory and the model reads [0]. *)
Definition tget (t : table) (i j : nat) : Z :=
  match t !! i with
  | Some row => default 0 (row !! j)
  | None => 0
  end.

(** [t[i, j] = v]; outside the array the model leaves [t] unchanged. *)
Definition tset (t : table) (i j : nat) (v : Z) : table :=
  alter (fun row => <[j := v]> row) i t.

(** [code[i]] of a one-dimensional array of symbol codes. *)
Definition cget (code : list nat) (i : nat) : nat := default 0%nat (code !! i).

(** [t[:, j] = f(row index)] and [t[i, :] = f(column index)] restricted to
    the index range [lo ..]; these are the numpy slice assignments of
    [align_optimal].  Values pass through [wrap32] because the target
    arrays have dtype [int32]. *)
Definition set_column (t : table) (j lo : nat) (f : nat -> Z) : table :=
  imap (fun i row => if (lo <=? i)%nat then <[j := f i]> row else row) t.

Definition set_row (t : table) (i lo : nat) (f : nat -> Z) : table :=
  alter (fun row => imap (fun j v => if (lo <=? j)%nat then f j else v) row) i t.

(** ** Exceptions and results *)

(** The exceptions the embedded functions raise.  The three input
    validation failures carry the names the specification gives them:
    - [LengthMismatch]: [ValueError("Different sequence lengths ...")]
    - [AlphabetMismatch]:
      [ValueError("The sequences' alphabets do not fit the matrix")]
    - [InvalidGapPenalty]:
      [TypeError("Gap penalty must be either integer or tuple")]
    The others are raised by the runtime: an index outside a sequence or
    a bounds-checked array, a Python integer that does not fit the C
    [int] parameter of a filler, and [np.min] of an empty matrix. *)
Inductive error :=
| LengthMismatch (len1 len2 : nat)
| AlphabetMismatch
| InvalidGapPenalty
| IndexError
| OverflowError
| EmptyMatrixError.

Inductive result (A : Type) :=
| Ok (a : A)
| Raise (e : error)
| OutOfFuel.
Arguments Ok {A} a.
Arguments Raise {A} e.
Arguments OutOfFuel {A}.

Definition rbind {A B} (r : result A) (k : A -> result B) : result B :=
  match r with
  | Ok a => k a
  | Raise e => Raise e
  | OutOfFuel => OutOfFuel
  end.

#[export] Instance result_ret : MRet result := fun _ a => Ok a.
#[export] Instance result_bind : MBind result := fun _ _ k r => rbind r k.

(** Runs [f] on every element, left to right, stopping at the first
    failure. *)
Fixpoint rmap {A B} (f : A -> result B) (l : list A) : result (list B) :=
  match l with
  | [] => Ok []
  | x :: l' => y ← f x; ys ← rmap f l'; Ok (y :: ys)
  end.

(** ** Sequences, alphabets and substitution matrices *)

(** Modelled from the spec: the classes [Alphabet], [Sequence] and
    [SubstitutionMatrix] are not part of the sources at hand.  An
    alphabet is its list of symbols (one character each); equality
    compares the symbols, and an alphabet extends another one when the
    other's symbols are a prefix of its own, so that every code of the
    smaller alphabet means the same symbol in the larger one (this is
    what "covers" means for a score matrix indexed by codes). *)
Definition Alphabet := string.

Definition alphabet_eqb (a b : Alphabet) : bool := String.eqb a b.
Definition extends (a b : Alphabet) : bool := String.prefix b a.

Record Sequence := {
  get_alphabet : Alphabet;
  code : list nat
}.

Record SubstitutionMatrix := {
  get_alphabet1 : Alphabet;
  get_alphabet2 : Alphabet;
  score_matrix : table
}.

(** [Alignment(sequences, trace, score)]; a trace row is a pair of
    sequence indices, [-1] marking a gap. *)
Record Alignment := {
  sequences : Sequence * Sequence;
  trace : list (Z * Z);
  score : Z
}.

(** ** Ungapped alignment *)

(** [_add_scores]: [score] is a C [int32] accumulator. *)
Definition _add_scores (code1 code2 : list nat) (matrix : table) : Z :=
  fold_left
    (fun score i => add32 score (tget matrix (cget code1 i) (cget code2 i)))
    (seq 0 (length code1)) 0.

Definition np_arange (n : nat) : list Z := map Z.of_nat (seq 0 n).
Definition np_tile {A} (l : list A) (reps : nat) : list A :=
  concat (replicate reps l).
Definition np_reshape {A} (r c : nat) (flat : list A) : list (list A) :=
  map (fun i => take c (drop (i * c) flat)) (seq 0 r).
(** Transposition of a two-row array into a list of index pairs. *)
Definition np_transpose2 (rows : list (list Z)) : list (Z * Z) :=
  match rows with
  | [r0; r1] => zip r0 r1
  | _ => []
  end.

(** What [align_ungapped] returns: the score alone or an alignment. *)
Inductive ungapped_result :=
| ScoreOnly (s : Z)
| Aligned (a : Alignment).

Definition align_ungapped (seq1 seq2 : Sequence) (matrix : SubstitutionMatrix)
    (score_only : bool) : result ungapped_result :=
  if negb (length (code seq1) =? length (code seq2))%nat then
    Raise (LengthMismatch (length (code seq1)) (length (code seq2)))
  else if negb (alphabet_eqb (get_alphabet1 matrix) (get_alphabet seq1))
          && negb (alphabet_eqb (get_alphabet2 matrix) (get_alphabet seq2)) then
    Raise AlphabetMismatch
  else
    let score := _add_scores (code seq1) (code seq2) (score_matrix matrix) in
    if score_only then Ok (ScoreOnly score)
    else
      let seq_length := length (code seq1) in
      Ok (Aligned {|
        sequences := (seq1, seq2);
        trace := np_transpose2
                   (np_reshape 2 seq_length (np_tile (np_arange seq_length) 2));
        score := score |}).

(** ** Table filling, general gap penalty *)

(** The three-way comparison shared by the score table of the general
    filler and the match table of the affine filler: the trace bits and
    the score the source selects for the candidates [d] (diagonal), [l]
    (left) and [t] (top), branch by branch. *)
Definition find_maximum (d l t : Z) : Z * Z :=
  if d >? l then
    if d >? t then (1, d)
    else if d =? t then (5, d)
    else (4, t)
  else if d =? l then
    if d >? t then (3, d)
    else if d =? t then (7, d)
    else (4, t)
  else
    if l >? t then (2, l)
    else if l =? t then (6, d)
    else (4, t).

(** The candidates of cell [(i, j)], read from the score table. *)
Definition from_diag (code1 code2 : list nat) (matrix score_table : table)
    (i j : nat) : Z :=
  add32 (tget score_table (i - 1) (j - 1))
        (tget matrix (cget code1 (i - 1)) (cget code2 (j - 1))).

Definition from_left (score_table : table) (gap_penalty : Z)
    (term_penalty : bool) (i_max i j : nat) : Z :=
  if negb term_penalty && (i =? i_max)%nat then tget score_table i (j - 1)
  else add32 (tget score_table i (j - 1)) gap_penalty.

Definition from_top (score_table : table) (gap_penalty : Z)
    (term_penalty : bool) (j_max i j : nat) : Z :=
  if negb term_penalty && (j =? j_max)%nat then tget score_table (i - 1) j
  else add32 (tget score_table (i - 1) j) gap_penalty.

(** The body of the two nested loops of [_fill_align_table]; the state is
    the pair of arrays the function mutates. *)
Definition fill_cell (code1 code2 : list nat) (matrix : table)
    (gap_penalty : Z) (term_penalty local : bool) (i_max j_max : nat)
    (st : table * table) (i j : nat) : table * table :=
  let '(trace_table, score_table) := st in
  let d := from_diag code1 code2 matrix score_table i j in
  let l := from_left score_table gap_penalty term_penalty i_max i j in
  let t := from_top score_table gap_penalty term_penalty j_max i j in
  let '(trace, score) := find_maximum d l t in
  if local && (score <=? 0) then
    (trace_table, tset score_table i j 0)
  else
    (tset trace_table i j trace, tset score_table i j score).

(** [for i in range(1, rows): for j in range(1, cols): body] *)
Definition for_cells {S} (rows cols : nat) (body : S -> nat -> nat -> S)
    (st : S) : S :=
  fold_left
    (fun st i => fold_left (fun st j => body st i j) (seq 1 (cols - 1)) st)
    (seq 1 (rows - 1)) st.

Definition _fill_align_table (code1 code2 : list nat) (matrix : table)
    (trace_table score_table : table) (gap_penalty : Z)
    (term_penalty local : bool) : table * table :=
  let i_max := (shape0 score_table - 1)%nat in
  let j_max := (shape1 score_table - 1)%nat in
  for_cells (shape0 score_table) (shape1 score_table)
    (fill_cell code1 code2 matrix gap_penalty term_penalty local i_max j_max)
    (trace_table, score_table).

(** ** Table filling, affine gap penalty *)

(** The arrays [_fill_align_table_affine] mutates. *)
Record affine_tables := {
  a_trace : table;
  a_m : table;
  a_g1 : table;
  a_g2 : table
}.

(** Choice between opening ([mg]) and extending ([gg]) a gap in sequence
    1: trace bits and score. *)
Definition find_gap1 (mg1 g1g1 : Z) : Z * Z :=
  if mg1 >? g1g1 then (8, mg1)
  else if mg1 <? g1g1 then (16, g1g1)
  else (24, mg1).

(** The same for a gap in sequence 2. *)
Definition find_gap2 (mg2 g2g2 : Z) : Z * Z :=
  if mg2 >? g2g2 then (32, mg2)
  else if mg2 <? g2g2 then (64, g2g2)
  else (96, g2g2).

(** [trace &= ~mask] on the [uint8] trace value. *)
Definition clear_bits (trace mask : Z) : Z :=
  Z.land (Z.land trace (Z.lnot mask)) 255.

(** The seven transition scores of cell [(i, j)]. *)
Record transitions := {
  mm_score : Z; g1m_score : Z; g2m_score : Z;
  mg1_score : Z; g1g1_score : Z;
  mg2_score : Z; g2g2_score : Z
}.

Definition cell_transitions (code1 code2 : list nat) (matrix : table)
    (gap_open gap_ext : Z) (term_penalty : bool) (i_max j_max : nat)
    (m_table g1_table g2_table : table) (i j : nat) : transitions :=
  let similarity := tget matrix (cget code1 (i - 1)) (cget code2 (j - 1)) in
  let '(mg1, g1g1) :=
    if negb term_penalty && (i =? i_max)%nat then
      (tget m_table i (j - 1), tget g1_table i (j - 1))
    else
      (add32 (tget m_table i (j - 1)) gap_open,
       add32 (tget g1_table i (j - 1)) gap_ext) in
  let '(mg2, g2g2) :=
    if negb term_penalty && (j =? j_max)%nat then
      (tget m_table (i - 1) j, tget g2_table (i - 1) j)
    else
      (add32 (tget m_table (i - 1) j) gap_open,
       add32 (tget g2_table (i - 1) j) gap_ext) in
  {| mm_score := add32 (tget m_table (i - 1) (j - 1)) similarity;
     g1m_score := add32 (tget g1_table (i - 1) (j - 1)) similarity;
     g2m_score := add32 (tget g2_table (i - 1) (j - 1)) similarity;
     mg1_score := mg1; g1g1_score := g1g1;
     mg2_score := mg2; g2g2_score := g2g2 |}.

(** The body of the two nested loops of [_fill_align_table_affine]. *)
Definition fill_cell_affine (code1 code2 : list nat) (matrix : table)
    (gap_open gap_ext : Z) (term_penalty local : bool) (i_max j_max : nat)
    (st : affine_tables) (i j : nat) : affine_tables :=
  let tr := cell_transitions code1 code2 matrix gap_open gap_ext term_penalty
              i_max j_max (a_m st) (a_g1 st) (a_g2 st) i j in
  let '(trace, m_score) :=
    find_maximum (mm_score tr) (g1m_score tr) (g2m_score tr) in
  let '(bits1, g1_score) := find_gap1 (mg1_score tr) (g1g1_score tr) in
  let trace := Z.lor trace bits1 in
  let '(bits2, g2_score) := find_gap2 (mg2_score tr) (g2g2_score tr) in
  let trace := Z.lor trace bits2 in
  if local then
    let '(m_table, trace) :=
      if m_score <=? 0 then (tset (a_m st) i j 0, clear_bits trace 7)
      else (tset (a_m st) i j m_score, trace) in
    let '(g1_table, trace) :=
      if g1_score <=? 0 then (tset (a_g1 st) i j 0, clear_bits trace 24)
      else (tset (a_g1 st) i j g1_score, trace) in
    let '(g2_table, trace) :=
      if g2_score <=? 0 then (tset (a_g2 st) i j 0, clear_bits trace 96)
      else (tset (a_g2 st) i j g2_score, trace) in
    {| a_trace := tset (a_trace st) i j trace;
       a_m := m_table; a_g1 := g1_table; a_g2 := g2_table |}
  else
    {| a_trace := tset (a_trace st) i j trace;
       a_m := tset (a_m st) i j m_score;
       a_g1 := tset (a_g1 st) i j g1_score;
       a_g2 := tset (a_g2 st) i j g2_score |}.

Definition _fill_align_table_affine (code1 code2 : list nat) (matrix : table)
    (trace_table m_table g1_table g2_table : table) (gap_open gap_ext : Z)
    (term_penalty local : bool) : affine_tables :=
  let i_max := (shape0 trace_table - 1)%nat in
  let j_max := (shape1 trace_table - 1)%nat in
  for_cells (shape0 trace_table) (shape1 trace_table)
    (fill_cell_affine code1 code2 matrix gap_open gap_ext term_penalty local
       i_max j_max)
    {| a_trace := trace_table; a_m := m_table;
       a_g1 := g1_table; a_g2 := g2_table |}.

(** ** Traceback *)

(** Index into one axis of a typed memoryview in a function compiled with
    the default directives (bounds checked, negative indices counted from
    the end): [None] stands for the [IndexError]. *)
Definition mv_index (n : nat) (i : Z) : option nat :=
  let i' := if i <? 0 then i + Z.of_nat n else i in
  if (0 <=? i') && (i' <? Z.of_nat n) then Some (Z.to_nat i') else None.

Definition mv_get (t : table) (i j : Z) : result Z :=
  match mv_index (shape0 t) i, mv_index (shape1 t) j with
  | Some a, Some b => Ok (tget t a b)
  | _, _ => Raise IndexError
  end.

(** [trace[pos, 0] = a; trace[pos, 1] = b] *)
Definition write_row (trace : list (Z * Z)) (pos : nat) (row : Z * Z)
    : result (list (Z * Z)) :=
  if (pos <? length trace)%nat then Ok (<[pos := row]> trace)
  else Raise IndexError.

(** [trace_value & mask] as a truth value. *)
Definition bit_set (trace_value mask : Z) : bool :=
  negb (Z.land trace_value mask =? 0).

Definition when {A} (b : bool) (x : A) : list A := if b then [x] else [].

(** The break test of the loop the call is in: the general loop ([state]
    0) runs [while trace_table[i,j] != 0]; the affine loop breaks when the
    bits of the current state's table are all clear. *)
Definition loop_ends (state trace_value : Z) : bool :=
  if state =? 0 then trace_value =? 0
  else (state =? 1) && (Z.land trace_value 7 =? 0)
    || (state =? 2) && (Z.land trace_value 24 =? 0)
    || (state =? 3) && (Z.land trace_value 96 =? 0).

(** [next_indices] zipped with [next_states] (the general loop stays in
    state 0). *)
Definition next_steps (state trace_value i j : Z) : list (Z * Z * Z) :=
  if state =? 0 then
    when (bit_set trace_value 1) (i - 1, j - 1, 0)
    ++ when (bit_set trace_value 2) (i, j - 1, 0)
    ++ when (bit_set trace_value 4) (i - 1, j, 0)
  else
    let trace_value :=
      if state =? 1 then Z.land trace_value 7
      else if state =? 2 then Z.land trace_value 24
      else Z.land trace_value 96 in
    when (bit_set trace_value 1) (i - 1, j - 1, 1)
    ++ when (bit_set trace_value 2) (i - 1, j - 1, 2)
    ++ when (bit_set trace_value 4) (i - 1, j - 1, 3)
    ++ when (bit_set trace_value 8) (i, j - 1, 1)
    ++ when (bit_set trace_value 16) (i, j - 1, 2)
    ++ when (bit_set trace_value 32) (i - 1, j, 1)
    ++ when (bit_set trace_value 64) (i - 1, j, 3).

(** [tr_arr[(tr_arr[:,0] != -1) | (tr_arr[:,1] != -1)]] *)
Definition trim_trace (trace : list (Z * Z)) : list (Z * Z) :=
  filter (fun row => negb (row.1 =? -1) || negb (row.2 =? -1)) trace.

(** [_follow_trace].  The result is the list of traces the call appends to
    [trace_list], in the order of the appends: those of the recursive
    calls for the split-off branches first, its own last.  One unit of
    fuel is spent per loop iteration and per recursive call.  The two
    loops of the source are one here: a general walk never leaves state 0
    and an affine walk never enters it, so testing [state] in every
    iteration ([loop_ends], [next_steps]) selects the same loop body as
    the test before the loops. *)
Fixpoint _follow_trace (fuel : nat) (trace_table : table) (i j : Z)
    (pos : nat) (trace : list (Z * Z)) (state : Z)
    : result (list (list (Z * Z))) :=
  match fuel with
  | O => OutOfFuel
  | S fuel =>
    trace_value ← mv_get trace_table i j;
    if loop_ends state trace_value then Ok [trim_trace trace]
    else
      trace ← write_row trace pos (i - 1, j - 1);
      let pos := S pos in
      match next_steps state trace_value i j with
      | [] => Raise IndexError
      | first :: others =>
        split ← rmap (fun '(new_i, new_j, new_state) =>
                        _follow_trace fuel trace_table new_i new_j pos trace
                          new_state) others;
        let '(i, j, state) := first in
        own ← _follow_trace fuel trace_table i j pos trace state;
        Ok (concat split ++ own)
      end
  end.

(** ** Optimal alignment *)

(** The values [gap_penalty] can take, by Python type. *)
Inductive py_value :=
| PyInt (z : Z)
| PyTuple (items : list Z)
| PyOther.

(** [np.where(t == v)]: the matching cells in row-major order. *)
Definition np_where (t : table) (v : Z) : list (nat * nat) :=
  concat (imap (fun i row =>
    omap (fun x => x) (imap (fun j x => if x =? v then Some (i, j) else None) row)) t).

(** [np.max] and [np.min] of a non-empty table ([None] when it has no
    element, where numpy raises). *)
Definition list_max (l : list Z) : option Z :=
  match l with [] => None | x :: l' => Some (fold_left Z.max l' x) end.
Definition list_min (l : list Z) : option Z :=
  match l with [] => None | x :: l' => Some (fold_left Z.min l' x) end.
Definition np_max (t : table) : option Z := list_max (concat t).
Definition np_min (t : table) : option Z := list_min (concat t).

(** The indices [np.unique(col, return_index=True)[1]] returns: for every
    distinct value its first position.  (numpy orders them by value; they
    are only used as a set of positions.) *)
Definition first_occurrence (col : list Z) (k : nat) : bool :=
  match col !! k with
  | Some v => negb (existsb (Z.eqb v) (take k col))
  | None => false
  end.
Definition np_unique_index (col : list Z) : list nat :=
  filter (fun k => first_occurrence col k) (seq 0 (length col)).

(** The body of the loop "Replace gap entries in trace with -1". *)
Definition replace_gaps (trace : list (Z * Z)) : list (Z * Z) :=
  let trace := reverse trace in
  let keep0 := np_unique_index (trace.*1) in
  let keep1 := np_unique_index (trace.*2) in
  imap (fun k row =>
          (if bool_decide (k ∈ keep0) then row.1 else -1,
           if bool_decide (k ∈ keep1) then row.2 else -1)) trace.

(** The value for negative infinity of the affine tables, as it is stored
    in an [int32] array. *)
Definition neg_inf (gap_open gap_ext min_score : Z) : Z :=
  let neg_inf := INT32_MIN - 2 * gap_open - 2 * gap_ext in
  if min_score <? 0 then neg_inf - min_score else neg_inf.

(** Initialisation of the score table and of the trace table for the
    general gap penalty. *)
Definition init_general (trace_table score_table : table)
    (gap_penalty : Z) (terminal_penalty local : bool) : table * table :=
  if negb local then
    let score_table :=
      if terminal_penalty then
        let score_table :=
          set_column score_table 0 0
            (fun i => wrap32 (Z.of_nat i * gap_penalty)) in
        set_row score_table 0 0 (fun j => wrap32 (Z.of_nat j * gap_penalty))
      else score_table in
    let trace_table := set_column trace_table 0 1 (fun _ => 4) in
    let trace_table := set_row trace_table 0 1 (fun _ => 2) in
    (trace_table, score_table)
  else (trace_table, score_table).

(** Initialisation of the three score tables and of the trace table for
    the affine gap penalty. *)
Definition init_affine (trace_table m_table g1_table g2_table : table)
    (neg_inf gap_open gap_ext : Z) (terminal_penalty local : bool)
    : affine_tables :=
  let m_table := set_row m_table 0 1 (fun _ => wrap32 neg_inf) in
  let m_table := set_column m_table 0 1 (fun _ => wrap32 neg_inf) in
  let g1_table := set_column g1_table 0 0 (fun _ => wrap32 neg_inf) in
  let g2_table := set_row g2_table 0 0 (fun _ => wrap32 neg_inf) in
  if negb local then
    let '(g1_table, g2_table) :=
      if terminal_penalty then
        (set_row g1_table 0 1
           (fun j => wrap32 (Z.of_nat (j - 1) * gap_ext + gap_open)),
         set_column g2_table 0 1
           (fun i => wrap32 (Z.of_nat (i - 1) * gap_ext + gap_open)))
      else (g1_table, g2_table) in
    let trace_table := set_column trace_table 0 1 (fun _ => 64) in
    let trace_table := set_row trace_table 0 1 (fun _ => 16) in
    {| a_trace := trace_table; a_m := m_table;
       a_g1 := g1_table; a_g2 := g2_table |}
  else
    {| a_trace := trace_table; a_m := m_table;
       a_g1 := g1_table; a_g2 := g2_table |}.

(** A start of the traceback: cell and state. *)
Definition start := (nat * nat * Z)%type.

(** Start cells and optimal score, general gap penalty. *)
Definition starts_general (score_table : table) (local : bool)
    : list start * Z :=
  if local then
    let max_score := default 0 (np_max score_table) in
    (map (fun c => (c.1, c.2, 0)) (np_where score_table max_score), max_score)
  else
    let i_start := (shape0 score_table - 1)%nat in
    let j_start := (shape1 score_table - 1)%nat in
    ([(i_start, j_start, 0)], tget score_table i_start j_start).

(** Start cells and optimal score, affine gap penalty. *)
Definition starts_affine (t : affine_tables) (local : bool) : list start * Z :=
  if local then
    let max_score :=
      default 0 (list_max (concat (a_m t) ++ concat (a_g1 t) ++ concat (a_g2 t))) in
    (map (fun c => (c.1, c.2, 1)) (np_where (a_m t) max_score)
     ++ map (fun c => (c.1, c.2, 2)) (np_where (a_g1 t) max_score)
     ++ map (fun c => (c.1, c.2, 3)) (np_where (a_g2 t) max_score),
     max_score)
  else
    let i_start := (shape0 (a_trace t) - 1)%nat in
    let j_start := (shape1 (a_trace t) - 1)%nat in
    let max_score :=
      Z.max (tget (a_m t) i_start j_start)
        (Z.max (tget (a_g1 t) i_start j_start) (tget (a_g2 t) i_start j_start)) in
    (when (tget (a_m t) i_start j_start =? max_score) (i_start, j_start, 1)
     ++ when (tget (a_g1 t) i_start j_start =? max_score) (i_start, j_start, 2)
     ++ when (tget (a_g2 t) i_start j_start =? max_score) (i_start, j_start, 3),
     max_score).

(** "Follow the traces specified in state and indices lists": the traces
    collected in [trace_list]. *)
Definition follow_start (trace_table : table) (s : start)
    : result (list (list (Z * Z))) :=
  let '(i_start, j_start, state_start) := s in
  (* Pessimistic array allocation *)
  let trace := replicate (i_start + 1 + j_start + 1) (-1, -1) in
  _follow_trace (i_start + j_start + 1) trace_table
    (Z.of_nat i_start) (Z.of_nat j_start) 0 trace state_start.

Definition follow_all (trace_table : table) (starts : list start)
    : result (list (list (Z * Z))) :=
  traces ← rmap (follow_start trace_table) starts;
  Ok (concat traces).

(** Traceback and assembly of the result. *)
Definition traceback (seq1 seq2 : Sequence) (trace_table : table)
    (starts : list start) (max_score : Z) : result (list Alignment) :=
  trace_list ← follow_all trace_table starts;
  Ok (map (fun trace =>
             {| sequences := (seq1, seq2);
                trace := replace_gaps trace;
                score := max_score |}) trace_list).

(** [align_optimal] allocates its tables with [np.zeros]; to speak about
    when that happens, the function is written in a monad that threads the
    log of the table shapes allocated so far next to the result. *)
Definition alloc_log := list (nat * nat).
Definition run (A : Type) : Type := alloc_log -> alloc_log * result A.

#[export] Instance run_ret : MRet run := fun _ a log => (log, Ok a).
#[export] Instance run_bind : MBind run := fun _ _ k m log =>
  match m log with
  | (log', Ok a) => k a log'
  | (log', Raise e) => (log', Raise e)
  | (log', OutOfFuel) => (log', OutOfFuel)
  end.

Definition raise {A} (e : error) : run A := fun log => (log, Raise e).
Definition lift {A} (r : result A) : run A := fun log => (log, r).
Definition alloc_zeros (r c : nat) : run table :=
  fun log => (log ++ [(r, c)], Ok (np_zeros r c)).

(** [gap_penalty[k]] on a tuple. *)
Definition tuple_item (items : list Z) (k : nat) : run Z :=
  match items !! k with
  | Some z => mret z
  | None => raise IndexError
  end.

(** Conversion of a Python integer to a C [int] parameter. *)
Definition as_c_int (z : Z) : run Z :=
  if fits_int32 z then mret z else raise OverflowError.

Definition align_optimal (seq1 seq2 : Sequence) (matrix : SubstitutionMatrix)
    (gap_penalty : py_value) (terminal_penalty local : bool)
    : run (list Alignment) :=
  (* Check matrix alphabets *)
  if negb (extends (get_alphabet1 matrix) (get_alphabet seq1))
     || negb (extends (get_alphabet2 matrix) (get_alphabet seq2)) then
    raise AlphabetMismatch
  else
  (* Check if gap penalty is general or affine *)
  affine_penalty ← match gap_penalty with
                   | PyInt _ => mret false
                   | PyTuple _ => mret true
                   | PyOther => raise InvalidGapPenalty
                   end;
  let len1 := length (code seq1) in
  let len2 := length (code seq2) in
  trace_table ← alloc_zeros (len1 + 1) (len2 + 1);
  let code1 := code seq1 in
  let code2 := code seq2 in
  match gap_penalty with
  | PyTuple items =>
    gap_open ← tuple_item items 0;
    gap_ext ← tuple_item items 1;
    min_score ← match np_min (score_matrix matrix) with
                | Some z => mret z
                | None => raise EmptyMatrixError
                end;
    let neg_inf := neg_inf gap_open gap_ext min_score in
    m_table ← alloc_zeros (len1 + 1) (len2 + 1);
    g1_table ← alloc_zeros (len1 + 1) (len2 + 1);
    g2_table ← alloc_zeros (len1 + 1) (len2 + 1);
    let t := init_affine trace_table m_table g1_table g2_table neg_inf
               gap_open gap_ext terminal_penalty local in
    gap_open ← as_c_int gap_open;
    gap_ext ← as_c_int gap_ext;
    let t := _fill_align_table_affine code1 code2 (score_matrix matrix)
               (a_trace t) (a_m t) (a_g1 t) (a_g2 t) gap_open gap_ext
               terminal_penalty local in
    let '(starts, max_score) := starts_affine t local in
    lift (traceback seq1 seq2 (a_trace t) starts max_score)
  | PyInt gap_penalty =>
    score_table ← alloc_zeros (len1 + 1) (len2 + 1);
    let '(trace_table, score_table) :=
      init_general trace_table score_table gap_penalty terminal_penalty local in
    gap_penalty ← as_c_int gap_penalty;
    let '(trace_table, score_table) :=
      _fill_align_table code1 code2 (score_matrix matrix) trace_table
        score_table gap_penalty terminal_penalty local in
    let '(starts, max_score) := starts_general score_table local in
    lift (traceback seq1 seq2 trace_table starts max_score)
  | PyOther => raise InvalidGapPenalty
  end.

(** ** Worked example of the docstring *)

Definition nucleotide_alphabet : Alphabet := "ACGT"%string.
Definition nuc (codes : list nat) : Sequence :=
  {| get_alphabet := nucleotide_alphabet; code := codes |}.
(** A match/mismatch matrix over the four nucleotides. *)
Definition match_matrix (hit miss : Z) : SubstitutionMatrix :=
  {| get_alphabet1 := nucleotide_alphabet;
     get_alphabet2 := nucleotide_alphabet;
     score_matrix :=
       map (fun a => map (fun b => if (a =? b)%nat then hit else miss)
                         (seq 0 4)) (seq 0 4) |}.
(* A=0 C=1 G=2 T=3 *)
Definition ATACGCTTGCT := nuc [0;3;0;1;2;1;3;3;2;1;3]%nat.
Definition AGGCGCAGCT := nuc [0;2;2;1;2;1;0;2;1;3]%nat.


(** ** Reference definitions from the specification *)

(** What the specification says the ungapped score is: the sum of the
    matrix entries of the paired codes, as an integer. *)
Definition spec_ungapped_score (code1 code2 : list nat) (matrix : table) : Z :=
  foldr Z.add 0
    (map (fun i => tget matrix (cget code1 i) (cget code2 i))
         (seq 0 (length code1))).

(** The identity trace: position [i] of one sequence paired with position
    [i] of the other. *)
Definition identity_trace (n : nat) : list (Z * Z) :=
  map (fun i => (Z.of_nat i, Z.of_nat i)) (seq 0 n).

(** Whether a sequence alphabet is covered by the matrix alphabet of its
    side. *)
Definition covered1 (matrix : SubstitutionMatrix) (s : Sequence) : bool :=
  extends (get_alphabet1 matrix) (get_alphabet s).
Definition covered2 (matrix : SubstitutionMatrix) (s : Sequence) : bool :=
  extends (get_alphabet2 matrix) (get_alphabet s).

(** The gap penalties the specification calls valid: one negative
    integer, or a pair of negative integers. *)
Definition valid_gap_penalty (gap_penalty : py_value) : bool :=
  match gap_penalty with
  | PyInt g => g <? 0
  | PyTuple [gap_open; gap_ext] => (gap_open <? 0) && (gap_ext <? 0)
  | _ => false
  end.

(** Re-scoring of a trace under a general gap penalty: a row with a gap
    costs the penalty, any other row scores its substitution. *)
Definition spec_trace_score (code1 code2 : list nat) (matrix : table)
    (gap_penalty : Z) (tr : list (Z * Z)) : Z :=
  foldr Z.add 0
    (map (fun row =>
            if (row.1 =? -1) || (row.2 =? -1) then gap_penalty
            else tget matrix (cget code1 (Z.to_nat row.1))
                             (cget code2 (Z.to_nat row.2))) tr).

(** All global alignments of the prefixes of lengths [i] and [j], as
    traces: the brute-force reference. *)
Fixpoint all_traces (i : nat) : nat -> list (list (Z * Z)) :=
  match i with
  | O =>
    fix row (j : nat) : list (list (Z * Z)) :=
      match j with
      | O => [[]]
      | S j' => map (fun t => t ++ [(-1, Z.of_nat j')]) (row j')
      end
  | S i' =>
    fix row (j : nat) : list (list (Z * Z)) :=
      match j with
      | O => map (fun t => t ++ [(Z.of_nat i', -1)]) (all_traces i' O)
      | S j' =>
        map (fun t => t ++ [(Z.of_nat i', Z.of_nat j')]) (all_traces i' j')
        ++ map (fun t => t ++ [(-1, Z.of_nat j')]) (row j')
        ++ map (fun t => t ++ [(Z.of_nat i', -1)]) (all_traces i' (S j'))
      end
  end.

(** The best score any global alignment attains (terminal gaps
    penalised). *)
Definition spec_best_score (code1 code2 : list nat) (matrix : table)
    (gap_penalty : Z) : option Z :=
  list_max (map (spec_trace_score code1 code2 matrix gap_penalty)
                (all_traces (length code1) (length code2))).

(** * Properties *)

(** ** Machine arithmetic *)

Lemma wrap32_id x : INT32_MIN <= x <= INT32_MAX -> wrap32 x = x.
Proof.
  unfold wrap32, INT32_MIN, INT32_MAX. intros H.
  rewrite Z.mod_small by lia. lia.
Qed.

Lemma wrap32_range x : INT32_MIN <= wrap32 x <= INT32_MAX.
Proof.
  unfold wrap32, INT32_MIN, INT32_MAX.
  pose proof (Z.mod_pos_bound (x + 2147483648) 4294967296 ltac:(lia)). lia.
Qed.

Lemma wrap32_add_l a b : wrap32 (wrap32 a + b) = wrap32 (a + b).
Proof.
  unfold wrap32.
  replace ((a + 2147483648) mod 4294967296 - 2147483648 + b + 2147483648)
    with ((a + 2147483648) mod 4294967296 + b) by lia.
  rewrite Zplus_mod_idemp_l. f_equal. f_equal. lia.
Qed.

Lemma add32_exact a b :
  INT32_MIN <= a + b <= INT32_MAX -> add32 a b = a + b.
Proof. apply wrap32_id. Qed.

(** ** Ungapped alignment *)

Lemma add_scores_fold (g : nat -> Z) (l : list nat) (acc : Z) :
  fold_left (fun score i => add32 score (g i)) l (wrap32 acc)
  = wrap32 (acc + foldr Z.add 0 (map g l)).
Proof.
  revert acc. induction l as [|x l IH]; intros acc; simpl.
  - f_equal. lia.
  - unfold add32 at 2. rewrite wrap32_add_l, IH. f_equal. lia.
Qed.

(** [_add_scores] computes the specified sum reduced to 32 bits. *)
Lemma add_scores_wrap code1 code2 matrix :
  _add_scores code1 code2 matrix
  = wrap32 (spec_ungapped_score code1 code2 matrix).
Proof.
  unfold _add_scores, spec_ungapped_score.
  change 0 with (wrap32 0) at 1.
  rewrite (add_scores_fold (fun i => tget matrix (cget code1 i) (cget code2 i))).
  reflexivity.
Qed.

Lemma zip_diag {A} (l : list A) : zip l l = map (fun x => (x, x)) l.
Proof. induction l; simpl; congruence. Qed.

(** The numpy expression of [align_ungapped] builds the identity trace. *)
Lemma trivial_trace n :
  np_transpose2 (np_reshape 2 n (np_tile (np_arange n) 2)) = identity_trace n.
Proof.
  unfold np_tile, np_reshape, np_transpose2, identity_trace, np_arange. simpl.
  rewrite app_nil_r, Nat.add_0_r.
  assert (Hlen : n = length (map Z.of_nat (seq 0 n)))
    by (rewrite length_map, length_seq; reflexivity).
  rewrite drop_0, (drop_app_length' _ _ n Hlen).
  rewrite (take_app_length' _ _ n Hlen).
  rewrite <- (app_nil_r (map Z.of_nat (seq 0 n))) at 2.
  rewrite (take_app_length' _ _ n Hlen).
  rewrite zip_diag, map_map. reflexivity.
Qed.

(** The validation of [align_ungapped] lets a call through exactly when
    the lengths agree and at least one side has the alphabet of the
    matrix. *)
Definition ungapped_accepts (seq1 seq2 : Sequence)
    (matrix : SubstitutionMatrix) : Prop :=
  length (code seq1) = length (code seq2)
  /\ (get_alphabet1 matrix = get_alphabet seq1
      \/ get_alphabet2 matrix = get_alphabet seq2).

(** C4, as amended: for every call [align_ungapped] accepts, the score it
    returns is the sum of the matrix entries of the paired codes reduced
    to a signed 32-bit integer (the sum itself whenever it lies in the
    [int32] range), and without [score_only] the alignment carries that
    score and the identity trace. *)
Theorem align_ungapped_score_and_trace seq1 seq2 matrix
    (Hacc : ungapped_accepts seq1 seq2 matrix) :
  let exact := spec_ungapped_score (code seq1) (code seq2) (score_matrix matrix) in
  align_ungapped seq1 seq2 matrix true = Ok (ScoreOnly (wrap32 exact))
  /\ align_ungapped seq1 seq2 matrix false
     = Ok (Aligned {| sequences := (seq1, seq2);
                      trace := identity_trace (length (code seq1));
                      score := wrap32 exact |})
  /\ (INT32_MIN <= exact <= INT32_MAX -> wrap32 exact = exact).
Proof.
  destruct Hacc as [Hlen Halph]. intros exact.
  assert (Hchk : negb (alphabet_eqb (get_alphabet1 matrix) (get_alphabet seq1))
                 && negb (alphabet_eqb (get_alphabet2 matrix) (get_alphabet seq2))
                 = false).
  { unfold alphabet_eqb. destruct Halph as [->| ->];
      rewrite String.eqb_refl; simpl; [reflexivity | apply andb_false_r]. }
  unfold align_ungapped. rewrite Hlen, Nat.eqb_refl. simpl negb. cbv iota.
  rewrite Hchk, trivial_trace, add_scores_wrap, <- Hlen.
  repeat split; auto using wrap32_id.
Qed.

Definition big_matrix : SubstitutionMatrix :=
  {| get_alphabet1 := nucleotide_alphabet;
     get_alphabet2 := nucleotide_alphabet;
     score_matrix := [[1073741824]] |}.

Lemma align_ungapped_score_and_trace_witness :
  align_ungapped (nuc [0;1]%nat) (nuc [0;2]%nat) (match_matrix 5 (-4)) true
  = Ok (ScoreOnly 1).
Proof.
  pose proof (align_ungapped_score_and_trace (nuc [0;1]%nat) (nuc [0;2]%nat)
                (match_matrix 5 (-4))) as H.
  destruct H as [H _].
  - split; [reflexivity | left; reflexivity].
  - exact H.
Defined.

(** C4, counterexample: two positions scoring 2^30 each sum to 2^31, and
    the 32-bit accumulator returns -2^31. *)
Lemma align_ungapped_sum_overflows :
  ungapped_accepts (nuc [0;0]%nat) (nuc [0;0]%nat) big_matrix
  /\ spec_ungapped_score [0;0]%nat [0;0]%nat (score_matrix big_matrix)
     = 2147483648
  /\ align_ungapped (nuc [0;0]%nat) (nuc [0;0]%nat) big_matrix true
     = Ok (ScoreOnly (-2147483648)).
Proof.
  split; [split; [reflexivity | left; reflexivity] |].
  split; vm_compute; reflexivity.
Qed.

(** The alphabet check of [align_ungapped] raises exactly when both sides
    differ from the alphabets of the matrix. *)
Lemma align_ungapped_raises_iff seq1 seq2 matrix score_only :
  length (code seq1) = length (code seq2) ->
  align_ungapped seq1 seq2 matrix score_only = Raise AlphabetMismatch
  <-> (get_alphabet1 matrix <> get_alphabet seq1
       /\ get_alphabet2 matrix <> get_alphabet seq2).
Proof.
  intros Hlen. unfold align_ungapped, alphabet_eqb.
  rewrite Hlen, Nat.eqb_refl. simpl negb. cbv iota.
  destruct (String.eqb_spec (get_alphabet1 matrix) (get_alphabet seq1)) as [E1|E1];
  destruct (String.eqb_spec (get_alphabet2 matrix) (get_alphabet seq2)) as [E2|E2];
  simpl.
  all: try (destruct score_only; (split; [discriminate | intros [? ?]; congruence])).
  split; [tauto | reflexivity].
Qed.

(** A protein-like sequence whose alphabet the nucleotide matrix does not
    cover. *)
Definition foreign_sequence : Sequence :=
  {| get_alphabet := "ACDE"%string; code := [0;1]%nat |}.

(** C3, the failing input: the alphabet of the second sequence is not
    covered by the matrix, the first one's is, and [align_ungapped]
    returns a score instead of raising [AlphabetMismatch].  The check
    joins the two comparisons with [and]; that of [align_optimal] joins
    them with [or] and does raise on the same input. *)
Theorem align_ungapped_one_sided_mismatch :
  covered1 (match_matrix 5 (-4)) (nuc [0;1]%nat) = true
  /\ covered2 (match_matrix 5 (-4)) foreign_sequence = false
  /\ align_ungapped (nuc [0;1]%nat) foreign_sequence (match_matrix 5 (-4)) true
     = Ok (ScoreOnly 10)
  /\ (align_optimal (nuc [0;1]%nat) foreign_sequence (match_matrix 5 (-4))
        (PyInt (-6)) true false []).2 = Raise AlphabetMismatch.
Proof. repeat split; vm_compute; reflexivity. Qed.

(** ** Validation in [align_optimal] *)

(** C2, as amended: [align_optimal] fails with [InvalidGapPenalty] when
    the gap penalty is neither an integer nor a tuple (after the alphabet
    check, which comes first and raises [AlphabetMismatch]); whether the
    supplied values are negative is not checked.  No table is allocated
    before this validation: the allocation log is returned unchanged. *)
Theorem align_optimal_rejects_other_types seq1 seq2 matrix tp local log :
  align_optimal seq1 seq2 matrix PyOther tp local log
  = (log, Raise (if covered1 matrix seq1 && covered2 matrix seq2
                 then InvalidGapPenalty else AlphabetMismatch)).
Proof.
  unfold align_optimal, covered1, covered2.
  destruct (extends (get_alphabet1 matrix) (get_alphabet seq1));
    destruct (extends (get_alphabet2 matrix) (get_alphabet seq2));
    reflexivity.
Qed.

(** C2, counterexample: a gap penalty of 0, and a pair of penalties
    (0, 0), are not valid and are accepted all the same. *)
Lemma align_optimal_accepts_nonnegative_penalty :
  valid_gap_penalty (PyInt 0) = false
  /\ valid_gap_penalty (PyTuple [0; 0]) = false
  /\ (align_optimal (nuc [0]%nat) (nuc [0]%nat) (match_matrix 5 (-4))
        (PyInt 0) true false []).2
     = Ok [{| sequences := (nuc [0]%nat, nuc [0]%nat);
              trace := [(0, 0)]; score := 5 |}]
  /\ (align_optimal (nuc [0]%nat) (nuc [0]%nat) (match_matrix 5 (-4))
        (PyTuple [0; 0]) true false []).2
     = Ok [{| sequences := (nuc [0]%nat, nuc [0]%nat);
              trace := [(0, 0)]; score := 5 |}].
Proof. repeat split; vm_compute; reflexivity. Qed.

(** ** The tables of [align_optimal] *)

(** The trace table and the score table [align_optimal] hands to the
    traceback for a general gap penalty. *)
Definition general_tables (code1 code2 : list nat) (matrix : table)
    (gap_penalty : Z) (terminal_penalty local : bool) : table * table :=
  let rows := (length code1 + 1)%nat in
  let cols := (length code2 + 1)%nat in
  let '(trace_table, score_table) :=
    init_general (np_zeros rows cols) (np_zeros rows cols) gap_penalty
      terminal_penalty local in
  _fill_align_table code1 code2 matrix trace_table score_table gap_penalty
    terminal_penalty local.

(** The initial tables for an affine gap penalty; [min_score] is the
    smallest entry of the matrix. *)
Definition affine_init (code1 code2 : list nat) (min_score : Z)
    (gap_open gap_ext : Z) (terminal_penalty local : bool) : affine_tables :=
  let rows := (length code1 + 1)%nat in
  let cols := (length code2 + 1)%nat in
  init_affine (np_zeros rows cols) (np_zeros rows cols) (np_zeros rows cols)
    (np_zeros rows cols) (neg_inf gap_open gap_ext min_score) gap_open gap_ext
    terminal_penalty local.

(** The four tables [align_optimal] hands to the traceback for an affine
    gap penalty. *)
Definition affine_fill (code1 code2 : list nat) (matrix : table)
    (min_score : Z) (gap_open gap_ext : Z) (terminal_penalty local : bool)
    : affine_tables :=
  let t := affine_init code1 code2 min_score gap_open gap_ext
             terminal_penalty local in
  _fill_align_table_affine code1 code2 matrix (a_trace t) (a_m t) (a_g1 t)
    (a_g2 t) gap_open gap_ext terminal_penalty local.

(** [align_optimal] on an integer gap penalty, once the validation has
    passed. *)
Lemma align_optimal_general seq1 seq2 matrix g tp local log :
  covered1 matrix seq1 = true -> covered2 matrix seq2 = true ->
  fits_int32 g = true ->
  align_optimal seq1 seq2 matrix (PyInt g) tp local log
  = (log ++ [((length (code seq1) + 1)%nat, (length (code seq2) + 1)%nat);
             ((length (code seq1) + 1)%nat, (length (code seq2) + 1)%nat)],
     let '(trace_table, score_table) :=
       general_tables (code seq1) (code seq2) (score_matrix matrix) g tp local in
     let '(starts, max_score) := starts_general score_table local in
     traceback seq1 seq2 trace_table starts max_score).
Proof.
  unfold covered1, covered2. intros H1 H2 Hg.
  unfold align_optimal, general_tables. rewrite H1, H2. simpl.
  unfold mbind, run_bind, alloc_zeros, as_c_int. simpl.
  destruct (init_general _ _ g tp local) as [tt0 st0].
  rewrite Hg. unfold mret, run_ret.
  destruct (_fill_align_table _ _ _ tt0 st0 g tp local) as [tt st].
  destruct (starts_general st local) as [starts mx].
  unfold lift. rewrite <- app_assoc. reflexivity.
Qed.

(** [align_optimal] on a pair of gap penalties, once the validation has
    passed. *)
Lemma align_optimal_affine seq1 seq2 matrix go ge more min_score tp local log :
  covered1 matrix seq1 = true -> covered2 matrix seq2 = true ->
  np_min (score_matrix matrix) = Some min_score ->
  fits_int32 go = true -> fits_int32 ge = true ->
  align_optimal seq1 seq2 matrix (PyTuple (go :: ge :: more)) tp local log
  = (log ++ replicate 4 ((length (code seq1) + 1)%nat, (length (code seq2) + 1)%nat),
     let t := affine_fill (code seq1) (code seq2) (score_matrix matrix)
                min_score go ge tp local in
     let '(starts, max_score) := starts_affine t local in
     traceback seq1 seq2 (a_trace t) starts max_score).
Proof.
  unfold covered1, covered2. intros H1 H2 Hmin Hgo Hge.
  unfold align_optimal, affine_fill, affine_init. rewrite H1, H2. simpl.
  unfold mbind, run_bind, alloc_zeros, as_c_int, tuple_item. simpl.
  rewrite Hmin. unfold mret, run_ret. rewrite Hgo, Hge.
  match goal with |- context [starts_affine ?t local] =>
    destruct (starts_affine t local) as [starts mx] end.
  unfold lift. rewrite <- !app_assoc. reflexivity.
Qed.

(** ** The tie of the two gap candidates *)

(** C1, the failing input (general filler): for the sequences [A] and [C],
    a mismatch score of -10 and a gap penalty of -1 (global alignment,
    terminal gaps penalised), the candidates of cell (1,1) are -10 from
    the diagonal and -2 from the left and from the top; the filler marks
    left and top in the trace (6) and stores -10, the diagonal candidate,
    not the maximum -2. *)
Theorem fill_stores_diagonal_on_gap_tie :
  let code1 := [0%nat] in
  let code2 := [1%nat] in
  let matrix := score_matrix (match_matrix 5 (-10)) in
  let before := init_general (np_zeros 2 2) (np_zeros 2 2) (-1) true false in
  let after := general_tables code1 code2 matrix (-1) true false in
  from_diag code1 code2 matrix before.2 1 1 = -10
  /\ from_left before.2 (-1) true 1 1 1 = -2
  /\ from_top before.2 (-1) true 1 1 1 = -2
  /\ tget after.2 1 1 = -10
  /\ tget after.1 1 1 = 6.
Proof. repeat split; vm_compute; reflexivity. Qed.

(** The same slip in the match table of the affine filler: for [AAA]
    against [CCA], match 5, mismatch -4, penalties (-2, -1), global
    alignment with free terminal gaps, the three transitions into the
    match state of cell (3,3) score -3, -1 and -1, and -3 is stored. *)
Lemma fill_affine_stores_match_on_gap_tie :
  let code1 := [0;0;0]%nat in
  let code2 := [1;1;0]%nat in
  let matrix := score_matrix (match_matrix 5 (-4)) in
  let t := affine_fill code1 code2 matrix (-4) (-2) (-1) false false in
  let tr := cell_transitions code1 code2 matrix (-2) (-1) false 3 3
              (a_m t) (a_g1 t) (a_g2 t) 3 3 in
  (mm_score tr, g1m_score tr, g2m_score tr) = (-3, -1, -1)
  /\ tget (a_m t) 3 3 = -3
  /\ Z.land (tget (a_trace t) 3 3) 7 = 6.
Proof. repeat split; vm_compute; reflexivity. Qed.

(** C5, the failing input: on the input of
    [fill_stores_diagonal_on_gap_tie] [align_optimal] returns the two
    alignments that pair each symbol with a gap and reports the score -10
    for them; re-scored, each of these alignments is worth -2, which is
    also the best score any global alignment of the two sequences attains.
    This is the slip of the tie branch of the filler (C1) surfacing in the
    result. *)
Theorem align_optimal_reports_suboptimal_score :
  let seq1 := nuc [0%nat] in
  let seq2 := nuc [1%nat] in
  let matrix := match_matrix 5 (-10) in
  (align_optimal seq1 seq2 matrix (PyInt (-1)) true false []).2
  = Ok [{| sequences := (seq1, seq2); trace := [(-1, 0); (0, -1)]; score := -10 |};
        {| sequences := (seq1, seq2); trace := [(0, -1); (-1, 0)]; score := -10 |}]
  /\ spec_trace_score [0%nat] [1%nat] (score_matrix matrix) (-1) [(-1, 0); (0, -1)] = -2
  /\ spec_trace_score [0%nat] [1%nat] (score_matrix matrix) (-1) [(0, -1); (-1, 0)] = -2
  /\ spec_best_score [0%nat] [1%nat] (score_matrix matrix) (-1) = Some (-2).
Proof. repeat split; vm_compute; reflexivity. Qed.

(** ** Reading and writing tables *)

(** A table of [r] rows of [c] entries each. *)
Definition rect (r c : nat) (t : table) : Prop :=
  length t = r /\ Forall (fun row => length row = c) t.

Lemma rect_row r c t i row : rect r c t -> t !! i = Some row -> length row = c.
Proof.
  intros [_ H] Hi. rewrite Forall_lookup in H. exact (H i row Hi).
Qed.

Lemma rect_lookup r c t i :
  rect r c t -> (i < r)%nat -> exists row, t !! i = Some row /\ length row = c.
Proof.
  intros Hr Hi. destruct (lookup_lt_is_Some_2 t i) as [row Hrow].
  { destruct Hr as [-> _]. exact Hi. }
  exists row. split; [exact Hrow | exact (rect_row _ _ _ _ _ Hr Hrow)].
Qed.

Lemma np_zeros_rect r c : rect r c (np_zeros r c).
Proof.
  unfold np_zeros. split; [apply length_replicate |].
  apply Forall_forall. intros row Hrow.
  apply elem_of_replicate in Hrow as [-> _]. apply length_replicate.
Qed.

Lemma tget_np_zeros r c i j : tget (np_zeros r c) i j = 0.
Proof.
  unfold tget, np_zeros.
  destruct (_ !! i) as [row|] eqn:E; [|reflexivity].
  apply lookup_replicate in E as [-> _].
  destruct (_ !! j) as [v|] eqn:E'; [|reflexivity].
  apply lookup_replicate in E' as [-> _]. reflexivity.
Qed.

Lemma shape0_rect r c t : rect r c t -> shape0 t = r.
Proof. intros [H _]. exact H. Qed.

Lemma shape1_rect r c t : rect r c t -> (0 < r)%nat -> shape1 t = c.
Proof.
  intros Hr Hpos. destruct (rect_lookup r c t 0 Hr Hpos) as (row & Hrow & Hlen).
  destruct t as [|row' t]; [discriminate|]. simpl in *. congruence.
Qed.

Lemma tset_rect r c t i j v : rect r c t -> rect r c (tset t i j v).
Proof.
  intros [Hlen Hrows]. unfold tset. split.
  - rewrite length_alter. exact Hlen.
  - apply Forall_lookup. intros k row Hk.
    rewrite list_lookup_alter in Hk. rewrite Forall_lookup in Hrows.
    destruct (decide (i = k)) as [->|Hne].
    + destruct (t !! k) as [row'|] eqn:E; [|discriminate].
      simpl in Hk. injection Hk as <-. rewrite length_insert. eauto.
    + eauto.
Qed.

Lemma tget_tset_eq r c t i j v :
  rect r c t -> (i < r)%nat -> (j < c)%nat -> tget (tset t i j v) i j = v.
Proof.
  intros Hr Hi Hj. destruct (rect_lookup r c t i Hr Hi) as (row & Hrow & Hlen).
  unfold tget, tset. rewrite list_lookup_alter_eq, Hrow. simpl.
  rewrite list_lookup_insert_eq by lia. reflexivity.
Qed.

Lemma tget_tset_ne t i j v i' j' :
  (i, j) <> (i', j') -> tget (tset t i j v) i' j' = tget t i' j'.
Proof.
  intros Hne. unfold tget, tset. rewrite list_lookup_alter.
  destruct (decide (i = i')) as [<-|Hi]; [|reflexivity].
  destruct (t !! i) as [row|]; [|reflexivity]. simpl.
  rewrite list_lookup_insert_ne by congruence. reflexivity.
Qed.

Lemma set_column_rect r c t j lo f : rect r c t -> rect r c (set_column t j lo f).
Proof.
  intros [Hlen Hrows]. unfold set_column. split.
  - rewrite length_imap. exact Hlen.
  - apply Forall_lookup. intros k row Hk.
    apply list_lookup_imap_Some in Hk as (row' & Hrow' & ->).
    rewrite Forall_lookup in Hrows. specialize (Hrows k row' Hrow').
    destruct (lo <=? k)%nat; [rewrite length_insert|]; exact Hrows.
Qed.

Lemma set_row_rect r c t i lo f : rect r c t -> rect r c (set_row t i lo f).
Proof.
  intros [Hlen Hrows]. unfold set_row. split.
  - rewrite length_alter. exact Hlen.
  - apply Forall_lookup. intros k row Hk.
    rewrite list_lookup_alter in Hk. rewrite Forall_lookup in Hrows.
    destruct (decide (i = k)) as [->|Hne].
    + destruct (t !! k) as [row'|] eqn:E; [|discriminate].
      simpl in Hk. injection Hk as <-. rewrite length_imap. eauto.
    + eauto.
Qed.

Lemma tget_outside r c t i j :
  rect r c t -> (r <= i)%nat \/ (c <= j)%nat -> tget t i j = 0.
Proof.
  intros Hr Hout. unfold tget.
  destruct (t !! i) as [row|] eqn:E; [|reflexivity].
  pose proof (rect_row _ _ _ _ _ Hr E) as Hlen.
  pose proof (lookup_lt_Some _ _ _ E) as Hi. destruct Hr as [Hr _].
  destruct Hout as [Hout|Hout]; [lia|].
  rewrite (lookup_ge_None_2 row j) by lia. reflexivity.
Qed.

Lemma tget_set_column r c t j lo f i' j' :
  rect r c t ->
  tget (set_column t j lo f) i' j'
  = if decide (j' = j /\ (lo <= i' < r)%nat /\ (j < c)%nat) then f i'
    else tget t i' j'.
Proof.
  intros Hr. unfold tget at 1, set_column. rewrite list_lookup_imap.
  destruct (decide (i' < r)%nat) as [Hi|Hi].
  - destruct (rect_lookup r c t i' Hr Hi) as (row & Hrow & Hlen).
    rewrite Hrow. simpl. unfold tget. rewrite Hrow.
    destruct (Nat.leb_spec lo i') as [Hlo|Hlo].
    + destruct (decide (j' = j)) as [->|Hj].
      * destruct (decide (j < c)%nat) as [Hjc|Hjc].
        -- rewrite list_lookup_insert_eq by lia.
           rewrite decide_True by lia. reflexivity.
        -- rewrite list_insert_ge by lia. rewrite decide_False by lia.
           reflexivity.
      * rewrite list_lookup_insert_ne by congruence.
        rewrite decide_False by tauto. reflexivity.
    + rewrite decide_False by lia. reflexivity.
  - rewrite decide_False by lia.
    rewrite (tget_outside r c t i' j' Hr) by lia.
    destruct Hr as [Hr _]. rewrite (lookup_ge_None_2 t i') by lia. reflexivity.
Qed.

Lemma tget_set_row r c t i lo f i' j' :
  rect r c t ->
  tget (set_row t i lo f) i' j'
  = if decide (i' = i /\ (lo <= j' < c)%nat /\ (i < r)%nat) then f j'
    else tget t i' j'.
Proof.
  intros Hr. unfold tget at 1, set_row. rewrite list_lookup_alter.
  destruct (decide (i = i')) as [<-|Hne].
  - destruct (decide (i < r)%nat) as [Hi|Hi].
    + destruct (rect_lookup r c t i Hr Hi) as (row & Hrow & Hlen).
      rewrite Hrow. simpl. rewrite list_lookup_imap. unfold tget. rewrite Hrow.
      destruct (row !! j') as [v|] eqn:E; simpl.
      * pose proof (lookup_lt_Some _ _ _ E).
        destruct (Nat.leb_spec lo j').
        -- rewrite decide_True by lia. reflexivity.
        -- rewrite decide_False by lia. reflexivity.
      * apply lookup_ge_None in E. rewrite decide_False by lia. reflexivity.
    + rewrite decide_False by lia.
      rewrite (tget_outside r c t i j' Hr) by lia.
      destruct Hr as [Hr _]. rewrite (lookup_ge_None_2 t i) by lia. reflexivity.
  - rewrite decide_False by (intros [? _]; congruence). reflexivity.
Qed.

(** ** The order in which the fillers visit the cells *)

(** The cells the two nested loops visit, in order. *)
Definition cells (rows cols : nat) : list (nat * nat) :=
  concat (map (fun i => map (pair i) (seq 1 (cols - 1))) (seq 1 (rows - 1))).

(** Row-major order. *)
Definition before (c c' : nat * nat) : Prop :=
  (c.1 < c'.1)%nat \/ (c.1 = c'.1 /\ (c.2 < c'.2)%nat).

Lemma for_cells_flat {S} rows cols (body : S -> nat -> nat -> S) st :
  for_cells rows cols body st
  = fold_left (fun st c => body st c.1 c.2) (cells rows cols) st.
Proof.
  unfold for_cells, cells. generalize (seq 1 (rows - 1)) as ks.
  intros ks. revert st. induction ks as [|i ks IH]; intros st; simpl.
  - reflexivity.
  - rewrite fold_left_app, IH. f_equal.
    generalize (seq 1 (cols - 1)) as js. intros js. revert st.
    induction js as [|j js IHj]; intros st; simpl; [reflexivity | apply IHj].
Qed.

Lemma elem_of_concat {A} (x : A) (ls : list (list A)) :
  x ∈ concat ls <-> exists l, x ∈ l /\ l ∈ ls.
Proof.
  induction ls as [|l ls IH]; simpl.
  - split; [intros H; inversion H | intros (l & _ & H); inversion H].
  - rewrite elem_of_app, IH. split.
    + intros [H|(l' & H1 & H2)]; [exists l | exists l'];
        (split; [assumption|]); [left | right; assumption].
    + intros (l' & H1 & H2). apply elem_of_cons in H2 as [->|H2];
        [left; assumption | right; eauto].
Qed.

Lemma elem_of_cells rows cols i j :
  (i, j) ∈ cells rows cols <-> (1 <= i < rows)%nat /\ (1 <= j < cols)%nat.
Proof.
  unfold cells. rewrite elem_of_concat. split.
  - intros (l & Hin & Hl). apply list_elem_of_fmap in Hl as (i' & -> & Hi').
    apply list_elem_of_fmap in Hin as (j' & [= -> ->] & Hj').
    apply elem_of_seq in Hi', Hj'. lia.
  - intros [Hi Hj]. exists (map (pair i) (seq 1 (cols - 1))). split.
    + apply list_elem_of_fmap. exists j. split; [reflexivity|].
      apply elem_of_seq. lia.
    + apply list_elem_of_fmap. exists i. split; [reflexivity|].
      apply elem_of_seq. lia.
Qed.

Lemma seq_sorted a n : StronglySorted lt (seq a n).
Proof.
  revert a. induction n as [|n IH]; intros a; simpl; constructor.
  - apply IH.
  - apply Forall_forall. intros x Hx. apply elem_of_seq in Hx. lia.
Qed.

Lemma cells_sorted rows cols : StronglySorted before (cells rows cols).
Proof.
  unfold cells. pose proof (seq_sorted 1 (rows - 1)) as Hs.
  induction Hs as [|i ks Hks IH Hall]; simpl; [constructor|].
  apply StronglySorted_app_2.
  - intros c c' Hc Hc'.
    apply list_elem_of_fmap in Hc as (j & -> & _).
    apply elem_of_concat in Hc' as (l & Hin & Hl).
    apply list_elem_of_fmap in Hl as (i' & -> & Hi').
    apply list_elem_of_fmap in Hin as (j' & -> & _).
    left. simpl. rewrite Forall_forall in Hall. apply Hall. exact Hi'.
  - apply (StronglySorted_fmap _ lt); [|apply seq_sorted].
    intros x y Hxy. right. simpl. split; [reflexivity | exact Hxy].
  - exact IH.
Qed.

(** In a run of the loops every cell visited earlier comes before the
    current one. *)
Lemma cells_split rows cols done c rest :
  cells rows cols = done ++ c :: rest ->
  ((1 <= c.1 < rows)%nat /\ (1 <= c.2 < cols)%nat)
  /\ (forall c', c' ∈ done -> before c' c)
  /\ c ∉ done.
Proof.
  intros Hsplit. pose proof (cells_sorted rows cols) as Hs.
  rewrite Hsplit in Hs.
  assert (Hbefore : forall c', c' ∈ done -> before c' c).
  { intros c' Hc'. eapply StronglySorted_app_1_elem_of; [exact Hs | exact Hc' |].
    left. }
  split; [|split; [exact Hbefore|]].
  - destruct c as [i j]. apply elem_of_cells. rewrite Hsplit.
    apply elem_of_app. right. left.
  - intros Hc. specialize (Hbefore c Hc). unfold before in Hbefore. lia.
Qed.

(** Invariants of a fold are proved on the prefix processed so far. *)
Lemma fold_left_prefix {S C} (f : S -> C -> S) (I : list C -> S -> Prop)
    (l : list C) (st0 : S) :
  I [] st0 ->
  (forall done c rest st,
      l = done ++ c :: rest -> I done st -> I (done ++ [c]) (f st c)) ->
  I l (fold_left f l st0).
Proof.
  intros H0 Hstep.
  assert (Hgen : forall rest done st,
             l = done ++ rest -> I done st -> I l (fold_left f rest st)).
  { induction rest as [|c rest IH]; intros done st Hl Hd; simpl.
    - rewrite app_nil_r in Hl. subst. exact Hd.
    - apply (IH (done ++ [c])).
      + rewrite <- app_assoc. exact Hl.
      + eapply Hstep; eauto. }
  apply (Hgen l [] st0); [reflexivity | exact H0].
Qed.

(** ** What the general filler leaves in the tables *)

Section general_filler.
Context (code1 code2 : list nat) (matrix : table).
Context (gap_penalty : Z) (term_penalty local : bool).
Context (r c : nat).

(** The trace bits and the score the filler selects for cell [(i, j)]
    from the candidates read in [score_table]. *)
Definition selected (score_table : table) (i j : nat) : Z * Z :=
  find_maximum
    (from_diag code1 code2 matrix score_table i j)
    (from_left score_table gap_penalty term_penalty (r - 1) i j)
    (from_top score_table gap_penalty term_penalty (c - 1) i j).

(** Cell [(i, j)] of the tables holds what the loop body stores in it,
    computed from the neighbours as they are in the same tables;
    [trace0] is the trace table before the fill. *)
Definition cell_filled (trace0 trace_table score_table : table)
    (i j : nat) : Prop :=
  let '(trace, score) := selected score_table i j in
  if local && (score <=? 0) then
    tget score_table i j = 0 /\ tget trace_table i j = tget trace0 i j
  else
    tget score_table i j = score /\ tget trace_table i j = trace.

Lemma selected_tset st a b v i j :
  (a, b) <> ((i - 1)%nat, (j - 1)%nat) -> (a, b) <> (i, (j - 1)%nat) ->
  (a, b) <> ((i - 1)%nat, j) ->
  selected (tset st a b v) i j = selected st i j.
Proof.
  intros H1 H2 H3. unfold selected, from_diag, from_left, from_top.
  rewrite !tget_tset_ne by assumption. reflexivity.
Qed.

Lemma fill_cell_step (trace0 score0 : table) done i j rest tt st :
  cells r c = done ++ (i, j) :: rest ->
  (rect r c tt /\ rect r c st
   /\ (forall i' j', (i', j') ∈ done -> cell_filled trace0 tt st i' j')
   /\ (forall i' j', (i', j') ∉ done ->
         tget tt i' j' = tget trace0 i' j' /\ tget st i' j' = tget score0 i' j')) ->
  let st' := fill_cell code1 code2 matrix gap_penalty term_penalty local
               (r - 1) (c - 1) (tt, st) i j in
  rect r c st'.1 /\ rect r c st'.2
  /\ (forall i' j', (i', j') ∈ done ++ [(i, j)] ->
        cell_filled trace0 st'.1 st'.2 i' j')
  /\ (forall i' j', (i', j') ∉ done ++ [(i, j)] ->
        tget st'.1 i' j' = tget trace0 i' j'
        /\ tget st'.2 i' j' = tget score0 i' j').
Proof.
  intros Hsplit (Hrt & Hrs & Hdone & Hrest).
  apply cells_split in Hsplit as ([Hi Hj] & Hbefore & Hfresh). simpl in Hi, Hj.
  destruct (Hrest i j Hfresh) as [Htt0 Hst0].
  unfold fill_cell. fold (selected st i j).
  destruct (selected st i j) as [trace score] eqn:Hsel.
  assert (Hframe : forall i' j', (i', j') ∈ done ->
            (i, j) <> (i', j') /\ forall v, selected (tset st i j v) i' j' = selected st i' j').
  { intros i' j' Hin. specialize (Hbefore _ Hin). unfold before in Hbefore.
    simpl in Hbefore. split; [intros [=]; lia|].
    intros v. apply selected_tset; intros [=]; lia. }
  assert (Hself : forall v, selected (tset st i j v) i j = (trace, score)).
  { intros v. rewrite <- Hsel. apply selected_tset; intros [=]; lia. }
  destruct (local && (score <=? 0)) eqn:Hclamp; simpl;
    (split; [auto using tset_rect | split; [auto using tset_rect |]]); split.
  - intros i' j' Hin. apply elem_of_app in Hin as [Hin|Hin].
    + destruct (Hframe i' j' Hin) as [Hne Hsame].
      specialize (Hdone i' j' Hin). unfold cell_filled in *.
      rewrite Hsame, tget_tset_ne by exact Hne. exact Hdone.
    + apply list_elem_of_singleton in Hin as [= -> ->].
      unfold cell_filled. rewrite Hself, Hclamp.
      rewrite (tget_tset_eq r c) by (assumption || lia). auto.
  - intros i' j' Hout. apply not_elem_of_app in Hout as [Hout Hne].
    rewrite list_elem_of_singleton in Hne.
    rewrite tget_tset_ne by congruence. apply Hrest. exact Hout.
  - intros i' j' Hin. apply elem_of_app in Hin as [Hin|Hin].
    + destruct (Hframe i' j' Hin) as [Hne Hsame].
      specialize (Hdone i' j' Hin). unfold cell_filled in *.
      rewrite Hsame, !tget_tset_ne by exact Hne. exact Hdone.
    + apply list_elem_of_singleton in Hin as [= -> ->].
      unfold cell_filled. rewrite Hself, Hclamp.
      rewrite !(tget_tset_eq r c) by (assumption || lia). auto.
  - intros i' j' Hout. apply not_elem_of_app in Hout as [Hout Hne].
    rewrite list_elem_of_singleton in Hne.
    rewrite !tget_tset_ne by congruence. apply Hrest. exact Hout.
Qed.

(** After [_fill_align_table] every interior cell is filled from its
    neighbours and every border cell is as it was. *)
Lemma fill_align_table_cells (trace0 score0 : table) :
  rect r c trace0 -> rect r c score0 -> (0 < r)%nat ->
  let after := _fill_align_table code1 code2 matrix trace0 score0
                 gap_penalty term_penalty local in
  rect r c after.1 /\ rect r c after.2
  /\ (forall i j, (1 <= i < r)%nat -> (1 <= j < c)%nat ->
        cell_filled trace0 after.1 after.2 i j)
  /\ (forall i j, (i = 0 \/ j = 0)%nat ->
        tget after.1 i j = tget trace0 i j
        /\ tget after.2 i j = tget score0 i j).
Proof.
  intros Hrt Hrs Hpos. unfold _fill_align_table.
  rewrite (shape0_rect r c score0 Hrs), (shape1_rect r c score0 Hrs Hpos).
  rewrite for_cells_flat.
  pose proof (fold_left_prefix
    (fun st cl => fill_cell code1 code2 matrix gap_penalty term_penalty local
                    (r - 1) (c - 1) st cl.1 cl.2)
    (fun done st =>
       rect r c st.1 /\ rect r c st.2
       /\ (forall i' j', (i', j') ∈ done -> cell_filled trace0 st.1 st.2 i' j')
       /\ (forall i' j', (i', j') ∉ done ->
             tget st.1 i' j' = tget trace0 i' j'
             /\ tget st.2 i' j' = tget score0 i' j'))
    (cells r c) (trace0, score0)) as Hfold.
  simpl in Hfold. destruct Hfold as (H1 & H2 & H3 & H4).
  - split; [exact Hrt | split; [exact Hrs | split]]; [|auto].
    intros i' j' Hin. inversion Hin.
  - intros done [i j] rest [tt st] Hsplit Hinv.
    exact (fill_cell_step trace0 score0 done i j rest tt st Hsplit Hinv).
  - split; [exact H1 | split; [exact H2 | split]].
    + intros i j Hi Hj. apply H3. apply elem_of_cells. lia.
    + intros i j Hb. apply H4. rewrite elem_of_cells. lia.
Qed.
End general_filler.

(** ** What the affine filler leaves in the tables *)

(** The values the loop body of the affine filler stores in a cell, as a
    function of the seven transition scores: trace byte, match score and
    the two gap scores. *)
Definition stored_affine (local : bool) (tr : transitions) : Z * Z * Z * Z :=
  let '(trace, m_score) :=
    find_maximum (mm_score tr) (g1m_score tr) (g2m_score tr) in
  let '(bits1, g1_score) := find_gap1 (mg1_score tr) (g1g1_score tr) in
  let '(bits2, g2_score) := find_gap2 (mg2_score tr) (g2g2_score tr) in
  let trace := Z.lor (Z.lor trace bits1) bits2 in
  if local then
    let '(m, trace) :=
      if m_score <=? 0 then (0, clear_bits trace 7) else (m_score, trace) in
    let '(g1, trace) :=
      if g1_score <=? 0 then (0, clear_bits trace 24) else (g1_score, trace) in
    let '(g2, trace) :=
      if g2_score <=? 0 then (0, clear_bits trace 96) else (g2_score, trace) in
    (trace, m, g1, g2)
  else (trace, m_score, g1_score, g2_score).

Section affine_filler.
Context (code1 code2 : list nat) (matrix : table).
Context (gap_open gap_ext : Z) (term_penalty local : bool).
Context (r c : nat).

Definition transitions_at (t : affine_tables) (i j : nat) : transitions :=
  cell_transitions code1 code2 matrix gap_open gap_ext term_penalty
    (r - 1) (c - 1) (a_m t) (a_g1 t) (a_g2 t) i j.

(** The four tables agree in cell [(i, j)] with what the loop body
    stores there, computed from the neighbours in the same tables. *)
Definition cell_filled_affine (t : affine_tables) (i j : nat) : Prop :=
  (tget (a_trace t) i j, tget (a_m t) i j, tget (a_g1 t) i j,
   tget (a_g2 t) i j)
  = stored_affine local (transitions_at t i j).

Definition rect4 (t : affine_tables) : Prop :=
  rect r c (a_trace t) /\ rect r c (a_m t) /\ rect r c (a_g1 t)
  /\ rect r c (a_g2 t).

Lemma fill_cell_affine_stored st i j :
  fill_cell_affine code1 code2 matrix gap_open gap_ext term_penalty local
    (r - 1) (c - 1) st i j
  = let '(trace, m, g1, g2) := stored_affine local (transitions_at st i j) in
    {| a_trace := tset (a_trace st) i j trace;
       a_m := tset (a_m st) i j m;
       a_g1 := tset (a_g1 st) i j g1;
       a_g2 := tset (a_g2 st) i j g2 |}.
Proof.
  unfold fill_cell_affine, stored_affine. fold (transitions_at st i j).
  destruct (find_maximum _ _ _) as [trace m_score].
  destruct (find_gap1 _ _) as [bits1 g1_score].
  destruct (find_gap2 _ _) as [bits2 g2_score].
  destruct local; [|reflexivity].
  destruct (m_score <=? 0); destruct (g1_score <=? 0);
    destruct (g2_score <=? 0); reflexivity.
Qed.

Lemma transitions_frame t t' i j :
  (forall a b, (a, b) = ((i - 1)%nat, (j - 1)%nat) \/ (a, b) = (i, (j - 1)%nat)
               \/ (a, b) = ((i - 1)%nat, j) ->
     tget (a_m t') a b = tget (a_m t) a b
     /\ tget (a_g1 t') a b = tget (a_g1 t) a b
     /\ tget (a_g2 t') a b = tget (a_g2 t) a b) ->
  transitions_at t' i j = transitions_at t i j.
Proof.
  intros H. unfold transitions_at, cell_transitions.
  destruct (H (i - 1)%nat (j - 1)%nat) as (D1 & D2 & D3); [auto|].
  destruct (H i (j - 1)%nat) as (L1 & L2 & _); [auto|].
  destruct (H (i - 1)%nat j) as (T1 & _ & T3); [auto|].
  rewrite D1, D2, D3, L1, L2, T1, T3. reflexivity.
Qed.

Lemma fill_cell_affine_step (t0 : affine_tables) done i j rest st :
  cells r c = done ++ (i, j) :: rest ->
  (rect4 st
   /\ (forall i' j', (i', j') ∈ done -> cell_filled_affine st i' j')
   /\ (forall i' j', (i', j') ∉ done ->
         tget (a_trace st) i' j' = tget (a_trace t0) i' j'
         /\ tget (a_m st) i' j' = tget (a_m t0) i' j'
         /\ tget (a_g1 st) i' j' = tget (a_g1 t0) i' j'
         /\ tget (a_g2 st) i' j' = tget (a_g2 t0) i' j')) ->
  let st' := fill_cell_affine code1 code2 matrix gap_open gap_ext
               term_penalty local (r - 1) (c - 1) st i j in
  rect4 st'
  /\ (forall i' j', (i', j') ∈ done ++ [(i, j)] -> cell_filled_affine st' i' j')
  /\ (forall i' j', (i', j') ∉ done ++ [(i, j)] ->
        tget (a_trace st') i' j' = tget (a_trace t0) i' j'
        /\ tget (a_m st') i' j' = tget (a_m t0) i' j'
        /\ tget (a_g1 st') i' j' = tget (a_g1 t0) i' j'
        /\ tget (a_g2 st') i' j' = tget (a_g2 t0) i' j').
Proof.
  intros Hsplit (Hrect & Hdone & Hrest).
  apply cells_split in Hsplit as ([Hi Hj] & Hbefore & Hfresh). simpl in Hi, Hj.
  rewrite fill_cell_affine_stored.
  destruct (stored_affine local (transitions_at st i j))
    as [[[trace m] g1] g2] eqn:Hst.
  set (st' := {| a_trace := tset (a_trace st) i j trace;
                 a_m := tset (a_m st) i j m;
                 a_g1 := tset (a_g1 st) i j g1;
                 a_g2 := tset (a_g2 st) i j g2 |}).
  destruct Hrect as (R1 & R2 & R3 & R4).
  assert (Hother : forall a b, (i, j) <> (a, b) ->
            tget (a_trace st') a b = tget (a_trace st) a b
            /\ tget (a_m st') a b = tget (a_m st) a b
            /\ tget (a_g1 st') a b = tget (a_g1 st) a b
            /\ tget (a_g2 st') a b = tget (a_g2 st) a b).
  { intros a b Hne. simpl. rewrite !tget_tset_ne by exact Hne. auto. }
  assert (Hframe : forall i' j', (i', j') = (i, j) \/ (i', j') ∈ done ->
            transitions_at st' i' j' = transitions_at st i' j').
  { intros i' j' Hin. apply transitions_frame. intros a b Hab.
    apply Hother.
    destruct Hin as [[= -> ->]|Hin].
    - destruct Hab as [[=]|[[=]|[=]]]; intros [=]; lia.
    - specialize (Hbefore _ Hin). unfold before in Hbefore. simpl in Hbefore.
      destruct Hab as [[=]|[[=]|[=]]]; intros [=]; lia. }
  split; [|split].
  - unfold rect4. simpl.
    split; [|split; [|split]]; apply tset_rect; assumption.
  - intros i' j' Hin. unfold cell_filled_affine.
    apply elem_of_app in Hin as [Hin|Hin].
    + rewrite Hframe by auto.
      specialize (Hbefore _ Hin). unfold before in Hbefore. simpl in Hbefore.
      destruct (Hother i' j') as (-> & -> & -> & ->); [intros [=]; lia|].
      apply Hdone. exact Hin.
    + apply list_elem_of_singleton in Hin as [= -> ->].
      rewrite Hframe, Hst by auto. simpl.
      rewrite !(tget_tset_eq r c) by (assumption || lia). reflexivity.
  - intros i' j' Hout. apply not_elem_of_app in Hout as [Hout Hne].
    rewrite list_elem_of_singleton in Hne.
    destruct (Hother i' j') as (-> & -> & -> & ->); [congruence|].
    apply Hrest. exact Hout.
Qed.

(** After [_fill_align_table_affine] every interior cell is filled from
    its neighbours and every border cell is as it was. *)
Lemma fill_align_table_affine_cells (t0 : affine_tables) :
  rect4 t0 -> (0 < r)%nat ->
  let after := _fill_align_table_affine code1 code2 matrix (a_trace t0)
                 (a_m t0) (a_g1 t0) (a_g2 t0) gap_open gap_ext
                 term_penalty local in
  rect4 after
  /\ (forall i j, (1 <= i < r)%nat -> (1 <= j < c)%nat ->
        cell_filled_affine after i j)
  /\ (forall i j, (i = 0 \/ j = 0)%nat ->
        tget (a_trace after) i j = tget (a_trace t0) i j
        /\ tget (a_m after) i j = tget (a_m t0) i j
        /\ tget (a_g1 after) i j = tget (a_g1 t0) i j
        /\ tget (a_g2 after) i j = tget (a_g2 t0) i j).
Proof.
  intros Hrect Hpos. unfold _fill_align_table_affine.
  pose proof Hrect as (R1 & _).
  rewrite (shape0_rect r c _ R1), (shape1_rect r c _ R1 Hpos).
  rewrite for_cells_flat.
  pose proof (fold_left_prefix
    (fun st cl => fill_cell_affine code1 code2 matrix gap_open gap_ext
                    term_penalty local (r - 1) (c - 1) st cl.1 cl.2)
    (fun done st =>
       rect4 st
       /\ (forall i' j', (i', j') ∈ done -> cell_filled_affine st i' j')
       /\ (forall i' j', (i', j') ∉ done ->
             tget (a_trace st) i' j' = tget (a_trace t0) i' j'
             /\ tget (a_m st) i' j' = tget (a_m t0) i' j'
             /\ tget (a_g1 st) i' j' = tget (a_g1 t0) i' j'
             /\ tget (a_g2 st) i' j' = tget (a_g2 t0) i' j'))
    (cells r c)
    {| a_trace := a_trace t0; a_m := a_m t0;
       a_g1 := a_g1 t0; a_g2 := a_g2 t0 |}) as Hfold.
  simpl in Hfold. destruct Hfold as (H1 & H2 & H3).
  - split; [exact Hrect | split; [|auto]].
    intros i' j' Hin. inversion Hin.
  - intros done [i j] rest st Hsplit Hinv.
    exact (fill_cell_affine_step t0 done i j rest st Hsplit Hinv).
  - split; [exact H1 | split].
    + intros i j Hi Hj. apply H2. apply elem_of_cells. lia.
    + intros i j Hb. apply H3. rewrite elem_of_cells. lia.
Qed.
End affine_filler.

(** ** The tables before and after the fill *)

Lemma init_general_rect r c g tp local :
  let t := init_general (np_zeros r c) (np_zeros r c) g tp local in
  rect r c t.1 /\ rect r c t.2.
Proof.
  unfold init_general.
  destruct local; simpl; [split; apply np_zeros_rect|].
  destruct tp; split;
    repeat first [apply set_row_rect | apply set_column_rect | apply np_zeros_rect].
Qed.

(** The trace table before the general fill: empty in local mode; in
    global mode the first column points up (4) and the first row points
    left (2), the corner is empty. *)
Lemma init_general_trace r c g tp local i j :
  tget (init_general (np_zeros r c) (np_zeros r c) g tp local).1 i j
  = if local then 0
    else if decide (i = 0 /\ 1 <= j < c /\ 0 < r)%nat then 2
    else if decide (j = 0 /\ 1 <= i < r /\ 0 < c)%nat then 4
    else 0.
Proof.
  unfold init_general. destruct local; simpl; [apply tget_np_zeros|].
  rewrite (tget_set_row r c) by (apply set_column_rect, np_zeros_rect).
  rewrite (tget_set_column r c) by apply np_zeros_rect.
  rewrite tget_np_zeros. reflexivity.
Qed.

(** The score table before the general fill. *)
Lemma init_general_score r c g tp local i j :
  tget (init_general (np_zeros r c) (np_zeros r c) g tp local).2 i j
  = if local || negb tp then 0
    else if decide (i = 0 /\ j < c /\ 0 < r)%nat then wrap32 (Z.of_nat j * g)
    else if decide (j = 0 /\ i < r /\ 0 < c)%nat then wrap32 (Z.of_nat i * g)
    else 0.
Proof.
  unfold init_general. destruct local; simpl; [apply tget_np_zeros|].
  destruct tp; simpl; [|apply tget_np_zeros].
  rewrite (tget_set_row r c) by (apply set_column_rect, np_zeros_rect).
  rewrite (tget_set_column r c) by apply np_zeros_rect.
  rewrite tget_np_zeros.
  repeat (destruct (decide _) as [?|?]); try reflexivity; lia.
Qed.

(** The tables of [align_optimal] for a general gap penalty: interior
    cells are filled from their neighbours, the border is as
    initialised. *)
Lemma general_tables_cells code1 code2 matrix g tp local :
  let r := (length code1 + 1)%nat in
  let c := (length code2 + 1)%nat in
  let before := init_general (np_zeros r c) (np_zeros r c) g tp local in
  let after := general_tables code1 code2 matrix g tp local in
  rect r c after.1 /\ rect r c after.2
  /\ (forall i j, (1 <= i < r)%nat -> (1 <= j < c)%nat ->
        cell_filled code1 code2 matrix g tp local r c before.1 after.1 after.2 i j)
  /\ (forall i j, (i = 0 \/ j = 0)%nat ->
        tget after.1 i j = tget before.1 i j
        /\ tget after.2 i j = tget before.2 i j).
Proof.
  intros r c before after. subst after. unfold general_tables.
  fold r c. fold before.
  destruct (init_general_rect r c g tp local) as [R1 R2]. fold before in R1, R2.
  destruct before as [trace0 score0]. simpl in *.
  apply fill_align_table_cells; auto. subst r. lia.
Qed.

(** ** Properties of the comparisons *)

Lemma find_maximum_trace d l t :
  In (find_maximum d l t).1 [1; 2; 3; 4; 5; 6; 7].
Proof.
  unfold find_maximum.
  repeat (destruct (_ >? _) || destruct (_ =? _)); simpl; tauto.
Qed.

(** The score [find_maximum] selects is one of the candidates, hence at
    most their maximum. *)
Lemma find_maximum_le d l t :
  (find_maximum d l t).2 <= Z.max d (Z.max l t).
Proof.
  unfold find_maximum.
  repeat (destruct (_ >? _) || destruct (_ =? _)); simpl; lia.
Qed.

(** Outside the tie of the two gap candidates above the diagonal one, the
    selected score is the maximum. *)
Lemma find_maximum_max d l t :
  ~ (d < l /\ l = t) -> (find_maximum d l t).2 = Z.max d (Z.max l t).
Proof.
  unfold find_maximum. intros H.
  destruct (Z.gtb_spec d l); destruct (Z.eqb_spec d l);
    destruct (Z.gtb_spec d t); destruct (Z.eqb_spec d t);
    destruct (Z.gtb_spec l t); destruct (Z.eqb_spec l t); simpl; lia.
Qed.

Lemma find_gap1_score a b : (find_gap1 a b).2 = Z.max a b.
Proof.
  unfold find_gap1.
  destruct (Z.gtb_spec a b); [simpl; lia|].
  destruct (Z.ltb_spec a b); simpl; lia.
Qed.

Lemma find_gap2_score a b : (find_gap2 a b).2 = Z.max a b.
Proof.
  unfold find_gap2.
  destruct (Z.gtb_spec a b); [simpl; lia|].
  destruct (Z.ltb_spec a b); simpl; lia.
Qed.

Lemma find_gap1_trace a b : In (find_gap1 a b).1 [8; 16; 24].
Proof.
  unfold find_gap1. destruct (a >? b); [|destruct (a <? b)]; simpl; tauto.
Qed.

Lemma find_gap2_trace a b : In (find_gap2 a b).1 [32; 64; 96].
Proof.
  unfold find_gap2. destruct (a >? b); [|destruct (a <? b)]; simpl; tauto.
Qed.

Lemma init_affine_rect r c ninf go ge tp local :
  rect4 r c (init_affine (np_zeros r c) (np_zeros r c) (np_zeros r c)
               (np_zeros r c) ninf go ge tp local).
Proof.
  unfold init_affine, rect4.
  destruct local; [|destruct tp]; simpl;
    (split; [|split; [|split]]);
    repeat first [apply set_row_rect | apply set_column_rect | apply np_zeros_rect].
Qed.

(** The tables before the affine fill.  [far] is the stored value for
    negative infinity. *)
Lemma init_affine_values r c ninf go ge tp local i j :
  let t := init_affine (np_zeros r c) (np_zeros r c) (np_zeros r c)
             (np_zeros r c) ninf go ge tp local in
  let far := wrap32 ninf in
  let top_row := (i = 0 /\ 1 <= j < c /\ 0 < r)%nat in
  let left_col := (j = 0 /\ 1 <= i < r /\ 0 < c)%nat in
  let corner := (i = 0 /\ j = 0 /\ 0 < r /\ 0 < c)%nat in
  tget (a_trace t) i j
  = (if local then 0
     else if decide top_row then 16 else if decide left_col then 64 else 0)
  /\ tget (a_m t) i j
     = (if decide (top_row \/ left_col) then far else 0)
  /\ tget (a_g1 t) i j
     = (if decide (left_col \/ corner) then far
        else if decide top_row then
          if local || negb tp then 0
          else wrap32 (Z.of_nat (j - 1) * ge + go)
        else 0)
  /\ tget (a_g2 t) i j
     = (if decide (top_row \/ corner) then far
        else if decide left_col then
          if local || negb tp then 0
          else wrap32 (Z.of_nat (i - 1) * ge + go)
        else 0).
Proof.
  intros t far top_row left_col corner. subst t top_row left_col corner.
  unfold init_affine.
  destruct local; [|destruct tp]; simpl;
    repeat first
      [ rewrite (tget_set_row r c)
          by repeat first [apply set_row_rect | apply set_column_rect
                          | apply np_zeros_rect]
      | rewrite (tget_set_column r c)
          by repeat first [apply set_row_rect | apply set_column_rect
                          | apply np_zeros_rect] ];
    rewrite ?tget_np_zeros;
    repeat split;
    repeat (destruct (decide _) as [?|?]); try reflexivity; lia.
Qed.

(** The tables of [align_optimal] for an affine gap penalty: interior
    cells are filled from their neighbours, the border is as
    initialised. *)
Lemma affine_fill_cells code1 code2 matrix min_score go ge tp local :
  let r := (length code1 + 1)%nat in
  let c := (length code2 + 1)%nat in
  let before := affine_init code1 code2 min_score go ge tp local in
  let after := affine_fill code1 code2 matrix min_score go ge tp local in
  rect4 r c after
  /\ (forall i j, (1 <= i < r)%nat -> (1 <= j < c)%nat ->
        cell_filled_affine code1 code2 matrix go ge tp local r c after i j)
  /\ (forall i j, (i = 0 \/ j = 0)%nat ->
        tget (a_trace after) i j = tget (a_trace before) i j
        /\ tget (a_m after) i j = tget (a_m before) i j
        /\ tget (a_g1 after) i j = tget (a_g1 before) i j
        /\ tget (a_g2 after) i j = tget (a_g2 before) i j).
Proof.
  intros r c before after. subst after. unfold affine_fill. fold before.
  apply fill_align_table_affine_cells; [|subst r; lia].
  subst before. unfold affine_init. fold r c. apply init_affine_rect.
Qed.

(** The trace byte of the affine filler keeps the three groups of bits
    apart: each group holds the bits of its own comparison, or nothing
    when its table was clamped. *)
Lemma stored_affine_local tr :
  let m_sel := find_maximum (mm_score tr) (g1m_score tr) (g2m_score tr) in
  let g1_sel := find_gap1 (mg1_score tr) (g1g1_score tr) in
  let g2_sel := find_gap2 (mg2_score tr) (g2g2_score tr) in
  let '(trace, m, g1, g2) := stored_affine true tr in
  m = (if m_sel.2 <=? 0 then 0 else m_sel.2)
  /\ g1 = (if g1_sel.2 <=? 0 then 0 else g1_sel.2)
  /\ g2 = (if g2_sel.2 <=? 0 then 0 else g2_sel.2)
  /\ Z.land trace 7 = (if m_sel.2 <=? 0 then 0 else m_sel.1)
  /\ Z.land trace 24 = (if g1_sel.2 <=? 0 then 0 else g1_sel.1)
  /\ Z.land trace 96 = (if g2_sel.2 <=? 0 then 0 else g2_sel.1).
Proof.
  unfold stored_affine.
  pose proof (find_maximum_trace (mm_score tr) (g1m_score tr) (g2m_score tr)) as H0.
  pose proof (find_gap1_trace (mg1_score tr) (g1g1_score tr)) as H1.
  pose proof (find_gap2_trace (mg2_score tr) (g2g2_score tr)) as H2.
  destruct (find_maximum _ _ _) as [b0 s0].
  destruct (find_gap1 _ _) as [b1 s1].
  destruct (find_gap2 _ _) as [b2 s2]. simpl in *.
  destruct (s0 <=? 0); destruct (s1 <=? 0); destruct (s2 <=? 0);
    repeat (destruct H0 as [<-|H0]); try contradiction;
    repeat (destruct H1 as [<-|H1]); try contradiction;
    repeat (destruct H2 as [<-|H2]); try contradiction;
    repeat split; reflexivity.
Qed.

Lemma stored_affine_global tr :
  stored_affine false tr
  = (Z.lor (Z.lor (find_maximum (mm_score tr) (g1m_score tr) (g2m_score tr)).1
                  (find_gap1 (mg1_score tr) (g1g1_score tr)).1)
           (find_gap2 (mg2_score tr) (g2g2_score tr)).1,
     (find_maximum (mm_score tr) (g1m_score tr) (g2m_score tr)).2,
     (find_gap1 (mg1_score tr) (g1g1_score tr)).2,
     (find_gap2 (mg2_score tr) (g2g2_score tr)).2).
Proof.
  unfold stored_affine.
  destruct (find_maximum _ _ _), (find_gap1 _ _), (find_gap2 _ _). reflexivity.
Qed.

(** ** Zero-clamping in local mode *)

Lemma loop_ends_general v : loop_ends 0 v = (v =? 0).
Proof. reflexivity. Qed.

Lemma loop_ends_match v : loop_ends 1 v = (Z.land v 7 =? 0).
Proof. unfold loop_ends. simpl. rewrite !orb_false_r. reflexivity. Qed.

Lemma loop_ends_gap1 v : loop_ends 2 v = (Z.land v 24 =? 0).
Proof. unfold loop_ends. simpl. rewrite !orb_false_r. reflexivity. Qed.

Lemma loop_ends_gap2 v : loop_ends 3 v = (Z.land v 96 =? 0).
Proof. unfold loop_ends. simpl. reflexivity. Qed.

Lemma clamped_bits (s b : Z) (choices : list Z) :
  In b choices -> ~ In 0 choices ->
  ((if s <=? 0 then 0 else b) =? 0) = (s <=? 0).
Proof.
  intros Hb H0. destruct (s <=? 0); [reflexivity|].
  apply Z.eqb_neq. intros ->. exact (H0 Hb).
Qed.

(** C7: in local mode, for every interior cell the general filler stores
    score 0 and leaves the trace empty whenever the maximum of the three
    candidates is at most 0, and the general traceback loop ends at an
    interior cell exactly when the filler clamped it.  The affine filler
    clamps each of its three tables on its own: a table whose candidates
    are all at most 0 gets score 0 and its own group of trace bits (7, 24
    or 96) cleared; each group holds the bits of its own comparison
    unless its own table was clamped, whatever happened to the other two;
    and the affine traceback loop ends in a state exactly when the table
    of that state was clamped at the cell. *)
Theorem local_clamp code1 code2 matrix tp i j
    (Hi : (1 <= i <= length code1)%nat) (Hj : (1 <= j <= length code2)%nat) :
  (forall g,
     let tables := general_tables code1 code2 matrix g tp true in
     let d := from_diag code1 code2 matrix tables.2 i j in
     let l := from_left tables.2 g tp (length code1) i j in
     let t := from_top tables.2 g tp (length code2) i j in
     (Z.max d (Z.max l t) <= 0 ->
        tget tables.2 i j = 0 /\ tget tables.1 i j = 0)
     /\ loop_ends 0 (tget tables.1 i j) = ((find_maximum d l t).2 <=? 0))
  /\ (forall go ge min_score,
     let t := affine_fill code1 code2 matrix min_score go ge tp true in
     let tr := cell_transitions code1 code2 matrix go ge tp (length code1)
                 (length code2) (a_m t) (a_g1 t) (a_g2 t) i j in
     let v := tget (a_trace t) i j in
     let m_sel := find_maximum (mm_score tr) (g1m_score tr) (g2m_score tr) in
     let g1_sel := find_gap1 (mg1_score tr) (g1g1_score tr) in
     let g2_sel := find_gap2 (mg2_score tr) (g2g2_score tr) in
     (Z.max (mm_score tr) (Z.max (g1m_score tr) (g2m_score tr)) <= 0 ->
        tget (a_m t) i j = 0 /\ Z.land v 7 = 0)
     /\ (Z.max (mg1_score tr) (g1g1_score tr) <= 0 ->
        tget (a_g1 t) i j = 0 /\ Z.land v 24 = 0)
     /\ (Z.max (mg2_score tr) (g2g2_score tr) <= 0 ->
        tget (a_g2 t) i j = 0 /\ Z.land v 96 = 0)
     /\ Z.land v 7 = (if m_sel.2 <=? 0 then 0 else m_sel.1)
     /\ Z.land v 24 = (if g1_sel.2 <=? 0 then 0 else g1_sel.1)
     /\ Z.land v 96 = (if g2_sel.2 <=? 0 then 0 else g2_sel.1)
     /\ loop_ends 1 v = (m_sel.2 <=? 0)
     /\ loop_ends 2 v = (g1_sel.2 <=? 0)
     /\ loop_ends 3 v = (g2_sel.2 <=? 0)).
Proof.
  split.
  - intros g tables d l t.
    destruct (general_tables_cells code1 code2 matrix g tp true)
      as (_ & _ & Hcell & _).
    specialize (Hcell i j ltac:(lia) ltac:(lia)). fold tables in Hcell.
    unfold cell_filled, selected in Hcell.
    rewrite !Nat.add_sub in Hcell. fold d l t in Hcell.
    rewrite init_general_trace in Hcell.
    pose proof (find_maximum_le d l t) as Hle.
    pose proof (find_maximum_trace d l t) as Htr.
    destruct (find_maximum d l t) as [trace score]. simpl in *.
    destruct (Z.leb_spec score 0) as [Hs|Hs]; destruct Hcell as [Hst Htt].
    + rewrite Htt. auto.
    + rewrite Htt, loop_ends_general. split; [lia|].
      apply Z.eqb_neq. intros ->. simpl in Htr. intuition discriminate.
  - intros go ge min_score t tr v m_sel g1_sel g2_sel.
    destruct (affine_fill_cells code1 code2 matrix min_score go ge tp true)
      as (_ & Hcell & _).
    specialize (Hcell i j ltac:(lia) ltac:(lia)). fold t in Hcell.
    unfold cell_filled_affine, transitions_at in Hcell.
    rewrite !Nat.add_sub in Hcell. fold tr v in Hcell.
    pose proof (stored_affine_local tr) as Hst.
    rewrite <- Hcell in Hst. fold m_sel g1_sel g2_sel in Hst.
    destruct Hst as (Hm & Hg1 & Hg2 & Hb0 & Hb1 & Hb2).
    pose proof (find_maximum_le (mm_score tr) (g1m_score tr) (g2m_score tr)) as Hle.
    pose proof (find_gap1_score (mg1_score tr) (g1g1_score tr)) as Hs1.
    pose proof (find_gap2_score (mg2_score tr) (g2g2_score tr)) as Hs2.
    fold m_sel in Hle. fold g1_sel in Hs1. fold g2_sel in Hs2.
    repeat split; try assumption.
    + rewrite Hm. intros. rewrite (proj2 (Z.leb_le _ _)) by lia. reflexivity.
    + rewrite Hb0. intros. rewrite (proj2 (Z.leb_le _ _)) by lia. reflexivity.
    + rewrite Hg1. intros. rewrite (proj2 (Z.leb_le _ _)) by lia. reflexivity.
    + rewrite Hb1. intros. rewrite (proj2 (Z.leb_le _ _)) by lia. reflexivity.
    + rewrite Hg2. intros. rewrite (proj2 (Z.leb_le _ _)) by lia. reflexivity.
    + rewrite Hb2. intros. rewrite (proj2 (Z.leb_le _ _)) by lia. reflexivity.
    + rewrite loop_ends_match, Hb0.
      apply (clamped_bits _ _ [1; 2; 3; 4; 5; 6; 7]);
        [apply find_maximum_trace | simpl; intuition discriminate].
    + rewrite loop_ends_gap1, Hb1.
      apply (clamped_bits _ _ [8; 16; 24]);
        [apply find_gap1_trace | simpl; intuition discriminate].
    + rewrite loop_ends_gap2, Hb2.
      apply (clamped_bits _ _ [32; 64; 96]);
        [apply find_gap2_trace | simpl; intuition discriminate].
Qed.

Lemma local_clamp_witness :
  let tables :=
    general_tables [0%nat] [1%nat] (score_matrix (match_matrix 5 (-4))) (-6)
      true true in
  tget tables.2 1 1 = 0 /\ tget tables.1 1 1 = 0.
Proof.
  destruct (local_clamp [0%nat] [1%nat] (score_matrix (match_matrix 5 (-4)))
              true 1 1) as [H _]; [simpl; lia | simpl; lia |].
  apply (H (-6)). vm_compute. discriminate.
Defined.

(** ** Terminal gaps in local mode *)

(** The stored score: clamped in local mode. *)
Definition clamp (local : bool) (score : Z) : Z :=
  if local && (score <=? 0) then 0 else score.

Lemma cell_filled_score code1 code2 matrix g tp local r c trace0 tt st i j :
  cell_filled code1 code2 matrix g tp local r c trace0 tt st i j ->
  tget st i j = clamp local (selected code1 code2 matrix g tp r c st i j).2.
Proof.
  unfold cell_filled, clamp.
  destruct (selected _ _ _ _ _ _ _ _ _ _) as [trace score]. simpl.
  destruct (local && (score <=? 0)); tauto.
Qed.

Lemma cell_filled_affine_scores code1 code2 matrix go ge tp local r c t i j :
  cell_filled_affine code1 code2 matrix go ge tp local r c t i j ->
  let tr := transitions_at code1 code2 matrix go ge tp r c t i j in
  tget (a_m t) i j
  = clamp local (find_maximum (mm_score tr) (g1m_score tr) (g2m_score tr)).2
  /\ tget (a_g1 t) i j = clamp local (Z.max (mg1_score tr) (g1g1_score tr))
  /\ tget (a_g2 t) i j = clamp local (Z.max (mg2_score tr) (g2g2_score tr)).
Proof.
  intros H. cbv zeta. unfold cell_filled_affine in H.
  set (tr := transitions_at code1 code2 matrix go ge tp r c t i j) in *.
  unfold clamp. rewrite <- find_gap1_score, <- find_gap2_score.
  destruct local; simpl.
  - pose proof (stored_affine_local tr) as Hs. rewrite <- H in Hs.
    destruct Hs as (-> & -> & -> & _). auto.
  - rewrite stored_affine_global in H. injection H as _ -> -> ->. auto.
Qed.

(** C10: with [terminal_penalty] false the fillers charge nothing for a
    gap candidate that enters the last row from the left or the last
    column from the top, in local mode as in global mode: the general
    filler stores in a cell of the last row the (clamped) selection among
    the diagonal candidate, the unpenalised score of the left neighbour
    and the top candidate, and symmetrically in the last column; the
    affine filler stores in its gap tables the (clamped) larger of the
    match and gap scores of that neighbour, without gap-open or
    gap-extend.  In consequence local alignments depend on
    [terminal_penalty]: for [A] against [AC] (match 2, mismatch -1, gap
    penalty -1) cell (1,2) scores 1 with terminal penalties and 2
    without, the traceback starts from one cell in the first case and
    from two in the second, and the lists of alignments differ. *)
Theorem terminal_gaps_free_in_local_mode :
  (forall code1 code2 matrix g local i j,
     (1 <= i <= length code1)%nat -> (1 <= j <= length code2)%nat ->
     let st := (general_tables code1 code2 matrix g false local).2 in
     (i = length code1 ->
        tget st i j
        = clamp local
            (find_maximum (from_diag code1 code2 matrix st i j)
               (tget st i (j - 1))
               (from_top st g false (length code2) i j)).2)
     /\ (j = length code2 ->
        tget st i j
        = clamp local
            (find_maximum (from_diag code1 code2 matrix st i j)
               (from_left st g false (length code1) i j)
               (tget st (i - 1) j)).2))
  /\ (forall code1 code2 matrix min_score go ge local i j,
     (1 <= i <= length code1)%nat -> (1 <= j <= length code2)%nat ->
     let t := affine_fill code1 code2 matrix min_score go ge false local in
     (i = length code1 ->
        tget (a_g1 t) i j
        = clamp local (Z.max (tget (a_m t) i (j - 1)) (tget (a_g1 t) i (j - 1))))
     /\ (j = length code2 ->
        tget (a_g2 t) i j
        = clamp local (Z.max (tget (a_m t) (i - 1) j) (tget (a_g2 t) (i - 1) j))))
  /\ (let seq1 := nuc [0%nat] in
      let seq2 := nuc [0%nat; 1%nat] in
      let matrix := match_matrix 2 (-1) in
      let tables tp :=
        general_tables (code seq1) (code seq2) (score_matrix matrix) (-1) tp true in
      let aligned tp :=
        (align_optimal seq1 seq2 matrix (PyInt (-1)) tp true []).2 in
      tget (tables true).2 1 2 = 1
      /\ tget (tables false).2 1 2 = 2
      /\ (starts_general (tables true).2 true).1 = [(1%nat, 1%nat, 0)]
      /\ (starts_general (tables false).2 true).1 = [(1%nat, 1%nat, 0); (1%nat, 2%nat, 0)]
      /\ aligned true
         = Ok [{| sequences := (seq1, seq2); trace := [(0, 0)]; score := 2 |}]
      /\ aligned false
         = Ok [{| sequences := (seq1, seq2); trace := [(0, 0)]; score := 2 |};
               {| sequences := (seq1, seq2); trace := [(0, 0); (-1, 1)];
                  score := 2 |}]).
Proof.
  split; [|split].
  - intros code1 code2 matrix g local i j Hi Hj st.
    destruct (general_tables_cells code1 code2 matrix g false local)
      as (_ & _ & Hcell & _).
    specialize (Hcell i j ltac:(lia) ltac:(lia)).
    apply cell_filled_score in Hcell. fold st in Hcell.
    unfold selected in Hcell. rewrite !Nat.add_sub in Hcell.
    split; intros ->; rewrite Hcell at 1; f_equal; f_equal.
    + f_equal. unfold from_left. rewrite Nat.eqb_refl. reflexivity.
    + unfold from_top. rewrite Nat.eqb_refl. reflexivity.
  - intros code1 code2 matrix min_score go ge local i j Hi Hj t.
    destruct (affine_fill_cells code1 code2 matrix min_score go ge false local)
      as (_ & Hcell & _).
    specialize (Hcell i j ltac:(lia) ltac:(lia)).
    apply cell_filled_affine_scores in Hcell. fold t in Hcell.
    destruct Hcell as (_ & H1 & H2).
    unfold transitions_at, cell_transitions in H1, H2.
    rewrite !Nat.add_sub in H1, H2.
    split; intros ->.
    + rewrite H1. rewrite Nat.eqb_refl. simpl.
      destruct (j =? length code2)%nat; reflexivity.
    + rewrite H2. rewrite Nat.eqb_refl. simpl.
      destruct (i =? length code1)%nat; reflexivity.
  - repeat split; vm_compute; reflexivity.
Qed.

Lemma terminal_gaps_free_in_local_mode_witness :
  let st :=
    (general_tables [0%nat] [0%nat; 1%nat] (score_matrix (match_matrix 2 (-1)))
       (-1) false true).2 in
  tget st 1 2
  = clamp true
      (find_maximum
         (from_diag [0%nat] [0%nat; 1%nat] (score_matrix (match_matrix 2 (-1))) st 1 2)
         (tget st 1 (2 - 1)) (from_top st (-1) false 2 1 2)).2.
Proof.
  destruct terminal_gaps_free_in_local_mode as (H & _ & _).
  destruct (H [0%nat] [0%nat; 1%nat] (score_matrix (match_matrix 2 (-1)))
              (-1) true 1%nat 2%nat) as [H1 _]; [simpl; lia | simpl; lia |].
  apply H1. reflexivity.
Defined.


(** ** The value for negative infinity *)

Lemma fold_min_le (l : list Z) (a : Z) :
  fold_left Z.min l a <= a /\ forall x, x ∈ l -> fold_left Z.min l a <= x.
Proof.
  revert a. induction l as [|y l IH]; intros a; simpl.
  - split; [lia | intros x Hx; inversion Hx].
  - destruct (IH (Z.min a y)) as [H1 H2]. split; [lia|].
    intros x Hx. apply elem_of_cons in Hx as [->|Hx]; [lia | auto].
Qed.

(** [np.min] is a lower bound of the entries. *)
Lemma np_min_le (matrix : table) (min_score x : Z) :
  np_min matrix = Some min_score -> x ∈ concat matrix -> min_score <= x.
Proof.
  unfold np_min, list_min. destruct (concat matrix) as [|a l]; [discriminate|].
  intros [= <-] Hx. destruct (fold_min_le l a) as [H1 H2].
  apply elem_of_cons in Hx as [->|Hx]; auto.
Qed.

(** C8, as amended: for negative gap-open and gap-extend penalties and a
    matrix whose smallest entry is [min_score], provided the value for
    negative infinity [INT32_MIN - 2*gap_open - 2*gap_ext] (minus
    [min_score] when that is negative) is itself not positive, this value
    is what the border cells of the affine tables hold (first row and
    column of the match table, first column of the gap-1 table, first row
    of the gap-2 table), and adding one transition addend to it, that is
    gap_open, gap_ext or an entry of the matrix, gives a result inside
    the signed 32-bit range, so that [add32] is exact on it. *)
Theorem sentinel_addition_exact code1 code2 matrix min_score go ge tp local
    (x : Z) (i j : nat)
    (Hgo : go < 0) (Hge : ge < 0)
    (Hmin : np_min matrix = Some min_score)
    (Hbound : neg_inf go ge min_score <= 0)
    (Hx : x = go \/ x = ge \/ (x ∈ concat matrix /\ x <= INT32_MAX))
    (Hi : (1 <= i <= length code1)%nat) (Hj : (1 <= j <= length code2)%nat) :
  let t := affine_fill code1 code2 matrix min_score go ge tp local in
  let far := neg_inf go ge min_score in
  tget (a_m t) 0 j = far /\ tget (a_m t) i 0 = far
  /\ tget (a_g1 t) i 0 = far /\ tget (a_g1 t) 0 0 = far
  /\ tget (a_g2 t) 0 j = far /\ tget (a_g2 t) 0 0 = far
  /\ INT32_MIN <= far + x <= INT32_MAX
  /\ add32 far x = far + x.
Proof.
  intros t far.
  assert (Hfar : INT32_MIN <= far <= 0).
  { subst far. unfold neg_inf, INT32_MIN in *. destruct (min_score <?  0) eqn:E.
    - apply Z.ltb_lt in E. lia.
    - lia. }
  assert (Hsum : INT32_MIN <= far + x <= INT32_MAX).
  { assert (Hlow : Z.min 0 min_score <= x \/ x = go \/ x = ge).
    { destruct Hx as [->|[->|[Hin _]]]; auto.
      left. pose proof (np_min_le _ _ _ Hmin Hin). lia. }
    assert (Hup : x <= INT32_MAX).
    { unfold INT32_MAX. destruct Hx as [->|[->|[_ H]]]; [lia | lia | exact H]. }
    subst far. unfold neg_inf, INT32_MIN, INT32_MAX in *.
    destruct (Z.ltb_spec min_score 0); lia. }
  assert (Hwrap : wrap32 far = far).
  { apply wrap32_id. unfold INT32_MAX. lia. }
  destruct (affine_fill_cells code1 code2 matrix min_score go ge tp local)
    as (_ & _ & Hborder).
  fold t in Hborder.
  assert (Hval : forall a b, (a = 0 \/ b = 0)%nat ->
            (a <= length code1)%nat -> (b <= length code2)%nat ->
            ((a = 0 /\ 1 <= b)%nat \/ (b = 0 /\ 1 <= a)%nat -> tget (a_m t) a b = far)
            /\ (b = 0%nat -> tget (a_g1 t) a b = far)
            /\ (a = 0%nat -> tget (a_g2 t) a b = far)).
  { intros a b Hab Ha Hb. destruct (Hborder a b Hab) as (_ & -> & -> & ->).
    unfold affine_init.
    destruct (init_affine_values (length code1 + 1) (length code2 + 1)
                (neg_inf go ge min_score) go ge tp local a b)
      as (_ & -> & -> & ->).
    fold far. rewrite Hwrap.
    repeat split; intros H;
      repeat (destruct (decide _) as [?|?]); try reflexivity; lia. }
  destruct (Hval 0%nat j) as (M1 & _ & G2); [lia | lia | lia |].
  destruct (Hval i 0%nat) as (M2 & G1 & _); [lia | lia | lia |].
  destruct (Hval 0%nat 0%nat) as (_ & G10 & G20); [lia | lia | lia |].
  repeat split; try (apply M1 || apply M2 || apply G1 || apply G2
                     || apply G10 || apply G20); try lia.
  apply add32_exact. exact Hsum.
Qed.

Lemma sentinel_addition_exact_witness :
  let t := affine_fill [0%nat] [1%nat] (score_matrix (match_matrix 5 (-4)))
             (-4) (-6) (-2) true false in
  tget (a_m t) 0 1 = neg_inf (-6) (-2) (-4)
  /\ add32 (neg_inf (-6) (-2) (-4)) (-4) = neg_inf (-6) (-2) (-4) + -4.
Proof.
  pose proof (sentinel_addition_exact [0%nat] [1%nat]
                (score_matrix (match_matrix 5 (-4))) (-4) (-6) (-2) true false
                (-4) 1 1) as H.
  destruct H as (H1 & _ & _ & _ & _ & _ & _ & H2).
  - lia.
  - lia.
  - reflexivity.
  - vm_compute. discriminate.
  - right. right. split; [|vm_compute; discriminate].
    apply list_elem_of_In. simpl. tauto.
  - simpl. lia.
  - simpl. lia.
  - split; [exact H1 | exact H2].
Defined.

(** C8, counterexample: gap-open and gap-extend penalties of -2^30 are
    negative and fit a C [int]; the value for negative infinity is then
    2^31, the border cell (1,0) of the match table holds it wrapped to
    -2^31, and adding gap_open to that cell leaves the 32-bit range: the
    filler's addition wraps to +2^30. *)
Lemma sentinel_overflows :
  let go := -1073741824 in
  let t := affine_fill [0%nat] [0%nat] [[0]] 0 go go true false in
  go < 0 /\ fits_int32 go = true
  /\ neg_inf go go 0 = 2147483648
  /\ tget (a_m t) 1 0 = -2147483648
  /\ tget (a_m t) 1 0 + go < INT32_MIN
  /\ add32 (tget (a_m t) 1 0) go = 1073741824.
Proof. repeat split; vm_compute; reflexivity. Qed.

(** ** Paths of the traceback *)

(** One step of an alignment, between two rows of a raw trace read
    forward: either index stays or advances by one, and at least one
    advances. *)
Definition move (r r' : Z * Z) : Prop :=
  (r'.1 = r.1 \/ r'.1 = r.1 + 1) /\ (r'.2 = r.2 \/ r'.2 = r.2 + 1)
  /\ (r'.1 = r.1 + 1 \/ r'.2 = r.2 + 1).

(** A row the traceback writes: the cell it stands for is inside the
    table and is not the corner. *)
Definition row_ok (r : Z * Z) : Prop :=
  -1 <= r.1 /\ -1 <= r.2 /\ (r.1 <> -1 \/ r.2 <> -1).

(** The rows of a raw trace in the order the traceback writes them, that
    is from the end of the alignment to its start. *)
Inductive written : list (Z * Z) -> Prop :=
| written_nil : written []
| written_first r : row_ok r -> written [r]
| written_next l r r' :
    written (l ++ [r]) -> row_ok r' -> move r' r ->
    written ((l ++ [r]) ++ [r']).

Lemma written_snoc rows r' :
  written rows -> row_ok r' ->
  (forall r, last rows = Some r -> move r' r) ->
  written (rows ++ [r']).
Proof.
  intros Hw Hr Hlink. destruct rows as [|x l _] using rev_ind.
  - apply written_first. exact Hr.
  - apply written_next; auto. apply Hlink, last_snoc.
Qed.

Lemma written_rows_ok rows : written rows -> Forall row_ok rows.
Proof.
  induction 1 as [|r Hr|l r r' _ IH Hr _].
  - constructor.
  - constructor; [exact Hr | constructor].
  - apply Forall_app. split; [exact IH | constructor; [exact Hr | constructor]].
Qed.

(** What the traceback needs of a trace table: entries in the range of
    the mode, an empty corner, and a border whose only entry is the one
    [align_optimal] writes for global alignments, which points along the
    border. *)
Definition left_code (general : bool) : Z := if general then 2 else 16.
Definition up_code (general : bool) : Z := if general then 4 else 64.
Definition code_bound (general : bool) : Z := if general then 8 else 128.
Definition in_mode (general : bool) (state : Z) : Prop :=
  if general then state = 0 else state = 1 \/ state = 2 \/ state = 3.

Definition table_ok (general : bool) (r c : nat) (tt : table) : Prop :=
  rect r c tt /\ (0 < r)%nat /\ (0 < c)%nat
  /\ forall i j, (i < r)%nat -> (j < c)%nat ->
       0 <= tget tt i j < code_bound general
       /\ (i = 0%nat ->
           tget tt i j = 0 \/ (tget tt i j = left_code general /\ (1 <= j)%nat))
       /\ (j = 0%nat ->
           tget tt i j = 0 \/ (tget tt i j = up_code general /\ (1 <= i)%nat)).

Lemma elem_of_when {A} (b : bool) (x y : A) : y ∈ when b x <-> b = true /\ y = x.
Proof.
  unfold when. destruct b.
  - rewrite list_elem_of_singleton. intuition.
  - split; [intros H; inversion H | intros [? _]; discriminate].
Qed.

Lemma length_when {A} (b : bool) (x : A) :
  length (when b x) = if b then 1%nat else 0%nat.
Proof. destruct b; reflexivity. Qed.

(** Every next step goes to the diagonal, left or upper neighbour and
    stays in the mode of the walk. *)
Lemma elem_of_next_steps state v i j i' j' s' :
  (i', j', s') ∈ next_steps state v i j ->
  ((i' = i - 1 /\ j' = j - 1) \/ (i' = i /\ j' = j - 1) \/ (i' = i - 1 /\ j' = j))
  /\ (if state =? 0 then s' = 0 else s' = 1 \/ s' = 2 \/ s' = 3).
Proof.
  unfold next_steps. destruct (state =? 0);
    rewrite ?elem_of_app, ?elem_of_when; intros H;
    repeat (destruct H as [H|H]); destruct H as [_ [= -> -> ->]];
    split; auto.
Qed.

(** The number of next steps does not depend on the cell. *)
Lemma length_next_steps state v i j :
  length (next_steps state v i j) = length (next_steps state v 0 0).
Proof.
  unfold next_steps. destruct (state =? 0);
    rewrite ?length_app, ?length_when; reflexivity.
Qed.

Definition states (general : bool) : list Z := if general then [0] else [1; 2; 3].

Lemma in_mode_states general state : in_mode general state <-> In state (states general).
Proof. destruct general; simpl; intuition. Qed.

(** Unless the loop ends there is a next step. *)
Lemma next_steps_nonempty general state v i j :
  in_mode general state -> 0 <= v < code_bound general ->
  loop_ends state v = false -> next_steps state v i j <> [].
Proof.
  intros Hmode Hv Hloop Hnil.
  assert (Hall : forallb (fun n =>
            forallb (fun s => loop_ends s (Z.of_nat n)
                              || negb (length (next_steps s (Z.of_nat n) 0 0) =? 0)%nat)
                    (states general))
            (seq 0 (Z.to_nat (code_bound general))) = true)
    by (destruct general; vm_compute; reflexivity).
  rewrite forallb_forall in Hall.
  specialize (Hall (Z.to_nat v)). rewrite Z2Nat.id in Hall by lia.
  rewrite forallb_forall in Hall.
  apply in_mode_states in Hmode.
  specialize (Hall ltac:(apply in_seq; lia) state Hmode).
  rewrite Hloop, <- (length_next_steps state v i j), Hnil in Hall.
  discriminate.
Qed.

Lemma loop_ends_empty general state :
  in_mode general state -> loop_ends state 0 = true.
Proof.
  destruct general; simpl; [intros -> | intros [->|[->| ->]]]; reflexivity.
Qed.

(** From a cell inside the table where the loop goes on, every next step
    leads to a cell inside the table, nearer to the corner, in the same
    mode, and the row written for that cell is one step before the row
    written for the current one. *)
Lemma next_steps_inside general r c tt i j state :
  table_ok general r c tt -> in_mode general state ->
  (i < r)%nat -> (j < c)%nat ->
  loop_ends state (tget tt i j) = false ->
  (1 <= i + j)%nat
  /\ forall i' j' s',
      (i', j', s') ∈ next_steps state (tget tt i j) (Z.of_nat i) (Z.of_nat j) ->
      exists a b : nat,
        i' = Z.of_nat a /\ j' = Z.of_nat b /\ (a < r)%nat /\ (b < c)%nat
        /\ (a + b < i + j)%nat /\ in_mode general s'
        /\ move (i' - 1, j' - 1) (Z.of_nat i - 1, Z.of_nat j - 1).
Proof.
  intros (_ & _ & _ & Hcells) Hmode Hi Hj Hloop.
  destruct (Hcells i j Hi Hj) as (Hv & Htop & Hleft).
  assert (Hne : tget tt i j <> 0).
  { intros E. rewrite E, (loop_ends_empty general) in Hloop by exact Hmode.
    discriminate. }
  split.
  { destruct i, j; lia. }
  intros i' j' s' Hin.
  pose proof (elem_of_next_steps _ _ _ _ _ _ _ Hin) as [Hdir Hs'].
  assert (Hmode' : in_mode general s').
  { destruct general; simpl in *.
    - subst state. exact Hs'.
    - destruct Hmode as [->|[->| ->]]; exact Hs'. }
  assert (Hpos : 0 <= i' /\ 0 <= j').
  { destruct i as [|i].
    - destruct (Htop eq_refl) as [?|[E ?]]; [tauto|].
      rewrite E in Hin, Hloop.
      destruct general; simpl in Hmode.
      + subst state. unfold next_steps, bit_set, left_code in Hin. simpl in Hin.
        apply list_elem_of_singleton in Hin as [= -> -> ->]. lia.
      + destruct Hmode as [->|[->| ->]]; try discriminate Hloop.
        unfold next_steps, bit_set, left_code in Hin. simpl in Hin.
        apply list_elem_of_singleton in Hin as [= -> -> ->]. lia.
    - destruct j as [|j]; [|lia].
      destruct (Hleft eq_refl) as [?|[E ?]]; [tauto|].
      rewrite E in Hin, Hloop.
      destruct general; simpl in Hmode.
      + subst state. unfold next_steps, bit_set, up_code in Hin. simpl in Hin.
        apply list_elem_of_singleton in Hin as [= -> -> ->]. lia.
      + destruct Hmode as [->|[->| ->]]; try discriminate Hloop.
        unfold next_steps, bit_set, up_code in Hin. simpl in Hin.
        apply list_elem_of_singleton in Hin as [= -> -> ->]. lia. }
  exists (Z.to_nat i'), (Z.to_nat j').
  rewrite !Z2Nat.id by tauto.
  repeat split; try (exact Hmode'); simpl; lia.
Qed.

(** ** The traceback terminates and writes paths *)

Lemma mv_get_inside r c tt (i j : nat) :
  rect r c tt -> (i < r)%nat -> (j < c)%nat ->
  mv_get tt (Z.of_nat i) (Z.of_nat j) = Ok (tget tt i j).
Proof.
  intros Hr Hi Hj. unfold mv_get, mv_index.
  rewrite (shape0_rect r c tt Hr), (shape1_rect r c tt Hr) by lia.
  destruct (Z.ltb_spec (Z.of_nat i) 0); [lia|].
  destruct (Z.ltb_spec (Z.of_nat j) 0); [lia|].
  rewrite !(proj2 (Z.leb_le _ _)) by lia.
  rewrite !(proj2 (Z.ltb_lt _ _)) by lia.
  simpl. rewrite !Nat2Z.id. reflexivity.
Qed.

(** The trace array: the rows written so far, then rows of [-1]. *)
Definition padded (rows : list (Z * Z)) (k : nat) : list (Z * Z) :=
  rows ++ replicate k (-1, -1).

Lemma write_row_padded rows k row :
  write_row (padded rows (S k)) (length rows) row
  = Ok (padded (rows ++ [row]) k).
Proof.
  unfold write_row, padded. rewrite length_app, length_replicate.
  destruct (Nat.ltb_spec (length rows) (length rows + S k)); [|lia].
  f_equal. rewrite <- (Nat.add_0_r (length rows)) at 1.
  rewrite insert_app_r. simpl. rewrite <- app_assoc. reflexivity.
Qed.

Lemma trim_padded rows k : Forall row_ok rows -> trim_trace (padded rows k) = rows.
Proof.
  intros Hrows. unfold trim_trace, padded. rewrite filter_app.
  assert (E1 : forall l : list (Z * Z), Forall row_ok l ->
            filter (fun row => negb (row.1 =? -1) || negb (row.2 =? -1)) l = l).
  { intros l Hl. induction Hl as [|x l Hx _ IH]; [reflexivity|].
    rewrite filter_cons_True, IH; [reflexivity|].
    destruct Hx as (_ & _ & [H|H]).
    - rewrite (proj2 (Z.eqb_neq _ _) H). reflexivity.
    - rewrite (proj2 (Z.eqb_neq _ _) H). rewrite orb_true_r. reflexivity. }
  assert (E2 : filter (fun row : Z * Z => negb (row.1 =? -1) || negb (row.2 =? -1))
                 (replicate k (-1, -1)) = []).
  { induction k as [|k IH]; [reflexivity|]. simpl.
    rewrite filter_cons_False; [exact IH | simpl; auto]. }
  rewrite E1, E2 by exact Hrows. apply app_nil_r.
Qed.

Lemma rmap_Forall {A B} (f : A -> result B) (P : B -> Prop) (l : list A) :
  (forall x, x ∈ l -> exists y, f x = Ok y /\ P y) ->
  exists ys, rmap f l = Ok ys /\ Forall P ys /\ length ys = length l.
Proof.
  induction l as [|x l IH]; intros H; simpl.
  - exists []. repeat split; constructor.
  - destruct (H x) as (y & Hy & HP); [left|].
    destruct IH as (ys & Hys & HPs & Hlen); [intros; apply H; right; assumption|].
    exists (y :: ys). rewrite Hy. simpl. unfold mbind, result_bind. simpl.
    rewrite Hys. simpl. repeat split; [constructor; assumption | simpl; lia].
Qed.

Lemma Forall_concat {A} (P : A -> Prop) (ls : list (list A)) :
  Forall (Forall P) ls -> Forall P (concat ls).
Proof.
  induction 1 as [|l ls Hl _ IH]; simpl; [constructor|].
  apply Forall_app. split; assumption.
Qed.

(** Called on a cell inside a well-formed table with enough fuel and
    enough room in the trace array, [_follow_trace] returns, and every
    trace it appends is a path. *)
Lemma follow_trace_written general r c tt (Hok : table_ok general r c tt) :
  forall fuel (i j : nat) rows k state,
    in_mode general state -> (i < r)%nat -> (j < c)%nat ->
    written rows ->
    (forall rl, last rows = Some rl -> move (Z.of_nat i - 1, Z.of_nat j - 1) rl) ->
    (i + j < fuel)%nat -> (i + j <= k)%nat ->
    exists traces,
      _follow_trace fuel tt (Z.of_nat i) (Z.of_nat j) (length rows)
        (padded rows k) state = Ok traces
      /\ traces <> [] /\ Forall written traces.
Proof.
  pose proof Hok as (Hrect & _).
  induction fuel as [|fuel IH]; intros i j rows k state Hmode Hi Hj Hw Hlink Hfuel Hk;
    [lia|].
  simpl. rewrite (mv_get_inside r c) by assumption.
  unfold mbind at 1, result_bind at 1. simpl.
  destruct (loop_ends state (tget tt i j)) eqn:Hloop.
  - exists [rows]. rewrite trim_padded by (apply written_rows_ok; exact Hw).
    repeat split; [discriminate | constructor; [exact Hw | constructor]].
  - destruct (next_steps_inside general r c tt i j state Hok Hmode Hi Hj Hloop)
      as (Hcell & Hnext).
    destruct k as [|k]; [lia|].
    rewrite write_row_padded. unfold mbind at 1, result_bind at 1. simpl.
    set (row := (Z.of_nat i - 1, Z.of_nat j - 1)).
    assert (Hw' : written (rows ++ [row])).
    { apply written_snoc; auto. subst row. unfold row_ok. simpl. lia. }
    assert (Hcall : forall step,
              step ∈ next_steps state (tget tt i j) (Z.of_nat i) (Z.of_nat j) ->
              exists traces,
                (let '(new_i, new_j, new_state) := step in
                 _follow_trace fuel tt new_i new_j (S (length rows))
                   (padded (rows ++ [row]) k) new_state) = Ok traces
                /\ (traces <> [] /\ Forall written traces)).
    { intros [[i' j'] s'] Hin.
      destruct (Hnext i' j' s' Hin) as (a & b & -> & -> & Ha & Hb & Hlt & Hm & Hmv).
      replace (S (length rows)) with (length (rows ++ [row]))
        by (rewrite length_app; simpl; lia).
      apply IH; auto; try lia.
      intros rl Hrl. rewrite last_snoc in Hrl. injection Hrl as <-. exact Hmv. }
    pose proof (next_steps_nonempty general state (tget tt i j) (Z.of_nat i)
                  (Z.of_nat j) Hmode) as Hne.
    destruct Hok as (_ & _ & _ & Hcells).
    specialize (Hne (proj1 (Hcells i j Hi Hj)) Hloop).
    destruct (next_steps state (tget tt i j) (Z.of_nat i) (Z.of_nat j))
      as [|first others]; [congruence|].
    destruct (rmap_Forall
                (fun '(new_i, new_j, new_state) =>
                   _follow_trace fuel tt new_i new_j (S (length rows))
                     (padded (rows ++ [row]) k) new_state)
                (fun traces => traces <> [] /\ Forall written traces) others)
      as (split & Hsplit & Hall & _).
    { intros step Hstep. apply Hcall. right. exact Hstep. }
    rewrite Hsplit. unfold mbind at 1, result_bind at 1. simpl.
    destruct (Hcall first) as (own & Hown & Hown1 & Hown2); [left|].
    destruct first as [[i' j'] s']. rewrite Hown.
    unfold mbind, result_bind. simpl.
    exists (concat split ++ own). repeat split.
    + destruct own; [congruence|]. intros E. apply app_eq_nil in E as [_ E].
      discriminate.
    + apply Forall_app. split; [|exact Hown2].
      apply Forall_concat. eapply Forall_impl; [exact Hall|].
      simpl. intros ? [_ ?]. assumption.
Qed.

(** ** Valid traces *)

(** The indices of one column of a trace, gaps left out. *)
Definition non_gaps (col : list Z) : list Z := filter (fun x => x <> -1) col.

(** Every entry is its predecessor plus one. *)
Definition consecutive (l : list Z) : Prop :=
  forall k a b, l !! k = Some a -> l !! S k = Some b -> b = a + 1.

(** Trace validity: in either column the indices that are not gaps advance
    by exactly one from each to the next, and no row is a gap on both
    sides. *)
Definition valid_trace (t : list (Z * Z)) : Prop :=
  consecutive (non_gaps (t.*1)) /\ consecutive (non_gaps (t.*2))
  /\ Forall (fun row => row.1 <> -1 \/ row.2 <> -1) t.

(** Consecutive indices are strictly increasing: no index occurs twice,
    none is ever smaller than an earlier one. *)
Lemma consecutive_increasing l k k' a b :
  consecutive l -> (k < k')%nat -> l !! k = Some a -> l !! k' = Some b -> a < b.
Proof.
  intros Hc Hlt Ha. revert b. induction k' as [|k' IH]; intros b Hb; [lia|].
  destruct (lookup_lt_is_Some_2 l k') as [x Hx].
  { apply lookup_lt_Some in Hb. lia. }
  pose proof (Hc k' x b Hx Hb) as ->.
  destruct (decide (k = k')) as [->|Hne].
  - rewrite Ha in Hx. injection Hx as ->. lia.
  - specialize (IH ltac:(lia) x Hx). lia.
Qed.

Fixpoint run_from (a : Z) (l : list Z) : Prop :=
  match l with
  | [] => True
  | x :: l' => x = a /\ run_from (a + 1) l'
  end.

Lemma run_from_consecutive a l : run_from a l -> consecutive l.
Proof.
  revert a. induction l as [|x l IH]; intros a H k u v Hu Hv.
  - inversion Hu.
  - destruct H as [-> H]. destruct k as [|k]; simpl in *.
    + injection Hu as <-. destruct l as [|y l]; [inversion Hv|].
      destruct H as [-> _]. simpl in Hv. injection Hv as <-. reflexivity.
    + exact (IH _ H k u v Hu Hv).
Qed.

(** A column of a path read forward: every entry repeats its predecessor
    or exceeds it by one. *)
Fixpoint slow (p : Z) (l : list Z) : Prop :=
  match l with
  | [] => True
  | x :: l' => (x = p \/ x = p + 1) /\ slow x l'
  end.

(** What the gap replacement makes of such a column: an entry equal to
    its predecessor becomes a gap. *)
Fixpoint mark (prev : option Z) (l : list Z) : list Z :=
  match l with
  | [] => []
  | x :: l' => (if decide (prev = Some x) then -1 else x) :: mark (Some x) l'
  end.

(** The gap replacement on an arbitrary column, with the entries seen so
    far. *)
Fixpoint mark_seen (seen : list Z) (l : list Z) : list Z :=
  match l with
  | [] => []
  | x :: l' =>
    (if existsb (Z.eqb x) seen then -1 else x) :: mark_seen (seen ++ [x]) l'
  end.

Definition mark_column (col : list Z) : list Z :=
  imap (fun k x => if bool_decide (k ∈ np_unique_index col) then x else -1) col.

Lemma unique_index_first col k :
  bool_decide (k ∈ np_unique_index col) = first_occurrence col k.
Proof.
  unfold np_unique_index. destruct (first_occurrence col k) eqn:E.
  - apply bool_decide_eq_true. apply list_elem_of_filter. split.
    + rewrite E. exact I.
    + apply elem_of_seq. unfold first_occurrence in E.
      destruct (col !! k) eqn:El; [|discriminate].
      apply lookup_lt_Some in El. lia.
  - apply bool_decide_eq_false. rewrite list_elem_of_filter, E.
    intros [H _]. exact H.
Qed.

Lemma first_occurrence_middle pre x l :
  first_occurrence (pre ++ x :: l) (length pre) = negb (existsb (Z.eqb x) pre).
Proof.
  unfold first_occurrence. rewrite list_lookup_middle by reflexivity.
  rewrite take_app_length. reflexivity.
Qed.

Lemma mark_column_seen l : forall pre,
  imap (fun k x => if bool_decide ((length pre + k)%nat ∈ np_unique_index (pre ++ l))
                   then x else -1) l
  = mark_seen pre l.
Proof.
  induction l as [|x l IH]; intros pre; [reflexivity|].
  rewrite imap_cons. simpl. f_equal.
  - rewrite unique_index_first, Nat.add_0_r, first_occurrence_middle.
    destruct (existsb (Z.eqb x) pre); reflexivity.
  - rewrite <- IH. apply imap_ext. intros k y _. simpl.
    rewrite length_app, <- app_assoc. simpl.
    replace (length pre + 1 + k)%nat with (length pre + S k)%nat by lia.
    reflexivity.
Qed.

Lemma mark_seen_slow l : forall pre p,
  last pre = Some p -> Forall (fun y => y <= p) pre -> slow p l ->
  mark_seen pre l = mark (Some p) l.
Proof.
  induction l as [|x l IH]; intros pre p Hlast Hle Hslow; [reflexivity|].
  destruct Hslow as [Hx Hslow]. simpl. f_equal.
  - destruct Hx as [->| ->].
    + rewrite decide_True by reflexivity.
      assert (E : existsb (Z.eqb p) pre = true).
      { apply existsb_exists. exists p. split; [|apply Z.eqb_refl].
        apply list_elem_of_In. destruct pre as [|a pre'] using rev_ind;
          [discriminate|].
        rewrite last_snoc in Hlast. injection Hlast as ->.
        apply elem_of_app. right. left. }
      rewrite E. reflexivity.
    + rewrite decide_False by (intros [= ?]; lia).
      assert (E : existsb (Z.eqb (p + 1)) pre = false).
      { apply not_true_is_false. intros E. apply existsb_exists in E as (y & Hy & E).
        apply Z.eqb_eq in E. subst y. apply list_elem_of_In in Hy.
        rewrite Forall_forall in Hle. specialize (Hle _ Hy). lia. }
      rewrite E. reflexivity.
  - apply IH; [apply last_snoc | | exact Hslow].
    apply Forall_app. split.
    + eapply Forall_impl; [exact Hle|]. simpl. intros. lia.
    + constructor; [lia | constructor].
Qed.

(** On a column of a path the gap replacement of [align_optimal] keeps an
    index where it first appears and turns its repetitions into gaps. *)
Lemma mark_column_slow x l : slow x l -> mark_column (x :: l) = mark None (x :: l).
Proof.
  intros Hslow. unfold mark_column.
  pose proof (mark_column_seen (x :: l) []) as H. simpl in H. simpl.
  rewrite H. f_equal. apply mark_seen_slow; auto.
  constructor; [lia | constructor].
Qed.

Lemma mark_run l : forall p,
  -1 <= p -> slow p l -> run_from (p + 1) (non_gaps (mark (Some p) l)).
Proof.
  induction l as [|x l IH]; intros p Hp Hslow; [exact I|].
  destruct Hslow as [Hx Hslow]. simpl. unfold non_gaps.
  destruct Hx as [->| ->].
  - rewrite decide_True by reflexivity.
    rewrite filter_cons_False by (intros H; apply H; reflexivity).
    apply IH; assumption.
  - rewrite decide_False by (intros [= ?]; lia).
    rewrite filter_cons_True by lia.
    split; [reflexivity|]. apply IH; [lia | exact Hslow].
Qed.

Lemma mark_consecutive x l :
  -1 <= x -> slow x l -> consecutive (non_gaps (mark None (x :: l))).
Proof.
  intros Hx Hslow. simpl.
  pose proof (mark_run l x Hx Hslow) as Hrun. unfold non_gaps in *.
  destruct (decide (x = -1)) as [->|Hne].
  - rewrite filter_cons_False by (intros H; apply H; reflexivity).
    eapply run_from_consecutive. exact Hrun.
  - rewrite filter_cons_True by exact Hne.
    apply (run_from_consecutive x). split; [reflexivity | exact Hrun].
Qed.

(** A raw trace read forward, from its first row on. *)
Fixpoint chain (r : Z * Z) (l : list (Z * Z)) : Prop :=
  match l with
  | [] => True
  | r' :: l' => move r r' /\ row_ok r' /\ chain r' l'
  end.

Definition forward_path (l : list (Z * Z)) : Prop :=
  match l with
  | [] => True
  | r :: l' => row_ok r /\ chain r l'
  end.

Lemma written_forward t : written t -> forward_path (reverse t).
Proof.
  induction 1 as [|r Hr|l r r' _ IH Hr' Hmove].
  - exact I.
  - split; [exact Hr | exact I].
  - rewrite reverse_snoc. rewrite reverse_snoc in IH |- *.
    destruct IH as [Hr Hchain]. split; [exact Hr'|].
    split; [exact Hmove | split; [exact Hr | exact Hchain]].
Qed.

Lemma chain_slow l : forall r,
  chain r l -> slow r.1 (l.*1) /\ slow r.2 (l.*2).
Proof.
  induction l as [|r' l IH]; intros r H; [split; exact I|].
  destruct H as (Hm & _ & Hc). destruct (IH r' Hc) as [H1 H2].
  destruct Hm as (M1 & M2 & _). simpl. repeat split; assumption.
Qed.

Lemma length_mark l : forall p, length (mark p l) = length l.
Proof. induction l as [|x l IH]; intros p; simpl; [|rewrite IH]; reflexivity. Qed.

Lemma imap_pair {A} (f g : nat -> A -> A) (l : list (A * A)) :
  imap (fun k row => (f k row.1, g k row.2)) l
  = zip (imap f (l.*1)) (imap g (l.*2)).
Proof.
  revert f g. induction l as [|x l IH]; intros f g; [reflexivity|].
  simpl. f_equal. apply (IH (f ∘ S) (g ∘ S)).
Qed.

Lemma replace_gaps_columns t :
  replace_gaps t
  = zip (mark_column ((reverse t).*1)) (mark_column ((reverse t).*2)).
Proof.
  unfold replace_gaps, mark_column.
  apply (imap_pair
           (fun k x => if bool_decide (k ∈ np_unique_index ((reverse t).*1))
                       then x else -1)
           (fun k x => if bool_decide (k ∈ np_unique_index ((reverse t).*2))
                       then x else -1)).
Qed.

(** After the replacement every row but the first still holds the index
    that advanced in its step. *)
Lemma chain_rows l : forall r,
  row_ok r -> chain r l ->
  Forall (fun row => row.1 <> -1 \/ row.2 <> -1)
    (zip (mark (Some r.1) (l.*1)) (mark (Some r.2) (l.*2))).
Proof.
  induction l as [|r' l IH]; intros r Hr H; [constructor|].
  destruct H as (Hm & Hr' & Hc). simpl. constructor; [|apply IH; assumption].
  destruct Hr as (R1 & R2 & _). destruct Hm as (_ & _ & [M|M]); simpl.
  - left. rewrite decide_False by (intros [= ?]; lia). lia.
  - right. rewrite decide_False by (intros [= ?]; lia). lia.
Qed.

(** The gap replacement turns every path the traceback writes into a
    valid trace. *)
Lemma replace_gaps_valid t : written t -> valid_trace (replace_gaps t).
Proof.
  intros Hw. apply written_forward in Hw. rewrite replace_gaps_columns.
  destruct (reverse t) as [|r l].
  - repeat split; try constructor; intros k a b H; inversion H.
  - destruct Hw as [Hr Hc]. destruct (chain_slow l r Hc) as [S1 S2].
    rewrite !fmap_cons, !mark_column_slow by assumption.
    pose proof Hr as (R1 & R2 & R3).
    split; [|split].
    + rewrite fst_zip by (rewrite !length_mark; simpl; rewrite !length_fmap; lia).
      apply mark_consecutive; assumption.
    + rewrite snd_zip by (rewrite !length_mark; simpl; rewrite !length_fmap; lia).
      apply mark_consecutive; assumption.
    + simpl. constructor; [exact R3|]. apply chain_rows; assumption.
Qed.

(** ** The trace tables of [align_optimal] are well formed *)

Lemma general_trace_ok code1 code2 matrix g tp local :
  table_ok true (length code1 + 1) (length code2 + 1)
    (general_tables code1 code2 matrix g tp local).1.
Proof.
  destruct (general_tables_cells code1 code2 matrix g tp local)
    as (Hrect & _ & Hcell & Hborder).
  split; [exact Hrect | split; [lia | split; [lia|]]].
  intros i j Hi Hj.
  destruct (decide (i = 0 \/ j = 0)%nat) as [Hb|Hb].
  - destruct (Hborder i j Hb) as [-> _]. rewrite init_general_trace.
    unfold code_bound, left_code, up_code.
    destruct local; repeat (destruct (decide _) as [?|?]); lia.
  - specialize (Hcell i j ltac:(lia) ltac:(lia)).
    unfold cell_filled, selected in Hcell.
    match type of Hcell with context [find_maximum ?d ?l ?t] =>
      pose proof (find_maximum_trace d l t) as Htr;
      destruct (find_maximum d l t) as [trace score] end.
    simpl in Htr. unfold code_bound.
    destruct (local && (score <=? 0)) eqn:E; destruct Hcell as [_ ->].
    + rewrite init_general_trace.
      destruct local; [lia | discriminate].
    + lia.
Qed.

Lemma stored_affine_range local tr : 0 <= (stored_affine local tr).1.1.1 < 128.
Proof.
  unfold stored_affine.
  pose proof (find_maximum_trace (mm_score tr) (g1m_score tr) (g2m_score tr)) as H0.
  pose proof (find_gap1_trace (mg1_score tr) (g1g1_score tr)) as H1.
  pose proof (find_gap2_trace (mg2_score tr) (g2g2_score tr)) as H2.
  destruct (find_maximum _ _ _) as [b0 s0].
  destruct (find_gap1 _ _) as [b1 s1].
  destruct (find_gap2 _ _) as [b2 s2]. simpl in *.
  destruct local; [destruct (s0 <=? 0); destruct (s1 <=? 0); destruct (s2 <=? 0)|];
    repeat (destruct H0 as [<-|H0]); try contradiction;
    repeat (destruct H1 as [<-|H1]); try contradiction;
    repeat (destruct H2 as [<-|H2]); try contradiction;
    vm_compute; (split; [discriminate | reflexivity]).
Qed.

Lemma affine_trace_ok code1 code2 matrix min_score go ge tp local :
  table_ok false (length code1 + 1) (length code2 + 1)
    (a_trace (affine_fill code1 code2 matrix min_score go ge tp local)).
Proof.
  destruct (affine_fill_cells code1 code2 matrix min_score go ge tp local)
    as ((Hrect & _) & Hcell & Hborder).
  split; [exact Hrect | split; [lia | split; [lia|]]].
  intros i j Hi Hj.
  destruct (decide (i = 0 \/ j = 0)%nat) as [Hb|Hb].
  - destruct (Hborder i j Hb) as (-> & _). unfold affine_init.
    destruct (init_affine_values (length code1 + 1) (length code2 + 1)
                (neg_inf go ge min_score) go ge tp local i j) as (-> & _).
    unfold code_bound, left_code, up_code.
    destruct local; repeat (destruct (decide _) as [?|?]); lia.
  - specialize (Hcell i j ltac:(lia) ltac:(lia)).
    unfold cell_filled_affine in Hcell.
    match type of Hcell with _ = stored_affine _ ?tr =>
      pose proof (stored_affine_range local tr) as Hrange end.
    rewrite <- Hcell in Hrange. simpl in Hrange. unfold code_bound. lia.
Qed.

(** ** Start cells *)

Lemma np_where_inside r c (t : table) v i j :
  rect r c t -> (i, j) ∈ np_where t v -> (i < r)%nat /\ (j < c)%nat.
Proof.
  intros Hr Hin. unfold np_where in Hin.
  apply elem_of_concat in Hin as (l & Hin & Hl).
  apply list_elem_of_lookup in Hl as (a & Hl).
  apply list_lookup_imap_Some in Hl as (row & Hrow & ->).
  apply list_elem_of_omap in Hin as (o & Ho & Hsome). simpl in Hsome. subst o.
  apply list_elem_of_lookup in Ho as (b & Ho).
  apply list_lookup_imap_Some in Ho as (x & Hx & Heq).
  destruct (x =? v); [|discriminate]. injection Heq as -> ->.
  pose proof (rect_row _ _ _ _ _ Hr Hrow) as Hlen.
  apply lookup_lt_Some in Hrow, Hx. destruct Hr as [Hr _]. lia.
Qed.

Definition start_ok (general : bool) (r c : nat) (s : start) : Prop :=
  (s.1.1 < r)%nat /\ (s.1.2 < c)%nat /\ in_mode general s.2.

Lemma starts_general_ok r c (st : table) local :
  rect r c st -> (0 < r)%nat -> (0 < c)%nat ->
  Forall (start_ok true r c) (starts_general st local).1.
Proof.
  intros Hr Hpos Hposc. unfold starts_general. destruct local; simpl.
  - apply Forall_forall. intros s Hs.
    apply list_elem_of_fmap in Hs as ([i j] & -> & Hs).
    apply (np_where_inside r c) in Hs as [? ?]; [|exact Hr].
    repeat split; simpl; auto.
  - rewrite (shape0_rect r c st Hr), (shape1_rect r c st Hr Hpos).
    constructor; [|constructor]. repeat split; simpl; lia.
Qed.

Lemma starts_affine_ok r c (t : affine_tables) local :
  rect4 r c t -> (0 < r)%nat -> (0 < c)%nat ->
  Forall (start_ok false r c) (starts_affine t local).1.
Proof.
  intros (R0 & R1 & R2 & R3) Hpos Hposc. unfold starts_affine.
  destruct local; simpl.
  - rewrite !Forall_app. repeat split; apply Forall_forall; intros s Hs;
      apply list_elem_of_fmap in Hs as ([i j] & -> & Hs);
      eapply (np_where_inside r c) in Hs as [? ?]; try eassumption;
      repeat split; simpl; auto.
  - rewrite (shape0_rect r c _ R0), (shape1_rect r c _ R0 Hpos).
    rewrite !Forall_app. repeat split;
      (match goal with |- Forall _ (when ?b _) => destruct b end);
      simpl; repeat constructor; simpl; auto; lia.
Qed.

(** ** Every emitted trace is valid *)

Lemma follow_all_written general r c tt starts :
  table_ok general r c tt -> Forall (start_ok general r c) starts ->
  exists traces,
    follow_all tt starts = Ok traces /\ Forall written traces
    /\ (starts <> [] -> traces <> []).
Proof.
  intros Hok Hstarts. unfold follow_all.
  destruct (rmap_Forall (follow_start tt)
              (fun traces => traces <> [] /\ Forall written traces) starts)
    as (traces & Hrun & Hall & Hlen).
  { intros [[i j] s] Hin. rewrite Forall_forall in Hstarts. unfold follow_start.
    destruct (Hstarts _ Hin) as (Hi & Hj & Hm). simpl in Hi, Hj, Hm.
    apply (follow_trace_written general r c tt Hok (i + j + 1) i j []
             (i + 1 + j + 1) s); auto; try lia.
    - constructor.
    - intros rl Hrl. discriminate. }
  rewrite Hrun. unfold mbind, result_bind. simpl.
  exists (concat traces). repeat split.
  - apply Forall_concat. eapply Forall_impl; [exact Hall|].
    simpl. intros ? [_ ?]. assumption.
  - intros Hne E. destruct starts as [|s starts]; [congruence|].
    destruct traces as [|t traces]; [discriminate|].
    apply Forall_cons in Hall as [[Ht _] _]. simpl in E.
    apply app_eq_nil in E as [E _]. contradiction.
Qed.

Lemma traceback_valid general r c seq1 seq2 tt starts max_score :
  table_ok general r c tt -> Forall (start_ok general r c) starts ->
  exists alignments,
    traceback seq1 seq2 tt starts max_score = Ok alignments
    /\ Forall (fun a => valid_trace (trace a) /\ score a = max_score) alignments
    /\ (starts <> [] -> alignments <> []).
Proof.
  intros Hok Hstarts. unfold traceback.
  destruct (follow_all_written general r c tt starts Hok Hstarts)
    as (traces & -> & Hw & Hne).
  unfold mbind, result_bind. simpl. eexists. split; [reflexivity|]. split.
  - apply Forall_fmap. eapply Forall_impl; [exact Hw|].
    intros t Ht. simpl. split; [apply replace_gaps_valid; exact Ht | reflexivity].
  - intros H E. apply fmap_nil_inv in E. exact (Hne H E).
Qed.

(** The gap penalties [align_optimal] works with once the types are
    checked: integers that fit a C [int]; for a tuple the first two items
    count and the matrix must have a smallest entry. *)
Definition accepted (matrix : SubstitutionMatrix) (gap_penalty : py_value) : Prop :=
  match gap_penalty with
  | PyInt g => fits_int32 g = true
  | PyTuple (go :: ge :: _) =>
    fits_int32 go = true /\ fits_int32 ge = true
    /\ np_min (score_matrix matrix) <> None
  | _ => False
  end.

(** [align_optimal] returns alignments only for covered alphabets and an
    accepted gap penalty. *)
Lemma align_optimal_ok_inv seq1 seq2 matrix gap_penalty tp local log log' alignments :
  align_optimal seq1 seq2 matrix gap_penalty tp local log = (log', Ok alignments) ->
  covered1 matrix seq1 = true /\ covered2 matrix seq2 = true
  /\ accepted matrix gap_penalty.
Proof.
  unfold align_optimal, covered1, covered2, accepted.
  destruct (extends (get_alphabet1 matrix) (get_alphabet seq1));
    [|simpl; unfold raise; discriminate].
  destruct (extends (get_alphabet2 matrix) (get_alphabet seq2));
    [|simpl; unfold raise; discriminate].
  simpl. destruct gap_penalty as [g|items|].
  - unfold mbind, run_bind, alloc_zeros, as_c_int, mret, run_ret, raise. simpl.
    destruct (init_general _ _ g tp local) as [tt0 st0].
    destruct (fits_int32 g); [auto | discriminate].
  - unfold mbind, run_bind, alloc_zeros, as_c_int, tuple_item, mret, run_ret,
      raise. simpl.
    destruct items as [|go [|ge more]]; simpl; try discriminate.
    destruct (np_min (score_matrix matrix)); [|discriminate].
    destruct (fits_int32 go); [|discriminate].
    destruct (fits_int32 ge); [|discriminate].
    intros _. repeat split; discriminate.
  - unfold mbind, run_bind, raise. discriminate.
Qed.

(** What [align_optimal] returns for covered alphabets and an accepted
    gap penalty: a list of alignments with valid traces that all carry
    the same score. *)
Lemma align_optimal_returns seq1 seq2 matrix gap_penalty tp local log :
  covered1 matrix seq1 = true -> covered2 matrix seq2 = true ->
  accepted matrix gap_penalty ->
  exists log' alignments max_score,
    align_optimal seq1 seq2 matrix gap_penalty tp local log = (log', Ok alignments)
    /\ Forall (fun a => valid_trace (trace a) /\ score a = max_score) alignments.
Proof.
  intros H1 H2 Hacc. destruct gap_penalty as [g|items|]; simpl in Hacc;
    [| |contradiction].
  - rewrite align_optimal_general by assumption.
    pose proof (general_trace_ok (code seq1) (code seq2) (score_matrix matrix)
                  g tp local) as Hok.
    destruct (general_tables_cells (code seq1) (code seq2) (score_matrix matrix)
                g tp local) as (_ & Hrect & _).
    destruct (general_tables _ _ _ g tp local) as [tt st]. simpl in Hok, Hrect.
    pose proof (starts_general_ok _ _ st local Hrect ltac:(lia) ltac:(lia)) as Hst.
    destruct (starts_general st local) as [starts mx]. simpl in Hst.
    destruct (traceback_valid true _ _ seq1 seq2 tt starts mx Hok Hst)
      as (alignments & Heq & Hall & _).
    rewrite Heq. do 3 eexists. split; [reflexivity | exact Hall].
  - destruct items as [|go [|ge more]]; try contradiction.
    destruct Hacc as (Hgo & Hge & Hmin).
    destruct (np_min (score_matrix matrix)) as [min_score|] eqn:E; [|congruence].
    rewrite (align_optimal_affine _ _ _ _ _ _ min_score) by assumption.
    pose proof (affine_trace_ok (code seq1) (code seq2) (score_matrix matrix)
                  min_score go ge tp local) as Hok.
    destruct (affine_fill_cells (code seq1) (code seq2) (score_matrix matrix)
                min_score go ge tp local) as (Hrect & _).
    cbv zeta.
    set (t := affine_fill _ _ _ min_score go ge tp local) in *.
    pose proof (starts_affine_ok _ _ t local Hrect ltac:(lia) ltac:(lia)) as Hst.
    destruct (starts_affine t local) as [starts mx]. simpl in Hst.
    destruct (traceback_valid false _ _ seq1 seq2 (a_trace t) starts mx Hok Hst)
      as (alignments & Heq & Hall & _).
    rewrite Heq. do 3 eexists. split; [reflexivity | exact Hall].
Qed.

(** C6: every trace [align_optimal] emits is valid: read forward, the
    indices of either sequence that are not gaps advance by exactly one
    from each to the next (so they never decrease and no index is used
    twice, [consecutive_increasing]), and no row is a gap on both sides,
    that is every step advances at least one of the two indices.  The
    statement is not vacuous: for covered alphabets and an accepted gap
    penalty [align_optimal] does return (the traceback neither runs out
    of fuel nor leaves the table). *)
Theorem emitted_traces_valid seq1 seq2 matrix gap_penalty tp local log :
  (forall log' alignments,
     align_optimal seq1 seq2 matrix gap_penalty tp local log = (log', Ok alignments) ->
     Forall (fun a => valid_trace (trace a)) alignments)
  /\ (covered1 matrix seq1 = true -> covered2 matrix seq2 = true ->
      accepted matrix gap_penalty ->
      exists log' alignments,
        align_optimal seq1 seq2 matrix gap_penalty tp local log
        = (log', Ok alignments)).
Proof.
  split.
  - intros log' alignments Heq.
    destruct (align_optimal_ok_inv _ _ _ _ _ _ _ _ _ Heq) as (H1 & H2 & Hacc).
    destruct (align_optimal_returns seq1 seq2 matrix gap_penalty tp local log
                H1 H2 Hacc) as (log'' & alignments' & mx & Heq' & Hall).
    rewrite Heq in Heq'. injection Heq' as _ ->.
    eapply Forall_impl; [exact Hall|]. simpl. tauto.
  - intros H1 H2 Hacc.
    destruct (align_optimal_returns seq1 seq2 matrix gap_penalty tp local log
                H1 H2 Hacc) as (log' & alignments & _ & Heq & _).
    eauto.
Qed.

Lemma emitted_traces_valid_witness :
  Forall valid_trace
    [[(0, 0); (1, 1); (2, 2); (3, 3); (4, 4); (5, 5); (6, 6); (7, -1); (8, 7);
      (9, 8); (10, 9)];
     [(0, 0); (1, 1); (2, 2); (3, 3); (4, 4); (5, 5); (6, -1); (7, 6); (8, 7);
      (9, 8); (10, 9)]].
Proof.
  destruct (emitted_traces_valid ATACGCTTGCT AGGCGCAGCT (match_matrix 5 (-4))
              (PyInt (-6)) true false []) as [H _].
  specialize (H _ _ ltac:(vm_compute; reflexivity)).
  apply Forall_cons in H as [H1 H]. apply Forall_cons in H as [H2 _].
  constructor; [exact H1 | constructor; [exact H2 | constructor]].
Defined.

(** All alignments of one call carry the same score. *)
Lemma returned_scores_equal seq1 seq2 matrix gap_penalty tp local log log'
    alignments a b :
  align_optimal seq1 seq2 matrix gap_penalty tp local log = (log', Ok alignments) ->
  a ∈ alignments -> b ∈ alignments -> score a = score b.
Proof.
  intros Heq Ha Hb.
  destruct (align_optimal_ok_inv _ _ _ _ _ _ _ _ _ Heq) as (H1 & H2 & Hacc).
  destruct (align_optimal_returns seq1 seq2 matrix gap_penalty tp local log
              H1 H2 Hacc) as (log'' & alignments' & mx & Heq' & Hall).
  rewrite Heq in Heq'. injection Heq' as _ ->.
  rewrite Forall_forall in Hall.
  destruct (Hall a Ha) as [_ ->]. destruct (Hall b Hb) as [_ ->]. reflexivity.
Qed.

(** ** Maxima of tables *)

Lemma fold_max_spec (l : list Z) (a : Z) :
  (fold_left Z.max l a = a \/ fold_left Z.max l a ∈ l)
  /\ a <= fold_left Z.max l a
  /\ forall x, x ∈ l -> x <= fold_left Z.max l a.
Proof.
  revert a. induction l as [|y l IH]; intros a; simpl.
  - repeat split; [left; reflexivity | lia | intros x Hx; inversion Hx].
  - destruct (IH (Z.max a y)) as (H1 & H2 & H3). repeat split.
    + destruct H1 as [H1|H1]; [|right; right; exact H1].
      rewrite H1. destruct (Z.max_spec a y) as [[_ ->]|[_ ->]];
        [right; left | left; reflexivity].
    + lia.
    + intros x Hx. apply elem_of_cons in Hx as [->|Hx]; [lia | auto].
Qed.

(** [list_max] returns the largest element. *)
Lemma list_max_spec (l : list Z) (v : Z) :
  list_max l = Some v -> v ∈ l /\ forall x, x ∈ l -> x <= v.
Proof.
  unfold list_max. destruct l as [|a l]; [discriminate|]. intros [= <-].
  destruct (fold_max_spec l a) as (H1 & H2 & H3). split.
  - destruct H1 as [->|H1]; [left | right; exact H1].
  - intros x Hx. apply elem_of_cons in Hx as [->|Hx]; auto.
Qed.

Lemma list_max_is_Some (l : list Z) : l <> [] -> exists v, list_max l = Some v.
Proof. destruct l; [congruence | eauto]. Qed.

(** The elements of a table are its cells. *)
Lemma elem_of_table r c (t : table) x :
  rect r c t ->
  x ∈ concat t <-> exists i j, (i < r)%nat /\ (j < c)%nat /\ tget t i j = x.
Proof.
  intros Hr. rewrite elem_of_concat. split.
  - intros (row & Hx & Hrow).
    apply list_elem_of_lookup in Hrow as (i & Hi).
    apply list_elem_of_lookup in Hx as (j & Hj).
    exists i, j. pose proof (rect_row _ _ _ _ _ Hr Hi) as Hlen.
    apply lookup_lt_Some in Hi as Hi'. apply lookup_lt_Some in Hj as Hj'.
    destruct Hr as [Hr _]. repeat split; try lia.
    unfold tget. rewrite Hi, Hj. reflexivity.
  - intros (i & j & Hi & Hj & <-).
    destruct (rect_lookup r c t i Hr Hi) as (row & Hrow & Hlen).
    destruct (lookup_lt_is_Some_2 row j) as [v Hv]; [lia|].
    exists row. unfold tget. rewrite Hrow, Hv. simpl. split.
    + apply list_elem_of_lookup. eauto.
    + apply list_elem_of_lookup. eauto.
Qed.

(** A matrix lookup yields an entry of the matrix, or 0 outside of it. *)
Lemma tget_entry (t : table) i j : tget t i j = 0 \/ tget t i j ∈ concat t.
Proof.
  unfold tget. destruct (t !! i) as [row|] eqn:Hi; [|left; reflexivity].
  destruct (row !! j) as [v|] eqn:Hj; [|left; reflexivity].
  right. simpl. apply elem_of_concat. exists row.
  split; apply list_elem_of_lookup; eauto.
Qed.

Lemma clamp_global x : clamp false x = x.
Proof. reflexivity. Qed.

Lemma clamp_local x : clamp true x = Z.max x 0.
Proof. unfold clamp. simpl. destruct (Z.leb_spec x 0); lia. Qed.

(** ** Equal gap-open and gap-extend penalties *)

(** The score [align_optimal] attaches to its alignments. *)
Definition optimal_score_general (code1 code2 : list nat) (matrix : table)
    (g : Z) (tp local : bool) : Z :=
  (starts_general (general_tables code1 code2 matrix g tp local).2 local).2.

Definition optimal_score_affine (code1 code2 : list nat) (matrix : table)
    (min_score go ge : Z) (tp local : bool) : Z :=
  (starts_affine (affine_fill code1 code2 matrix min_score go ge tp local) local).2.

(** No cell of the general fill has its two gap candidates tied above the
    diagonal one, the one branch where the filler does not store the
    maximum. *)
Definition tie_free_general (code1 code2 : list nat) (matrix : table)
    (g : Z) (tp local : bool) : bool :=
  let st := (general_tables code1 code2 matrix g tp local).2 in
  forallb (fun cl : nat * nat =>
             let d := from_diag code1 code2 matrix st cl.1 cl.2 in
             let l := from_left st g tp (length code1) cl.1 cl.2 in
             let t := from_top st g tp (length code2) cl.1 cl.2 in
             negb ((d <? l) && (l =? t)))
          (cells (length code1 + 1) (length code2 + 1)).

(** The same for the match table of the affine fill. *)
Definition tie_free_affine (code1 code2 : list nat) (matrix : table)
    (min_score go ge : Z) (tp local : bool) : bool :=
  let t := affine_fill code1 code2 matrix min_score go ge tp local in
  forallb (fun cl : nat * nat =>
             let tr := cell_transitions code1 code2 matrix go ge tp
                         (length code1) (length code2) (a_m t) (a_g1 t)
                         (a_g2 t) cl.1 cl.2 in
             negb ((mm_score tr <? g1m_score tr)
                   && (g1m_score tr =? g2m_score tr)))
          (cells (length code1 + 1) (length code2 + 1)).

(** The least substitution score for which a gap in one sequence next to
    a gap in the other never beats the substitution: two penalised gaps,
    one penalised gap when terminal gaps are free in a local alignment,
    nothing when they are free in a global one. *)
Definition cross_bound (g : Z) (tp local : bool) : Z :=
  if tp then 2 * g else if local then g else 0.

(** [np.min] returns one of the entries. *)
Lemma fold_min_in (l : list Z) (a : Z) :
  fold_left Z.min l a = a \/ fold_left Z.min l a ∈ l.
Proof.
  revert a. induction l as [|y l IH]; intros a; simpl; [left; reflexivity|].
  destruct (IH (Z.min a y)) as [H|H]; [|right; right; exact H].
  rewrite H. destruct (Z.min_spec a y) as [[_ ->]|[_ ->]];
    [left; reflexivity | right; left].
Qed.

(** [np.min] is an entry of the matrix. *)
Lemma np_min_in (matrix : table) (min_score : Z) :
  np_min matrix = Some min_score -> min_score ∈ concat matrix.
Proof.
  unfold np_min, list_min. destruct (concat matrix) as [|a l]; [discriminate|].
  intros [= <-]. destruct (fold_min_in l a) as [->|H]; [left | right; exact H].
Qed.

(** The seven transition scores, one by one. *)
Lemma cell_transitions_scores code1 code2 matrix go ge tp i_max j_max
    (m_table g1_table g2_table : table) i j :
  let tr := cell_transitions code1 code2 matrix go ge tp i_max j_max
              m_table g1_table g2_table i j in
  let similarity := tget matrix (cget code1 (i - 1)) (cget code2 (j - 1)) in
  mm_score tr = add32 (tget m_table (i - 1) (j - 1)) similarity
  /\ g1m_score tr = add32 (tget g1_table (i - 1) (j - 1)) similarity
  /\ g2m_score tr = add32 (tget g2_table (i - 1) (j - 1)) similarity
  /\ mg1_score tr
     = (if negb tp && (i =? i_max)%nat then tget m_table i (j - 1)
        else add32 (tget m_table i (j - 1)) go)
  /\ g1g1_score tr
     = (if negb tp && (i =? i_max)%nat then tget g1_table i (j - 1)
        else add32 (tget g1_table i (j - 1)) ge)
  /\ mg2_score tr
     = (if negb tp && (j =? j_max)%nat then tget m_table (i - 1) j
        else add32 (tget m_table (i - 1) j) go)
  /\ g2g2_score tr
     = (if negb tp && (j =? j_max)%nat then tget g2_table (i - 1) j
        else add32 (tget g2_table (i - 1) j) ge).
Proof.
  unfold cell_transitions.
  destruct (negb tp && (i =? i_max)%nat); destruct (negb tp && (j =? j_max)%nat);
    repeat split; reflexivity.
Qed.

(** Conditionals, componentwise. *)
Lemma if_pair_snd {A B : Type} (b : bool) (x y : A * B) :
  (if b then x else y).2 = if b then x.2 else y.2.
Proof. destruct b; reflexivity. Qed.

Lemma if_ext {A : Type} (b : bool) (x x' y y' : A) :
  (b = true -> x = x') -> (b = false -> y = y') ->
  (if b then x else y) = (if b then x' else y').
Proof. destruct b; auto. Qed.

(** Two lists of integers with the same upper bounds have the same
    maximum. *)
Lemma list_max_same (l l' : list Z) :
  l <> [] -> (forall x, x ∈ l -> exists y, y ∈ l' /\ x <= y) ->
  (forall y, y ∈ l' -> exists x, x ∈ l /\ y <= x) ->
  list_max l = list_max l'.
Proof.
  intros Hne H1 H2.
  destruct (list_max_is_Some l Hne) as (v & Hv).
  assert (Hne' : l' <> []).
  { destruct l as [|x l]; [congruence|].
    destruct (H1 x ltac:(left)) as (y & Hy & _).
    intros ->. inversion Hy. }
  destruct (list_max_is_Some l' Hne') as (w & Hw).
  rewrite Hv, Hw. f_equal.
  apply list_max_spec in Hv as [Hv1 Hv2]. apply list_max_spec in Hw as [Hw1 Hw2].
  destruct (H1 v Hv1) as (y & Hy & Hvy). destruct (H2 w Hw1) as (x & Hx & Hwx).
  specialize (Hv2 x Hx). specialize (Hw2 y Hy). lia.
Qed.

Section equal_penalties.
Context (code1 code2 : list nat) (matrix : table).
Context (min_score g B : Z) (tp local : bool).

Local Abbreviation n := (length code1).
Local Abbreviation m := (length code2).
Local Abbreviation S := (tget (general_tables code1 code2 matrix g tp local).2).
Local Abbreviation M := (tget (a_m (affine_fill code1 code2 matrix min_score g g tp local))).
Local Abbreviation G1 := (tget (a_g1 (affine_fill code1 code2 matrix min_score g g tp local))).
Local Abbreviation G2 := (tget (a_g2 (affine_fill code1 code2 matrix min_score g g tp local))).
Local Abbreviation far := (neg_inf g g min_score).

Hypothesis Hsize : (Z.of_nat (n + m) + 5) * B < 2147483648.
Hypothesis Hcross : forall i j,
  (i < n)%nat -> (j < m)%nat ->
  cross_bound g tp local <= tget matrix (cget code1 i) (cget code2 j).

(** The substitution score read by cell [(i, j)]. *)
Definition sub_score (i j : nat) : Z :=
  tget matrix (cget code1 (i - 1)) (cget code2 (j - 1)).

(** The penalty of a gap candidate entering row [i] from the left, and
    column [j] from the top. *)
Definition row_penalty (i : nat) : Z :=
  if negb tp && (i =? n)%nat then 0 else g.
Definition column_penalty (j : nat) : Z :=
  if negb tp && (j =? m)%nat then 0 else g.

Hypothesis Hg : g < 0.
Hypothesis HgB : - B <= g.
Hypothesis Hmin : np_min matrix = Some min_score.
Hypothesis HB : forall x, x ∈ concat matrix -> - B <= x <= B.

Lemma sub_score_bounds i j :
  - B <= sub_score i j <= B /\ Z.min 0 min_score <= sub_score i j.
Proof using All.
  unfold sub_score.
  destruct (tget_entry matrix (cget code1 (i - 1)) (cget code2 (j - 1)))
    as [->|Hin].
  - lia.
  - pose proof (HB _ Hin). pose proof (np_min_le _ _ _ Hmin Hin). lia.
Qed.

Lemma far_bounds : INT32_MIN + 4 <= far <= INT32_MIN + 5 * B.
Proof using All.
  pose proof (HB _ (np_min_in _ _ Hmin)).
  unfold neg_inf, INT32_MIN. destruct (Z.ltb_spec min_score 0); lia.
Qed.

Lemma far_low : far = INT32_MIN - 4 * g - Z.min 0 min_score.
Proof using All. unfold neg_inf. destruct (Z.ltb_spec min_score 0); lia. Qed.

Lemma penalty_bounds i :
  (g <= row_penalty i <= 0 /\ (tp = true -> row_penalty i = g)
   /\ (i <> n -> row_penalty i = g))
  /\ (g <= column_penalty i <= 0 /\ (tp = true -> column_penalty i = g)
      /\ (i <> m -> column_penalty i = g)).
Proof using All.
  unfold row_penalty, column_penalty.
  destruct tp; simpl;
    destruct (Nat.eqb_spec i n); destruct (Nat.eqb_spec i m);
    repeat split; intros; try lia; congruence.
Qed.

Hypothesis Htg : tie_free_general code1 code2 matrix g tp local = true.

(** The recurrence of the general fill at an interior cell. *)
Lemma general_recurrence i j :
  (1 <= i <= n)%nat -> (1 <= j <= m)%nat ->
  S i j
  = clamp local
      (Z.max (add32 (S (i - 1) (j - 1)) (sub_score i j))
         (Z.max (if negb tp && (i =? n)%nat then S i (j - 1)
                 else add32 (S i (j - 1)) g)
                (if negb tp && (j =? m)%nat then S (i - 1) j
                 else add32 (S (i - 1) j) g))).
Proof using All.
  intros Hi Hj.
  destruct (general_tables_cells code1 code2 matrix g tp local)
    as (_ & _ & Hcell & _).
  specialize (Hcell i j ltac:(lia) ltac:(lia)).
  apply cell_filled_score in Hcell. rewrite Hcell. f_equal.
  unfold selected. rewrite !Nat.add_sub.
  unfold tie_free_general in Htg. rewrite forallb_forall in Htg.
  specialize (Htg (i, j) ltac:(apply list_elem_of_In, elem_of_cells; lia)).
  cbn [fst snd] in Htg.
  rewrite find_maximum_max.
  - reflexivity.
  - intros [H1 H2].
    rewrite (proj2 (Z.ltb_lt _ _) H1), (proj2 (Z.eqb_eq _ _) H2) in Htg.
    discriminate Htg.
Qed.

Hypothesis Hta : tie_free_affine code1 code2 matrix min_score g g tp local = true.

(** The recurrences of the affine fill at an interior cell. *)
Lemma affine_recurrence i j :
  (1 <= i <= n)%nat -> (1 <= j <= m)%nat ->
  M i j
  = clamp local
      (Z.max (add32 (M (i - 1) (j - 1)) (sub_score i j))
         (Z.max (add32 (G1 (i - 1) (j - 1)) (sub_score i j))
                (add32 (G2 (i - 1) (j - 1)) (sub_score i j))))
  /\ G1 i j
     = clamp local
         (if negb tp && (i =? n)%nat then Z.max (M i (j - 1)) (G1 i (j - 1))
          else Z.max (add32 (M i (j - 1)) g) (add32 (G1 i (j - 1)) g))
  /\ G2 i j
     = clamp local
         (if negb tp && (j =? m)%nat then Z.max (M (i - 1) j) (G2 (i - 1) j)
          else Z.max (add32 (M (i - 1) j) g) (add32 (G2 (i - 1) j) g)).
Proof using All.
  intros Hi Hj.
  destruct (affine_fill_cells code1 code2 matrix min_score g g tp local)
    as (_ & Hcell & _).
  specialize (Hcell i j ltac:(lia) ltac:(lia)).
  apply cell_filled_affine_scores in Hcell.
  unfold transitions_at in Hcell. rewrite !Nat.add_sub in Hcell.
  unfold tie_free_affine in Hta. rewrite forallb_forall in Hta.
  specialize (Hta (i, j) ltac:(apply list_elem_of_In, elem_of_cells; lia)).
  cbn [fst snd] in Hta.
  destruct (cell_transitions_scores code1 code2 matrix g g tp n m
              (a_m (affine_fill code1 code2 matrix min_score g g tp local))
              (a_g1 (affine_fill code1 code2 matrix min_score g g tp local))
              (a_g2 (affine_fill code1 code2 matrix min_score g g tp local))
              i j) as (E1 & E2 & E3 & E4 & E5 & E6 & E7).
  fold (sub_score i j) in E1, E2, E3.
  cbv zeta in Hcell, Hta.
  rewrite E1, E2, E3 in Hta. rewrite E1, E2, E3, E4, E5, E6, E7 in Hcell.
  destruct Hcell as (HM & HG1 & HG2).
  split; [|split].
  - rewrite HM. f_equal. apply find_maximum_max. intros [H1 H2].
    rewrite (proj2 (Z.ltb_lt _ _) H1), (proj2 (Z.eqb_eq _ _) H2) in Hta.
    discriminate Hta.
  - rewrite HG1. destruct (negb tp && (i =? n)%nat); reflexivity.
  - rewrite HG2. destruct (negb tp && (j =? m)%nat); reflexivity.
Qed.

(** Sums of at most [n + m] scores stay far inside the C [int] range. *)
Lemma size_bound (k : nat) :
  (k <= n + m)%nat -> 0 <= Z.of_nat k * B /\ Z.of_nat k * B + 5 * B < 2147483648.
Proof using All.
  intros Hk. assert (0 <= B) by lia.
  assert (Z.of_nat k * B <= Z.of_nat (n + m) * B)
    by (apply Z.mul_le_mono_nonneg_r; lia).
  split; [apply Z.mul_nonneg_nonneg; lia | lia].
Qed.

Lemma gap_multiple (k : nat) : - (Z.of_nat k * B) <= Z.of_nat k * g <= 0.
Proof using All.
  assert (0 <= Z.of_nat k) by lia. split; [|nia].
  assert (Z.of_nat k * (- B) <= Z.of_nat k * g)
    by (apply Z.mul_le_mono_nonneg_l; lia).
  lia.
Qed.

(** The border of the four score tables. *)
Lemma border_values i j :
  (i <= n)%nat -> (j <= m)%nat -> (i = 0 \/ j = 0)%nat ->
  S i j = (if local || negb tp then 0 else Z.of_nat (i + j) * g)
  /\ M i j = (if decide (i = 0 /\ j = 0)%nat then 0 else far)
  /\ G1 i j = (if decide (j = 0%nat) then far
               else if local || negb tp then 0 else Z.of_nat j * g)
  /\ G2 i j = (if decide (i = 0%nat) then far
               else if local || negb tp then 0 else Z.of_nat i * g).
Proof using All.
  intros Hi Hj Hb.
  destruct (general_tables_cells code1 code2 matrix g tp local)
    as (_ & _ & _ & HbS).
  destruct (affine_fill_cells code1 code2 matrix min_score g g tp local)
    as (_ & _ & HbA).
  destruct (HbS i j Hb) as [_ ->]. destruct (HbA i j Hb) as (_ & -> & -> & ->).
  rewrite init_general_score. unfold affine_init.
  destruct (init_affine_values (n + 1) (m + 1) far g g tp local i j)
    as (_ & -> & -> & ->).
  pose proof far_bounds as Hfar.
  pose proof (size_bound (i + j) ltac:(lia)) as Hsz.
  pose proof (gap_multiple i) as Hgi. pose proof (gap_multiple j) as Hgj.
  assert (Hw : wrap32 far = far).
  { apply wrap32_id. unfold INT32_MIN, INT32_MAX in *. lia. }
  assert (Hwi : wrap32 (Z.of_nat i * g) = Z.of_nat i * g).
  { apply wrap32_id. unfold INT32_MIN, INT32_MAX in *. lia. }
  assert (Hwj : wrap32 (Z.of_nat j * g) = Z.of_nat j * g).
  { apply wrap32_id. unfold INT32_MIN, INT32_MAX in *. lia. }
  assert (Hwi' : (1 <= i)%nat -> wrap32 (Z.of_nat (i - 1) * g + g) = Z.of_nat i * g).
  { intros. replace (Z.of_nat (i - 1) * g + g) with (Z.of_nat i * g)
      by (rewrite Nat2Z.inj_sub by lia; simpl; ring).
    exact Hwi. }
  assert (Hwj' : (1 <= j)%nat -> wrap32 (Z.of_nat (j - 1) * g + g) = Z.of_nat j * g).
  { intros. replace (Z.of_nat (j - 1) * g + g) with (Z.of_nat j * g)
      by (rewrite Nat2Z.inj_sub by lia; simpl; ring).
    exact Hwj. }
  rewrite Hw, Hwi, Hwj. clear Hw Hwi Hwj Hfar Hsz Hgi Hgj.
  assert (Hsum : (i = 0%nat -> Z.of_nat (i + j) * g = Z.of_nat j * g)
                 /\ (j = 0%nat -> Z.of_nat (i + j) * g = Z.of_nat i * g)).
  { split; intros ->; f_equal; lia. }
  destruct Hsum as [Hs1 Hs2].
  destruct (local || negb tp);
    repeat (destruct (decide _) as [?|?]; try (exfalso; lia));
    rewrite ?Hwi', ?Hwj', ?Hs1, ?Hs2 by lia;
    repeat split; reflexivity.
Qed.

(** What relates the general table to the three affine tables in cell
    [(i, j)]: the general score is the largest of the three affine
    scores; all stay in a range where no addition of the fillers wraps;
    and the gap state the affine automaton may not leave towards the
    other gap state is never better placed than the diagonal candidate
    of the cell that move would enter. *)
Definition agree (i j : nat) : Prop :=
  S i j = Z.max (M i j) (Z.max (G1 i j) (G2 i j))
  /\ (if local then 0 else - (Z.of_nat (i + j) * B)) <= S i j
     <= Z.of_nat (i + j) * B
  /\ far <= M i j /\ far + g <= G1 i j /\ far + g <= G2 i j
  /\ ((1 <= i)%nat -> (j < m)%nat ->
      G2 i j + row_penalty i
      <= clamp local (S (i - 1) j + sub_score i (j + 1)))
  /\ ((1 <= j)%nat -> (i < n)%nat ->
      G1 i j + column_penalty j
      <= clamp local (S i (j - 1) + sub_score (i + 1) j)).

(** A substitution is at least as good as the two gaps it replaces. *)
Lemma cross_scores i j :
  (1 <= i <= n)%nat -> (1 <= j <= m)%nat ->
  g + row_penalty i <= sub_score i j /\ g + column_penalty j <= sub_score i j
  /\ (local = false -> tp = false -> 0 <= sub_score i j).
Proof using All.
  intros Hi Hj. pose proof (Hcross (i - 1)%nat (j - 1)%nat ltac:(lia) ltac:(lia)) as H.
  fold (sub_score i j) in H.
  destruct (penalty_bounds i) as ((R1 & R2 & _) & _).
  destruct (penalty_bounds j) as (_ & (C1 & C2 & _)).
  unfold cross_bound in H. clear Htg Hta.
  destruct tp; [rewrite R2, C2 by reflexivity; repeat split; try lia; discriminate|].
  destruct local; repeat split; try lia; discriminate.
Qed.

(** The relation holds on the border the initialisation writes. *)
Lemma agree_border i j :
  (i <= n)%nat -> (j <= m)%nat -> (i = 0 \/ j = 0)%nat -> agree i j.
Proof using All.
  intros Hi Hj Hb. unfold agree.
  destruct (border_values i j Hi Hj Hb) as (HS & HM & HG1 & HG2).
  pose proof far_bounds as Hfar.
  pose proof (size_bound (i + j) ltac:(lia)) as Hsz.
  pose proof (gap_multiple i) as Hgi. pose proof (gap_multiple j) as Hgj.
  pose proof (gap_multiple (i + j)) as Hgij.
  pose proof (size_bound i ltac:(lia)) as Hszi.
  pose proof (size_bound j ltac:(lia)) as Hszj.
  assert (Hij : Z.of_nat (i + j) * B = Z.of_nat i * B + Z.of_nat j * B)
    by (rewrite Nat2Z.inj_add; ring).
  unfold INT32_MIN in Hfar.
  split; [|split; [|split; [|split; [|split; [|split]]]]].
  - rewrite HS, HM, HG1, HG2. clear Htg Hta.
    destruct Hb as [-> | ->]; simpl; destruct (local || negb tp);
      repeat (destruct (decide _) as [?|?]; try (exfalso; lia)); lia.
  - rewrite HS. clear Htg Hta HS HM HG1 HG2. destruct local; simpl; [lia|].
    destruct (negb tp); lia.
  - rewrite HM. clear Htg Hta HS HM HG1 HG2. destruct (decide _); lia.
  - rewrite HG1. clear Htg Hta HS HM HG1 HG2. destruct (decide _); [lia|].
    destruct (local || negb tp); lia.
  - rewrite HG2. clear Htg Hta HS HM HG1 HG2. destruct (decide _); [lia|].
    destruct (local || negb tp); lia.
  - intros Hi1 Hjm. assert (j = 0%nat) as -> by lia.
    destruct (border_values (i - 1) 0 ltac:(lia) ltac:(lia) ltac:(lia))
      as (HS' & _).
    destruct (cross_scores i 1 ltac:(lia) ltac:(lia)) as (X1 & _ & X3).
    destruct (penalty_bounds i) as ((R1 & R2 & _) & _).
    rewrite HG2, HS'. simpl (0 + 1)%nat. clear Htg Hta HS HM HG1 HG2 HS'.
    rewrite decide_False by lia.
    assert (E : Z.of_nat i * g = Z.of_nat (i - 1 + 0) * g + g)
      by (rewrite Nat.add_0_r, Nat2Z.inj_sub by lia; simpl; ring).
    destruct local; simpl.
    + rewrite clamp_local. lia.
    + rewrite clamp_global. destruct tp; simpl; [|specialize (X3 eq_refl eq_refl)]; lia.
  - intros Hj1 Hin. assert (i = 0%nat) as -> by lia.
    destruct (border_values 0 (j - 1) ltac:(lia) ltac:(lia) ltac:(lia))
      as (HS' & _).
    destruct (cross_scores 1 j ltac:(lia) ltac:(lia)) as (_ & X2 & X3).
    destruct (penalty_bounds j) as (_ & (C1 & C2 & _)).
    rewrite HG1, HS'. simpl (0 + 1)%nat. clear Htg Hta HS HM HG1 HG2 HS'.
    rewrite decide_False by lia.
    assert (E : Z.of_nat j * g = Z.of_nat (0 + (j - 1)) * g + g)
      by (simpl; rewrite Nat2Z.inj_sub by lia; simpl; ring).
    destruct local; simpl.
    + rewrite clamp_local. lia.
    + rewrite clamp_global. destruct tp; simpl; [|specialize (X3 eq_refl eq_refl)]; lia.
Qed.

(** At an interior cell whose three neighbours agree, no addition of
    either filler wraps, and the recurrences hold in exact arithmetic. *)
Lemma exact_recurrences i j :
  (1 <= i <= n)%nat -> (1 <= j <= m)%nat ->
  agree (i - 1) (j - 1) -> agree i (j - 1) -> agree (i - 1) j ->
  S i j
  = clamp local
      (Z.max (S (i - 1) (j - 1) + sub_score i j)
         (Z.max (S i (j - 1) + row_penalty i) (S (i - 1) j + column_penalty j)))
  /\ M i j
     = clamp local
         (Z.max (M (i - 1) (j - 1) + sub_score i j)
            (Z.max (G1 (i - 1) (j - 1) + sub_score i j)
                   (G2 (i - 1) (j - 1) + sub_score i j)))
  /\ G1 i j
     = clamp local (Z.max (M i (j - 1)) (G1 i (j - 1)) + row_penalty i)
  /\ G2 i j
     = clamp local (Z.max (M (i - 1) j) (G2 (i - 1) j) + column_penalty j).
Proof using All.
  intros Hi Hj Hd Hl Ht.
  rewrite (general_recurrence i j Hi Hj).
  destruct (affine_recurrence i j Hi Hj) as (-> & -> & ->).
  destruct Hd as (D1 & D2 & D3 & D4 & D5 & _ & _).
  destruct Hl as (L1 & L2 & L3 & L4 & L5 & _ & _).
  destruct Ht as (T1 & T2 & T3 & T4 & T5 & _ & _).
  pose proof (sub_score_bounds i j) as (Hs1 & Hs2).
  pose proof far_bounds as Hfar. pose proof far_low as Hlow.
  pose proof (size_bound (i + j) ltac:(lia)) as Hsz.
  assert (Kd : Z.of_nat (i - 1 + (j - 1)) * B = Z.of_nat (i + j) * B - 2 * B).
  { replace (Z.of_nat (i - 1 + (j - 1))) with (Z.of_nat (i + j) - 2) by lia. ring. }
  assert (Kl : Z.of_nat (i + (j - 1)) * B = Z.of_nat (i + j) * B - B).
  { replace (Z.of_nat (i + (j - 1))) with (Z.of_nat (i + j) - 1) by lia. ring. }
  assert (Kt : Z.of_nat (i - 1 + j) * B = Z.of_nat (i + j) * B - B).
  { replace (Z.of_nat (i - 1 + j)) with (Z.of_nat (i + j) - 1) by lia. ring. }
  rewrite Kd in D2. rewrite Kl in L2. rewrite Kt in T2.
  clear Htg Hta Hcross HB Hmin Kd Kl Kt.
  unfold INT32_MIN in *.
  assert (Lo : (if local then 0 else - (Z.of_nat (i + j) * B - 2 * B))
               >= - (Z.of_nat (i + j) * B)
               /\ (if local then 0 else - (Z.of_nat (i + j) * B - B))
                  >= - (Z.of_nat (i + j) * B)).
  { destruct local; lia. }
  destruct Lo as [Lo1 Lo2].
  set (lo1 := if local then 0 else - (Z.of_nat (i + j) * B - 2 * B)) in *.
  set (lo2 := if local then 0 else - (Z.of_nat (i + j) * B - B)) in *.
  assert (E : forall a x, -2147483648 <= a + x <= 2147483647 -> add32 a x = a + x).
  { intros a x H. apply add32_exact. exact H. }
  rewrite !E by lia.
  unfold row_penalty, column_penalty.
  destruct (negb tp && (i =? n)%nat); destruct (negb tp && (j =? m)%nat);
    rewrite ?Z.add_0_r, ?Z.add_max_distr_r; repeat split; reflexivity.
Qed.

(** The relation carries over to an interior cell from its three
    neighbours. *)
Lemma agree_interior i j :
  (1 <= i <= n)%nat -> (1 <= j <= m)%nat ->
  agree (i - 1) (j - 1) -> agree i (j - 1) -> agree (i - 1) j -> agree i j.
Proof using All.
  intros Hi Hj Hd Hl Ht.
  assert (N1 : (1 <= i)%nat) by lia. assert (N2 : (j - 1 < m)%nat) by lia.
  assert (N3 : (1 <= j)%nat) by lia. assert (N4 : (i - 1 < n)%nat) by lia.
  assert (N5 : (i + j <= n + m)%nat) by lia.
  pose proof (sub_score_bounds i j) as (Hs1 & Hs2).
  pose proof far_bounds as Hfar.
  pose proof (size_bound (i + j) N5) as Hsz.
  destruct (penalty_bounds i) as ((R1 & _ & R3) & _).
  destruct (penalty_bounds j) as (_ & (C1 & _ & C3)).
  assert (R3' : (i < n)%nat -> row_penalty i = g) by (intros; apply R3; lia).
  assert (C3' : (j < m)%nat -> column_penalty j = g) by (intros; apply C3; lia).
  assert (Kd : Z.of_nat (i - 1 + (j - 1)) * B = Z.of_nat (i + j) * B - 2 * B).
  { replace (Z.of_nat (i - 1 + (j - 1))) with (Z.of_nat (i + j) - 2) by lia. ring. }
  assert (Kl : Z.of_nat (i + (j - 1)) * B = Z.of_nat (i + j) * B - B).
  { replace (Z.of_nat (i + (j - 1))) with (Z.of_nat (i + j) - 1) by lia. ring. }
  assert (Kt : Z.of_nat (i - 1 + j) * B = Z.of_nat (i + j) * B - B).
  { replace (Z.of_nat (i - 1 + j)) with (Z.of_nat (i + j) - 1) by lia. ring. }
  assert (X1 : (j < m)%nat -> g + row_penalty i <= sub_score i (j + 1)).
  { intros H. apply (cross_scores i (j + 1)); lia. }
  assert (X2 : (i < n)%nat -> g + column_penalty j <= sub_score (i + 1) j).
  { intros H. apply (cross_scores (i + 1) j); lia. }
  destruct (exact_recurrences i j Hi Hj Hd Hl Ht) as (ES & EM & EG1 & EG2).
  destruct Hd as (D1 & D2 & _ & _ & _ & _ & _).
  destruct Hl as (L1 & L2 & L3 & L4 & _ & L6 & _).
  destruct Ht as (T1 & T2 & T3 & _ & T5 & _ & T7).
  specialize (L6 N1 N2). specialize (T7 N3 N4).
  rewrite (Nat.sub_add 1 j N3) in L6. rewrite (Nat.sub_add 1 i N1) in T7.
  rewrite Kd in D2. rewrite Kl in L2. rewrite Kt in T2.
  unfold agree, INT32_MIN in *.
  clear Htg Hta Hcross HB Hmin Kd Kl Kt N1 N2 N3 N4 N5 R3 C3 Hi Hj Hsize.
  set (K := Z.of_nat (i + j) * B) in *. clearbody K.
  set (s := sub_score i j) in *. clearbody s.
  set (s1 := sub_score i (j + 1)) in *. clearbody s1.
  set (s2 := sub_score (i + 1) j) in *. clearbody s2.
  set (pr := row_penalty i) in *. clearbody pr.
  set (pc := column_penalty j) in *. clearbody pc.
  set (Sx := S i j) in *. clearbody Sx.
  set (Mx := M i j) in *. clearbody Mx.
  set (G1x := G1 i j) in *. clearbody G1x.
  set (G2x := G2 i j) in *. clearbody G2x.
  set (Sd := S (i - 1) (j - 1)) in *. clearbody Sd.
  set (Md := M (i - 1) (j - 1)) in *. clearbody Md.
  set (G1d := G1 (i - 1) (j - 1)) in *. clearbody G1d.
  set (G2d := G2 (i - 1) (j - 1)) in *. clearbody G2d.
  set (Sl := S i (j - 1)) in *. clearbody Sl.
  set (Ml := M i (j - 1)) in *. clearbody Ml.
  set (G1l := G1 i (j - 1)) in *. clearbody G1l.
  set (G2l := G2 i (j - 1)) in *. clearbody G2l.
  set (St := S (i - 1) j) in *. clearbody St.
  set (Mt := M (i - 1) j) in *. clearbody Mt.
  set (G1t := G1 (i - 1) j) in *. clearbody G1t.
  set (G2t := G2 (i - 1) j) in *. clearbody G2t.
  set (f := far) in *. clearbody f.
  assert (E1 : Z.max (Md + s) (Z.max (G1d + s) (G2d + s)) = Sd + s)
    by (clear - D1; lia).
  rewrite E1 in EM. clear E1 D1 Md G1d G2d.
  set (u := Z.max Ml G1l + pr) in *.
  set (v := Z.max Mt G2t + pc) in *.
  assert (E2 : Sl + pr = Z.max u (G2l + pr)) by (clear - L1; subst u; lia).
  assert (E3 : St + pc = Z.max v (G1t + pc)) by (clear - T1; subst v; lia).
  assert (U1 : f + g <= u) by (clear - L3 R1; subst u; lia).
  assert (V1 : f + g <= v) by (clear - T3 C1; subst v; lia).
  clearbody u v. clear L1 T1 L3 T3 L4 T5.
  set (p := G2l + pr) in *. set (q := G1t + pc) in *. clearbody p q.
  clear Ml G1l G2l Mt G1t G2t.
  rewrite E2, E3 in ES.
  destruct local; [rewrite !clamp_local in * | rewrite !clamp_global in *].
  all: rewrite <- EM in L6, T7.
  all: (split; [|split; [|split; [|split; [|split; [|split]]]]]).
  all: try (clear - ES EM EG1 EG2 L6 T7; lia).
  all: try (clear - ES D2 L2 T2 Hs1 R1 C1 E2 E3 Hsz; lia).
  all: try (clear - EM D2 Hs1 Hfar Hsz; lia).
  all: try (clear - EG1 U1; lia).
  all: try (clear - EG2 V1; lia).
  all: try (intros _ H; specialize (C3' H); specialize (X1 H);
            clear - EG2 E3 C3' X1 R1 Hg; lia).
  all: try (intros _ H; specialize (R3' H); specialize (X2 H);
            clear - EG1 E2 R3' X2 C1 Hg; lia).
Qed.

(** Every cell agrees, by induction along the anti-diagonals. *)
Lemma agree_all (k i j : nat) :
  (i + j < k)%nat -> (i <= n)%nat -> (j <= m)%nat -> agree i j.
Proof using All.
  revert i j. induction k as [|k IH]; intros i j Hk Hi Hj; [lia|].
  destruct (decide (i = 0 \/ j = 0)%nat) as [Hb|Hb].
  - apply agree_border; assumption.
  - apply agree_interior; [lia | lia | apply IH; lia ..].
Qed.

(** Every cell of the general score table holds the maximum of the three
    affine tables at that cell. *)
Lemma tables_agree i j :
  (i <= n)%nat -> (j <= m)%nat ->
  S i j = Z.max (M i j) (Z.max (G1 i j) (G2 i j)).
Proof using All.
  intros Hi Hj.
  destruct (agree_all (i + j + 1) i j ltac:(lia) Hi Hj) as [H _]. exact H.
Qed.

(** The two runs end with the same score. *)
Lemma equal_penalties_scores :
  optimal_score_affine code1 code2 matrix min_score g g tp local
  = optimal_score_general code1 code2 matrix g tp local.
Proof using All.
  destruct (general_tables_cells code1 code2 matrix g tp local)
    as (_ & RS & _).
  destruct (affine_fill_cells code1 code2 matrix min_score g g tp local)
    as ((R0 & RM & RG1 & RG2) & _).
  unfold optimal_score_affine, optimal_score_general, starts_affine,
    starts_general.
  rewrite !if_pair_snd. cbn [snd].
  rewrite (shape0_rect _ _ _ R0), (shape1_rect _ _ _ R0 ltac:(lia)).
  rewrite (shape0_rect _ _ _ RS), (shape1_rect _ _ _ RS ltac:(lia)).
  rewrite !Nat.add_sub.
  apply if_ext; intros _; [|symmetry; apply tables_agree; lia].
  unfold np_max. f_equal. apply list_max_same.
  - intros E. assert (H : M 0 0 ∈ concat
        (a_m (affine_fill code1 code2 matrix min_score g g tp local))).
    { apply (elem_of_table _ _ _ _ RM). exists 0%nat, 0%nat.
      repeat split; lia. }
    assert (H' : M 0 0 ∈ ([] : list Z)); [|inversion H'].
    rewrite <- E. apply elem_of_app. left. exact H.
  - intros x Hx.
    assert (Hx' : exists i j, (i < n + 1)%nat /\ (j < m + 1)%nat
              /\ (M i j = x \/ G1 i j = x \/ G2 i j = x)).
    { rewrite !elem_of_app in Hx. destruct Hx as [Hx|[Hx|Hx]];
        [apply (elem_of_table _ _ _ _ RM) in Hx
        |apply (elem_of_table _ _ _ _ RG1) in Hx
        |apply (elem_of_table _ _ _ _ RG2) in Hx];
        destruct Hx as (i & j & Hi & Hj & Hx); exists i, j; auto. }
    destruct Hx' as (i & j & Hi & Hj & Hx').
    exists (S i j). split.
    + apply (elem_of_table _ _ _ _ RS). exists i, j. auto.
    + rewrite (tables_agree i j) by lia. lia.
  - intros y Hy. apply (elem_of_table _ _ _ _ RS) in Hy as (i & j & Hi & Hj & <-).
    rewrite (tables_agree i j) by lia.
    exists (Z.max (M i j) (Z.max (G1 i j) (G2 i j))). split; [|lia].
    rewrite !elem_of_app.
    destruct (Z.max_spec (M i j) (Z.max (G1 i j) (G2 i j))) as [[_ ->]|[_ ->]];
      [destruct (Z.max_spec (G1 i j) (G2 i j)) as [[_ ->]|[_ ->]]|].
    + right; right. apply (elem_of_table _ _ _ _ RG2). exists i, j. auto.
    + right; left. apply (elem_of_table _ _ _ _ RG1). exists i, j. auto.
    + left. apply (elem_of_table _ _ _ _ RM). exists i, j. auto.
Qed.

End equal_penalties.

(** ** The scores [align_optimal] returns *)

(** [np.where(t == v)] finds every entry equal to [v]. *)
Lemma np_where_max (t : table) (v : Z) : v ∈ concat t -> np_where t v <> [].
Proof.
  intros Hv. apply elem_of_concat in Hv as (row & Hx & Hrow).
  apply list_elem_of_lookup in Hrow as (i & Hi).
  apply list_elem_of_lookup in Hx as (j & Hj).
  assert (H : (i, j) ∈ np_where t v); [|intros E; rewrite E in H; inversion H].
  unfold np_where. apply elem_of_concat.
  exists (omap (fun x => x)
            (imap (fun j x => if x =? v then Some (i, j) else None) row)).
  split.
  - apply list_elem_of_omap. exists (Some (i, j)). split; [|reflexivity].
    apply list_elem_of_lookup. exists j.
    rewrite list_lookup_imap, Hj. simpl. rewrite Z.eqb_refl. reflexivity.
  - apply list_elem_of_lookup. exists i. rewrite list_lookup_imap, Hi.
    reflexivity.
Qed.

Lemma table_nonempty r c (t : table) :
  rect r c t -> (0 < r)%nat -> (0 < c)%nat -> concat t <> [].
Proof.
  intros Hr Hpos Hposc E.
  assert (H : tget t 0 0 ∈ concat t).
  { apply (elem_of_table r c t _ Hr). exists 0%nat, 0%nat. auto. }
  rewrite E in H. inversion H.
Qed.

Lemma starts_general_nonempty r c (st : table) local :
  rect r c st -> (0 < r)%nat -> (0 < c)%nat ->
  (starts_general st local).1 <> [].
Proof.
  intros Hr Hpos Hposc. unfold starts_general. destruct local; simpl;
    [|discriminate].
  destruct (list_max_is_Some _ (table_nonempty r c st Hr Hpos Hposc))
    as (v & Hv).
  unfold np_max. rewrite Hv. simpl. apply list_max_spec in Hv as [Hv _].
  intros E. apply fmap_nil_inv in E. exact (np_where_max st v Hv E).
Qed.

Lemma starts_affine_nonempty r c (t : affine_tables) local :
  rect4 r c t -> (0 < r)%nat -> (0 < c)%nat ->
  (starts_affine t local).1 <> [].
Proof.
  intros (R0 & R1 & R2 & R3) Hpos Hposc. unfold starts_affine.
  destruct local; simpl.
  - assert (Hne : concat (a_m t) ++ concat (a_g1 t) ++ concat (a_g2 t) <> []).
    { intros E. apply app_eq_nil in E as [E _].
      exact (table_nonempty r c _ R1 Hpos Hposc E). }
    destruct (list_max_is_Some _ Hne) as (v & Hv). rewrite Hv. simpl.
    apply list_max_spec in Hv as [Hv _]. rewrite !elem_of_app in Hv.
    intros E. apply app_eq_nil in E as [E1 E]. apply app_eq_nil in E as [E2 E3].
    apply fmap_nil_inv in E1, E2, E3.
    destruct Hv as [Hv|[Hv|Hv]]; eapply np_where_max; eassumption.
  - set (a := tget (a_m t) _ _). set (b := tget (a_g1 t) _ _).
    set (d := tget (a_g2 t) _ _).
    destruct (Z.eqb_spec a (Z.max a (Z.max b d))); [discriminate|].
    destruct (Z.eqb_spec b (Z.max a (Z.max b d))); [discriminate|].
    destruct (Z.eqb_spec d (Z.max a (Z.max b d))); [discriminate|].
    exfalso. lia.
Qed.

(** With a general gap penalty [align_optimal] returns at least one
    alignment, each with the score read off the score table. *)
Lemma align_optimal_general_scores seq1 seq2 matrix g tp local log :
  covered1 matrix seq1 = true -> covered2 matrix seq2 = true ->
  fits_int32 g = true ->
  exists log' alignments,
    align_optimal seq1 seq2 matrix (PyInt g) tp local log = (log', Ok alignments)
    /\ alignments <> []
    /\ Forall (fun a => score a = optimal_score_general (code seq1) (code seq2)
                          (score_matrix matrix) g tp local) alignments.
Proof.
  intros H1 H2 Hg. rewrite align_optimal_general by assumption.
  unfold optimal_score_general.
  pose proof (general_trace_ok (code seq1) (code seq2) (score_matrix matrix)
                g tp local) as Hok.
  destruct (general_tables_cells (code seq1) (code seq2) (score_matrix matrix)
              g tp local) as (_ & Hrect & _).
  destruct (general_tables _ _ _ g tp local) as [tt st]. simpl in Hok, Hrect.
  pose proof (starts_general_ok _ _ st local Hrect ltac:(lia) ltac:(lia)) as Hst.
  pose proof (starts_general_nonempty _ _ st local Hrect ltac:(lia) ltac:(lia))
    as Hne.
  cbn [snd]. destruct (starts_general st local) as [starts mx].
  simpl in Hst, Hne.
  destruct (traceback_valid true _ _ seq1 seq2 tt starts mx Hok Hst)
    as (alignments & Heq & Hall & Hne').
  rewrite Heq. do 2 eexists. split; [reflexivity|]. split; [auto|].
  eapply Forall_impl; [exact Hall|]. intros a [_ Ha]. exact Ha.
Qed.

(** The same with an affine gap penalty. *)
Lemma align_optimal_affine_scores seq1 seq2 matrix go ge min_score tp local log :
  covered1 matrix seq1 = true -> covered2 matrix seq2 = true ->
  np_min (score_matrix matrix) = Some min_score ->
  fits_int32 go = true -> fits_int32 ge = true ->
  exists log' alignments,
    align_optimal seq1 seq2 matrix (PyTuple [go; ge]) tp local log
    = (log', Ok alignments)
    /\ alignments <> []
    /\ Forall (fun a => score a = optimal_score_affine (code seq1) (code seq2)
                          (score_matrix matrix) min_score go ge tp local)
         alignments.
Proof.
  intros H1 H2 Hmin Hgo Hge.
  rewrite (align_optimal_affine _ _ _ _ _ _ min_score) by assumption.
  unfold optimal_score_affine.
  pose proof (affine_trace_ok (code seq1) (code seq2) (score_matrix matrix)
                min_score go ge tp local) as Hok.
  destruct (affine_fill_cells (code seq1) (code seq2) (score_matrix matrix)
              min_score go ge tp local) as (Hrect & _).
  cbv zeta.
  set (t := affine_fill _ _ _ min_score go ge tp local) in *.
  pose proof (starts_affine_ok _ _ t local Hrect ltac:(lia) ltac:(lia)) as Hst.
  pose proof (starts_affine_nonempty _ _ t local Hrect ltac:(lia) ltac:(lia))
    as Hne.
  destruct (starts_affine t local) as [starts mx]. simpl in Hst, Hne.
  destruct (traceback_valid false _ _ seq1 seq2 (a_trace t) starts mx Hok Hst)
    as (alignments & Heq & Hall & Hne').
  rewrite Heq. do 2 eexists. split; [reflexivity|]. split; [auto|].
  eapply Forall_impl; [exact Hall|]. intros a [_ Ha]. exact Ha.
Qed.

(** The hypotheses on the scores, as tests. *)
Definition scores_bounded (matrix : table) (B : Z) : bool :=
  forallb (fun x => (- B <=? x) && (x <=? B)) (concat matrix).

Definition cross_scores_ok (code1 code2 : list nat) (matrix : table)
    (g : Z) (tp local : bool) : bool :=
  forallb (fun i =>
    forallb (fun j =>
               cross_bound g tp local <=? tget matrix (cget code1 i) (cget code2 j))
            (seq 0 (length code2)))
    (seq 0 (length code1)).

Lemma scores_bounded_spec (matrix : table) (B : Z) :
  scores_bounded matrix B = true ->
  forall x, x ∈ concat matrix -> - B <= x <= B.
Proof.
  unfold scores_bounded. rewrite forallb_forall. intros H x Hx.
  apply list_elem_of_In in Hx. specialize (H x Hx).
  apply andb_true_iff in H as [H1 H2]. lia.
Qed.

Lemma cross_scores_ok_spec code1 code2 matrix g tp local :
  cross_scores_ok code1 code2 matrix g tp local = true ->
  forall i j, (i < length code1)%nat -> (j < length code2)%nat ->
    cross_bound g tp local <= tget matrix (cget code1 i) (cget code2 j).
Proof.
  unfold cross_scores_ok. rewrite forallb_forall. intros H i j Hi Hj.
  specialize (H i ltac:(apply in_seq; lia)). rewrite forallb_forall in H.
  specialize (H j ltac:(apply in_seq; lia)). lia.
Qed.

(** C9, as amended: with the same negative penalty [g] for opening and
    for extending a gap, and for every choice of the mode flags, the affine
    run and the general run of [align_optimal] both return alignments, and
    all of them carry one and the same score, provided that
    - every substitution score the two sequences use is at least
      [cross_bound]: [2 * g] with terminal penalties, [g] without them in a
      local alignment, [0] without them in a global one (the affine tables
      have no transition from a gap in one sequence to a gap in the other,
      which the general table allows);
    - neither fill meets the branch that stores the diagonal candidate
      below two tied gap candidates;
    - scores and penalty are at most [B] in magnitude, with [B] small
      enough for the sums of [length seq1 + length seq2 + 5] of them to fit
      a C [int]. *)
Theorem equal_penalties_same_score seq1 seq2 matrix g B min_score tp local
    log log' :
  covered1 matrix seq1 = true -> covered2 matrix seq2 = true ->
  g < 0 -> - B <= g ->
  np_min (score_matrix matrix) = Some min_score ->
  scores_bounded (score_matrix matrix) B = true ->
  (Z.of_nat (length (code seq1) + length (code seq2)) + 5) * B < 2147483648 ->
  cross_scores_ok (code seq1) (code seq2) (score_matrix matrix) g tp local = true ->
  tie_free_general (code seq1) (code seq2) (score_matrix matrix) g tp local = true ->
  tie_free_affine (code seq1) (code seq2) (score_matrix matrix) min_score g g
    tp local = true ->
  exists la lg affine general optimum,
    align_optimal seq1 seq2 matrix (PyTuple [g; g]) tp local log = (la, Ok affine)
    /\ align_optimal seq1 seq2 matrix (PyInt g) tp local log' = (lg, Ok general)
    /\ affine <> [] /\ general <> []
    /\ Forall (fun a => score a = optimum) affine
    /\ Forall (fun a => score a = optimum) general.
Proof.
  intros H1 H2 Hg HgB Hmin HB Hsize Hcross Htg Hta.
  assert (Hfit : fits_int32 g = true).
  { unfold fits_int32, INT32_MIN, INT32_MAX.
    apply andb_true_iff. split; [apply Z.leb_le | apply Z.leb_le]; nia. }
  destruct (align_optimal_affine_scores seq1 seq2 matrix g g min_score tp local
              log H1 H2 Hmin Hfit Hfit) as (la & affine & Ea & Na & Fa).
  destruct (align_optimal_general_scores seq1 seq2 matrix g tp local log'
              H1 H2 Hfit) as (lg & general & Eg & Ng & Fg).
  exists la, lg, affine, general.
  exists (optimal_score_general (code seq1) (code seq2) (score_matrix matrix)
            g tp local).
  rewrite (equal_penalties_scores (code seq1) (code seq2)
             (score_matrix matrix) min_score g B tp local Hsize
             (cross_scores_ok_spec _ _ _ _ _ _ Hcross) Hg HgB Hmin
             (scores_bounded_spec _ _ HB) Htg Hta) in Fa.
  auto 10.
Qed.

(** The sequences of the docstring, with penalty -7. *)
Lemma equal_penalties_same_score_witness :
  exists la lg affine general optimum,
    align_optimal ATACGCTTGCT AGGCGCAGCT (match_matrix 5 (-4))
      (PyTuple [-7; -7]) true false [] = (la, Ok affine)
    /\ align_optimal ATACGCTTGCT AGGCGCAGCT (match_matrix 5 (-4))
         (PyInt (-7)) true false [] = (lg, Ok general)
    /\ affine <> [] /\ general <> []
    /\ Forall (fun a => score a = optimum) affine
    /\ Forall (fun a => score a = optimum) general.
Proof.
  apply (equal_penalties_same_score ATACGCTTGCT AGGCGCAGCT (match_matrix 5 (-4))
           (-7) 7 (-4) true false [] []);
    solve [vm_compute; reflexivity | lia | vm_compute; congruence].
Defined.

(** C9 as the specification has it fails where no tie is met, too: with
    free terminal gaps the general table ends [AC] against [AGG] with the
    [C] opposite a gap and the two [G] in a terminal gap, 5 - 1 = 4, which
    takes a step from a gap in one sequence to a gap in the other; the
    affine tables have no such step and reach 5 - 4 = 1. *)
Lemma equal_penalties_scores_differ :
  let seq1 := nuc [0; 1]%nat in
  let seq2 := nuc [0; 2; 2]%nat in
  let matrix := match_matrix 5 (-4) in
  (align_optimal seq1 seq2 matrix (PyInt (-1)) false false []).2
  = Ok [{| sequences := (seq1, seq2);
           trace := [(0, 0); (1, -1); (-1, 1); (-1, 2)]; score := 4 |}]
  /\ (align_optimal seq1 seq2 matrix (PyTuple [-1; -1]) false false []).2
     = Ok [{| sequences := (seq1, seq2);
              trace := [(0, 0); (1, 1); (-1, 2)]; score := 1 |}]
  /\ tie_free_general (code seq1) (code seq2) (score_matrix matrix) (-1)
       false false = true
  /\ tie_free_affine (code seq1) (code seq2) (score_matrix matrix) (-4)
       (-1) (-1) false false = true
  /\ cross_scores_ok (code seq1) (code seq2) (score_matrix matrix) (-1)
       false false = false.
Proof. repeat split; vm_compute; reflexivity. Qed.

(** * Further properties of the code *)

(** ** The trace bits name the best candidates *)

(** In each of its nine branches the three-way comparison sets the bit of
    a candidate exactly when that candidate attains the maximum. *)
Lemma find_maximum_flags d l t :
  let best := Z.max d (Z.max l t) in
  (bit_set (find_maximum d l t).1 1 = true <-> d = best)
  /\ (bit_set (find_maximum d l t).1 2 = true <-> l = best)
  /\ (bit_set (find_maximum d l t).1 4 = true <-> t = best).
Proof.
  unfold find_maximum.
  destruct (Z.gtb_spec d l); destruct (Z.eqb_spec d l);
    destruct (Z.gtb_spec d t); destruct (Z.eqb_spec d t);
    destruct (Z.gtb_spec l t); destruct (Z.eqb_spec l t);
    try (exfalso; lia); cbn;
    (split; [|split]); (split; [intros E; try discriminate E; lia
                                | intros E; try reflexivity; exfalso; lia]).
Qed.

Lemma find_gap1_flags a b :
  (bit_set (find_gap1 a b).1 8 = true <-> b <= a)
  /\ (bit_set (find_gap1 a b).1 16 = true <-> a <= b).
Proof.
  unfold find_gap1.
  destruct (Z.gtb_spec a b); [|destruct (Z.ltb_spec a b)]; cbn;
    split; (split; [intros E; try discriminate E; lia
                   | intros E; try reflexivity; exfalso; lia]).
Qed.

Lemma find_gap2_flags a b :
  (bit_set (find_gap2 a b).1 32 = true <-> b <= a)
  /\ (bit_set (find_gap2 a b).1 64 = true <-> a <= b).
Proof.
  unfold find_gap2.
  destruct (Z.gtb_spec a b); [|destruct (Z.ltb_spec a b)]; cbn;
    split; (split; [intros E; try discriminate E; lia
                   | intros E; try reflexivity; exfalso; lia]).
Qed.

(** X1: in a global alignment with a general gap penalty, every interior
    cell of the trace table is non-zero and flags exactly the candidates
    (bit 1 diagonal, bit 2 left, bit 4 top) that attain the maximum of the
    three; the score table holds that maximum, except in the one branch
    where the two gap candidates tie above the diagonal one, where it holds
    the diagonal candidate. *)
Theorem general_trace_flags code1 code2 matrix g tp i j :
  (1 <= i <= length code1)%nat -> (1 <= j <= length code2)%nat ->
  let tables := general_tables code1 code2 matrix g tp false in
  let d := from_diag code1 code2 matrix tables.2 i j in
  let l := from_left tables.2 g tp (length code1) i j in
  let t := from_top tables.2 g tp (length code2) i j in
  let best := Z.max d (Z.max l t) in
  tget tables.1 i j <> 0
  /\ (bit_set (tget tables.1 i j) 1 = true <-> d = best)
  /\ (bit_set (tget tables.1 i j) 2 = true <-> l = best)
  /\ (bit_set (tget tables.1 i j) 4 = true <-> t = best)
  /\ tget tables.2 i j = (if (d <? l) && (l =? t) then d else best).
Proof.
  intros Hi Hj tables d l t best.
  destruct (general_tables_cells code1 code2 matrix g tp false)
    as (_ & _ & Hcell & _).
  specialize (Hcell i j ltac:(lia) ltac:(lia)). fold tables in Hcell.
  unfold cell_filled, selected in Hcell.
  rewrite !Nat.add_sub in Hcell. fold d l t in Hcell.
  pose proof (find_maximum_flags d l t) as Hflags.
  pose proof (find_maximum_trace d l t) as Htr.
  assert (Hsc : (find_maximum d l t).2 = if (d <? l) && (l =? t) then d else best).
  { destruct (Z.ltb_spec d l); destruct (Z.eqb_spec l t); simpl;
      try (apply find_maximum_max; lia).
    unfold find_maximum.
    destruct (Z.gtb_spec d l); [lia|]. destruct (Z.eqb_spec d l); [lia|].
    destruct (Z.gtb_spec l t); [lia|]. destruct (Z.eqb_spec l t); [|lia].
    reflexivity. }
  destruct (find_maximum d l t) as [trace score]. simpl in *.
  destruct Hcell as [-> ->].
  split; [|tauto]. intros ->. intuition discriminate.
Qed.

Lemma general_trace_flags_witness :
  let code1 := [0; 1]%nat in
  let code2 := [0; 2; 2]%nat in
  let matrix := score_matrix (match_matrix 5 (-4)) in
  let tables := general_tables code1 code2 matrix (-1) true false in
  let d := from_diag code1 code2 matrix tables.2 2 3 in
  let l := from_left tables.2 (-1) true 2 2 3 in
  let t := from_top tables.2 (-1) true 3 2 3 in
  let best := Z.max d (Z.max l t) in
  tget tables.1 2 3 <> 0
  /\ (bit_set (tget tables.1 2 3) 1 = true <-> d = best)
  /\ (bit_set (tget tables.1 2 3) 2 = true <-> l = best)
  /\ (bit_set (tget tables.1 2 3) 4 = true <-> t = best)
  /\ tget tables.2 2 3 = (if (d <? l) && (l =? t) then d else best).
Proof.
  apply (general_trace_flags [0; 1]%nat [0; 2; 2]%nat
           (score_matrix (match_matrix 5 (-4))) (-1) true 2 3); simpl; lia.
Defined.

(** The trace byte of the affine filler is the union of three groups of
    bits that do not overlap. *)
Lemma lor_groups t0 b1 b2 :
  In t0 [1; 2; 3; 4; 5; 6; 7] -> In b1 [8; 16; 24] -> In b2 [32; 64; 96] ->
  Z.land (Z.lor (Z.lor t0 b1) b2) 7 = t0
  /\ Z.land (Z.lor (Z.lor t0 b1) b2) 24 = b1
  /\ Z.land (Z.lor (Z.lor t0 b1) b2) 96 = b2.
Proof.
  intros H0 H1 H2. simpl in H0, H1, H2.
  repeat (destruct H0 as [<-|H0]); try contradiction;
    repeat (destruct H1 as [<-|H1]); try contradiction;
    repeat (destruct H2 as [<-|H2]); try contradiction;
    repeat split; reflexivity.
Qed.

Lemma bit_set_group v mask k :
  Z.land mask k = k -> bit_set (Z.land v mask) k = bit_set v k.
Proof. intros H. unfold bit_set. rewrite <- Z.land_assoc, H. reflexivity. Qed.

(** X2: in a global alignment with an affine gap penalty, the trace byte
    of every interior cell flags, for each of the three tables, exactly the
    transitions that attain the maximum of that table's candidates (bits
    1, 2, 4 for the match table; 8, 16 for the gap-in-sequence-1 table; 32,
    64 for the gap-in-sequence-2 table); the two gap tables hold the
    maximum of their two candidates, and the match table holds the maximum
    of its three except in the branch where the two transitions from the
    gap tables tie above the one from the match table. *)
Theorem affine_trace_flags code1 code2 matrix min_score go ge tp i j :
  (1 <= i <= length code1)%nat -> (1 <= j <= length code2)%nat ->
  let t := affine_fill code1 code2 matrix min_score go ge tp false in
  let tr := cell_transitions code1 code2 matrix go ge tp (length code1)
              (length code2) (a_m t) (a_g1 t) (a_g2 t) i j in
  let v := tget (a_trace t) i j in
  let best := Z.max (mm_score tr) (Z.max (g1m_score tr) (g2m_score tr)) in
  (bit_set v 1 = true <-> mm_score tr = best)
  /\ (bit_set v 2 = true <-> g1m_score tr = best)
  /\ (bit_set v 4 = true <-> g2m_score tr = best)
  /\ (bit_set v 8 = true <-> g1g1_score tr <= mg1_score tr)
  /\ (bit_set v 16 = true <-> mg1_score tr <= g1g1_score tr)
  /\ (bit_set v 32 = true <-> g2g2_score tr <= mg2_score tr)
  /\ (bit_set v 64 = true <-> mg2_score tr <= g2g2_score tr)
  /\ tget (a_m t) i j
     = (if (mm_score tr <? g1m_score tr) && (g1m_score tr =? g2m_score tr)
        then mm_score tr else best)
  /\ tget (a_g1 t) i j = Z.max (mg1_score tr) (g1g1_score tr)
  /\ tget (a_g2 t) i j = Z.max (mg2_score tr) (g2g2_score tr).
Proof.
  intros Hi Hj t tr v best.
  destruct (affine_fill_cells code1 code2 matrix min_score go ge tp false)
    as (_ & Hcell & _).
  specialize (Hcell i j ltac:(lia) ltac:(lia)). fold t in Hcell.
  unfold cell_filled_affine, transitions_at in Hcell.
  rewrite !Nat.add_sub in Hcell. fold tr v in Hcell.
  rewrite stored_affine_global in Hcell.
  injection Hcell as Hv Hm Hg1 Hg2.
  pose proof (lor_groups _ _ _
                (find_maximum_trace (mm_score tr) (g1m_score tr) (g2m_score tr))
                (find_gap1_trace (mg1_score tr) (g1g1_score tr))
                (find_gap2_trace (mg2_score tr) (g2g2_score tr)))
    as (L0 & L1 & L2).
  rewrite <- Hv in L0, L1, L2.
  pose proof (find_maximum_flags (mm_score tr) (g1m_score tr) (g2m_score tr))
    as (F1 & F2 & F4).
  pose proof (find_gap1_flags (mg1_score tr) (g1g1_score tr)) as (F8 & F16).
  pose proof (find_gap2_flags (mg2_score tr) (g2g2_score tr)) as (F32 & F64).
  rewrite <- L0 in F1, F2, F4. rewrite <- L1 in F8, F16.
  rewrite <- L2 in F32, F64.
  rewrite bit_set_group in F1, F2, F4, F8, F16, F32, F64 by reflexivity.
  rewrite Hm, Hg1, Hg2, find_gap1_score, find_gap2_score.
  repeat (split; [assumption|]). split; [|split; reflexivity].
  destruct (Z.ltb_spec (mm_score tr) (g1m_score tr));
    destruct (Z.eqb_spec (g1m_score tr) (g2m_score tr)); simpl;
    try (apply find_maximum_max; lia).
  unfold find_maximum.
  destruct (Z.gtb_spec (mm_score tr) (g1m_score tr)); [lia|].
  destruct (Z.eqb_spec (mm_score tr) (g1m_score tr)); [lia|].
  destruct (Z.gtb_spec (g1m_score tr) (g2m_score tr)); [lia|].
  destruct (Z.eqb_spec (g1m_score tr) (g2m_score tr)); [|lia].
  reflexivity.
Qed.

Lemma affine_trace_flags_witness :
  let code1 := [0; 0; 0]%nat in
  let code2 := [1; 1; 0]%nat in
  let matrix := score_matrix (match_matrix 5 (-4)) in
  let t := affine_fill code1 code2 matrix (-4) (-2) (-1) false false in
  let tr := cell_transitions code1 code2 matrix (-2) (-1) false 3 3
              (a_m t) (a_g1 t) (a_g2 t) 3 3 in
  let v := tget (a_trace t) 3 3 in
  let best := Z.max (mm_score tr) (Z.max (g1m_score tr) (g2m_score tr)) in
  (bit_set v 1 = true <-> mm_score tr = best)
  /\ (bit_set v 2 = true <-> g1m_score tr = best)
  /\ (bit_set v 4 = true <-> g2m_score tr = best)
  /\ (bit_set v 8 = true <-> g1g1_score tr <= mg1_score tr)
  /\ (bit_set v 16 = true <-> mg1_score tr <= g1g1_score tr)
  /\ (bit_set v 32 = true <-> g2g2_score tr <= mg2_score tr)
  /\ (bit_set v 64 = true <-> mg2_score tr <= g2g2_score tr)
  /\ tget (a_m t) 3 3
     = (if (mm_score tr <? g1m_score tr) && (g1m_score tr =? g2m_score tr)
        then mm_score tr else best)
  /\ tget (a_g1 t) 3 3 = Z.max (mg1_score tr) (g1g1_score tr)
  /\ tget (a_g2 t) 3 3 = Z.max (mg2_score tr) (g2g2_score tr).
Proof.
  apply (affine_trace_flags [0; 0; 0]%nat [1; 1; 0]%nat
           (score_matrix (match_matrix 5 (-4))) (-4) (-2) (-1) false 3 3);
    simpl; lia.
Defined.

(** ** When [align_optimal] returns *)

(** Only the first two items of a tuple are read. *)
Lemma align_optimal_tuple_items seq1 seq2 matrix go ge more tp local log :
  align_optimal seq1 seq2 matrix (PyTuple (go :: ge :: more)) tp local log
  = align_optimal seq1 seq2 matrix (PyTuple [go; ge]) tp local log.
Proof. reflexivity. Qed.

(** X3: [align_optimal] returns exactly when both alphabets are covered
    by the matrix and the gap penalty is an integer that fits a C [int],
    or a tuple whose first two items do and the matrix has a smallest
    entry; it then returns at least one alignment.  In particular the
    traceback never indexes outside the trace table or the trace array it
    allocated. *)
Theorem align_optimal_returns_iff seq1 seq2 matrix gap_penalty tp local log :
  (exists log' alignments,
     align_optimal seq1 seq2 matrix gap_penalty tp local log
     = (log', Ok alignments) /\ alignments <> [])
  <-> (covered1 matrix seq1 = true /\ covered2 matrix seq2 = true
       /\ accepted matrix gap_penalty).
Proof.
  split.
  - intros (log' & alignments & Heq & _).
    exact (align_optimal_ok_inv _ _ _ _ _ _ _ _ _ Heq).
  - intros (H1 & H2 & Hacc).
    destruct gap_penalty as [g|items|]; simpl in Hacc; [| |contradiction].
    + destruct (align_optimal_general_scores seq1 seq2 matrix g tp local log
                  H1 H2 Hacc) as (log' & alignments & Heq & Hne & _).
      eauto.
    + destruct items as [|go [|ge more]]; try contradiction.
      destruct Hacc as (Hgo & Hge & Hmin).
      destruct (np_min (score_matrix matrix)) as [min_score|] eqn:E;
        [|congruence].
      rewrite align_optimal_tuple_items.
      destruct (align_optimal_affine_scores seq1 seq2 matrix go ge min_score
                  tp local log H1 H2 E Hgo Hge)
        as (log' & alignments & Heq & Hne & _).
      eauto.
Qed.

(** X4: a tuple with fewer than two items passes the type check of the
    gap penalty and fails only when its items are read, with an
    [IndexError], after the trace table has been allocated. *)
Theorem align_optimal_short_tuple seq1 seq2 matrix items tp local log :
  covered1 matrix seq1 = true -> covered2 matrix seq2 = true ->
  (length items < 2)%nat ->
  align_optimal seq1 seq2 matrix (PyTuple items) tp local log
  = (log ++ [((length (code seq1) + 1)%nat, (length (code seq2) + 1)%nat)],
     Raise IndexError).
Proof.
  unfold covered1, covered2. intros H1 H2 Hlen.
  unfold align_optimal. rewrite H1, H2. simpl.
  destruct items as [|go [|ge more]]; [reflexivity | reflexivity |].
  simpl in Hlen. lia.
Qed.

Lemma align_optimal_short_tuple_witness :
  align_optimal ATACGCTTGCT AGGCGCAGCT (match_matrix 5 (-4)) (PyTuple [-6])
    true false []
  = ([(12%nat, 11%nat)], Raise IndexError).
Proof.
  apply (align_optimal_short_tuple ATACGCTTGCT AGGCGCAGCT (match_matrix 5 (-4))
           [-6] true false []); [reflexivity | reflexivity | simpl; lia].
Defined.

(** ** Local alignments *)

Lemma list_max_ge (l : list Z) (v x : Z) :
  list_max l = Some v -> x ∈ l -> x <= v.
Proof. intros H Hx. exact (proj2 (list_max_spec l v H) x Hx). Qed.

(** The optimal score of a local alignment is at least the entry of the
    corner cell, which is 0. *)
Lemma optimal_score_general_local code1 code2 matrix g tp :
  0 <= optimal_score_general code1 code2 matrix g tp true.
Proof.
  unfold optimal_score_general, starts_general. cbn [snd].
  destruct (general_tables_cells code1 code2 matrix g tp true)
    as (_ & RS & _ & Hb).
  destruct (Hb 0%nat 0%nat ltac:(lia)) as [_ H0].
  rewrite init_general_score in H0. simpl in H0.
  destruct (list_max_is_Some _
              (table_nonempty _ _ _ RS ltac:(lia) ltac:(lia))) as (v & Hv).
  unfold np_max. rewrite Hv. simpl.
  rewrite <- H0. apply (list_max_ge _ _ _ Hv).
  apply (elem_of_table _ _ _ _ RS). exists 0%nat, 0%nat.
  repeat split; lia.
Qed.

Lemma optimal_score_affine_local code1 code2 matrix min_score go ge tp :
  0 <= optimal_score_affine code1 code2 matrix min_score go ge tp true.
Proof.
  unfold optimal_score_affine, starts_affine. cbn [snd].
  destruct (affine_fill_cells code1 code2 matrix min_score go ge tp true)
    as ((_ & RM & _) & _ & Hb).
  destruct (Hb 0%nat 0%nat ltac:(lia)) as (_ & H0 & _).
  unfold affine_init in H0.
  destruct (init_affine_values (length code1 + 1) (length code2 + 1)
              (neg_inf go ge min_score) go ge tp true 0 0) as (_ & E & _).
  rewrite E in H0. rewrite decide_False in H0 by lia.
  set (l := concat _ ++ _).
  assert (Hin : 0 ∈ l).
  { subst l. apply elem_of_app. left. rewrite <- H0.
    apply (elem_of_table _ _ _ _ RM). exists 0%nat, 0%nat.
    repeat split; lia. }
  destruct (list_max_is_Some l) as (v & Hv).
  { intros E'. rewrite E' in Hin. inversion Hin. }
  rewrite Hv. simpl. exact (list_max_ge _ _ _ Hv Hin).
Qed.

(** X5: the score of a local alignment is never negative, whatever the
    substitution matrix and the gap penalty. *)
Theorem local_score_nonnegative seq1 seq2 matrix gap_penalty tp log log'
    alignments :
  align_optimal seq1 seq2 matrix gap_penalty tp true log
  = (log', Ok alignments) ->
  Forall (fun a => 0 <= score a) alignments.
Proof.
  intros Heq.
  destruct (align_optimal_ok_inv _ _ _ _ _ _ _ _ _ Heq) as (H1 & H2 & Hacc).
  destruct gap_penalty as [g|items|]; simpl in Hacc; [| |contradiction].
  - destruct (align_optimal_general_scores seq1 seq2 matrix g tp true log
                H1 H2 Hacc) as (log'' & alignments' & Heq' & _ & Hall).
    rewrite Heq in Heq'. injection Heq' as _ <-.
    eapply Forall_impl; [exact Hall|]. simpl. intros a ->.
    apply optimal_score_general_local.
  - destruct items as [|go [|ge more]]; try contradiction.
    destruct Hacc as (Hgo & Hge & Hmin).
    destruct (np_min (score_matrix matrix)) as [min_score|] eqn:E;
      [|congruence].
    rewrite align_optimal_tuple_items in Heq.
    destruct (align_optimal_affine_scores seq1 seq2 matrix go ge min_score
                tp true log H1 H2 E Hgo Hge)
      as (log'' & alignments' & Heq' & _ & Hall).
    rewrite Heq in Heq'. injection Heq' as _ <-.
    eapply Forall_impl; [exact Hall|]. simpl. intros a ->.
    apply optimal_score_affine_local.
Qed.

Lemma local_score_nonnegative_witness :
  Forall (fun a => 0 <= score a)
    [{| sequences := (nuc [0; 1]%nat, nuc [0; 2; 2]%nat);
        trace := [(0, 0)]; score := 5 |}].
Proof.
  apply (local_score_nonnegative (nuc [0; 1]%nat) (nuc [0; 2; 2]%nat)
           (match_matrix 5 (-4)) (PyInt (-1)) true []
           [(3%nat, 4%nat); (3%nat, 4%nat)]).
  vm_compute. reflexivity.
Defined.

(** ** Ungapped scores of concatenated sequences *)

Lemma wrap32_add a b : wrap32 (wrap32 a + wrap32 b) = wrap32 (a + b).
Proof.
  rewrite wrap32_add_l, Z.add_comm, wrap32_add_l. f_equal. lia.
Qed.

Lemma cget_app_l (c c' : list nat) i : (i < length c)%nat -> cget (c ++ c') i = cget c i.
Proof. intros H. unfold cget. rewrite lookup_app_l by exact H. reflexivity. Qed.

Lemma cget_app_r (c c' : list nat) i :
  cget (c ++ c') (length c + i) = cget c' i.
Proof.
  unfold cget. rewrite lookup_app_r by lia.
  replace (length c + i - length c)%nat with i by lia. reflexivity.
Qed.

Lemma spec_ungapped_score_app c1 c1' c2 c2' matrix :
  length c1 = length c2 ->
  spec_ungapped_score (c1 ++ c1') (c2 ++ c2') matrix
  = spec_ungapped_score c1 c2 matrix + spec_ungapped_score c1' c2' matrix.
Proof.
  intros Hlen. unfold spec_ungapped_score.
  rewrite length_app, seq_app, map_app, foldr_app. simpl.
  assert (Hshift : forall (f : nat -> Z) l a,
            foldr Z.add a (map f l) = foldr Z.add 0 (map f l) + a).
  { intros f l a. induction l as [|x l IH]; simpl; [lia|]. rewrite IH. lia. }
  rewrite Hshift. f_equal.
  - apply (f_equal (foldr Z.add 0)). apply map_ext_in. intros i Hi.
    apply in_seq in Hi. rewrite !cget_app_l by lia. reflexivity.
  - apply (f_equal (foldr Z.add 0)).
    replace (seq (length c1) (length c1'))
      with (map (Nat.add (length c1)) (seq 0 (length c1')))
      by (change (map (Nat.add (length c1)))
            with (fmap (M:=list) (Nat.add (length c1)));
          rewrite fmap_add_seq; f_equal; lia).
    rewrite map_map. apply map_ext. intros i.
    rewrite cget_app_r, Hlen, cget_app_r. reflexivity.
Qed.

(** X6: the ungapped score of two concatenated pairs of sequences, each
    pair of equal lengths as the caller of [_add_scores] guarantees, is the
    32-bit sum of the scores of the pairs. *)
Theorem add_scores_app c1 c1' c2 c2' matrix :
  length c1 = length c2 -> length c1' = length c2' ->
  _add_scores (c1 ++ c1') (c2 ++ c2') matrix
  = add32 (_add_scores c1 c2 matrix) (_add_scores c1' c2' matrix).
Proof.
  intros Hlen _. rewrite !add_scores_wrap. unfold add32.
  rewrite wrap32_add, spec_ungapped_score_app by exact Hlen. reflexivity.
Qed.

Lemma add_scores_app_witness :
  _add_scores ([0; 1] ++ [2])%nat ([0; 2] ++ [2])%nat
    (score_matrix (match_matrix 5 (-4)))
  = add32 (_add_scores [0; 1]%nat [0; 2]%nat (score_matrix (match_matrix 5 (-4))))
          (_add_scores [2]%nat [2]%nat (score_matrix (match_matrix 5 (-4)))).
Proof.
  apply (add_scores_app [0; 1]%nat [2]%nat [0; 2]%nat [2]%nat); reflexivity.
Defined.

(** ** Outcomes of [align_ungapped] *)

(** X7: [align_ungapped] checks the lengths first: sequences of different
    lengths raise [LengthMismatch] with the two lengths, whatever their
    alphabets; sequences of equal length raise [AlphabetMismatch] when both
    alphabets differ from those of the matrix; every other call returns,
    a score with [score_only] and an alignment without.  No other error
    is raised. *)
Theorem align_ungapped_outcome seq1 seq2 matrix score_only :
  match align_ungapped seq1 seq2 matrix score_only with
  | Raise (LengthMismatch len1 len2) =>
    len1 = length (code seq1) /\ len2 = length (code seq2) /\ len1 <> len2
  | Raise AlphabetMismatch =>
    length (code seq1) = length (code seq2)
    /\ get_alphabet1 matrix <> get_alphabet seq1
    /\ get_alphabet2 matrix <> get_alphabet seq2
  | Ok (ScoreOnly _) => score_only = true /\ ungapped_accepts seq1 seq2 matrix
  | Ok (Aligned a) =>
    score_only = false /\ ungapped_accepts seq1 seq2 matrix
    /\ sequences a = (seq1, seq2)
    /\ length (trace a) = length (code seq1)
  | _ => False
  end.
Proof.
  unfold align_ungapped, ungapped_accepts, alphabet_eqb.
  rewrite trivial_trace.
  destruct (Nat.eqb_spec (length (code seq1)) (length (code seq2))) as [Hlen|Hlen];
    cbn [negb]; [|auto].
  destruct (String.eqb_spec (get_alphabet1 matrix) (get_alphabet seq1));
    destruct (String.eqb_spec (get_alphabet2 matrix) (get_alphabet seq2));
    cbn [negb andb]; auto;
    destruct score_only; cbn [sequences trace];
    unfold identity_trace; rewrite ?length_map, ?length_seq; auto 10.
Qed.

(** ** Exchanging the two sequences *)

(** The score the three-way comparison selects does not depend on the
    order of the two gap candidates. *)
Lemma find_maximum_swap d l t : (find_maximum d t l).2 = (find_maximum d l t).2.
Proof.
  unfold find_maximum.
  destruct (Z.gtb_spec d l); destruct (Z.eqb_spec d l);
    destruct (Z.gtb_spec d t); destruct (Z.eqb_spec d t);
    destruct (Z.gtb_spec l t); destruct (Z.eqb_spec l t);
    destruct (Z.gtb_spec t l); destruct (Z.eqb_spec t l);
    simpl; lia.
Qed.

(** Two tables, one the mirror image of the other, have the same
    maximum. *)
Lemma np_max_mirror r c (s s' : table) :
  rect r c s -> rect c r s' -> (0 < r)%nat -> (0 < c)%nat ->
  (forall i j, (i < r)%nat -> (j < c)%nat -> tget s' j i = tget s i j) ->
  np_max s' = np_max s.
Proof.
  intros Hs Hs' Hr Hc Hm. unfold np_max. apply list_max_same.
  - exact (table_nonempty c r s' Hs' Hc Hr).
  - intros x Hx. apply (elem_of_table c r s' x Hs') in Hx as (j & i & Hj & Hi & <-).
    exists (tget s i j). split; [|rewrite Hm by assumption; lia].
    apply (elem_of_table r c s _ Hs). eauto.
  - intros y Hy. apply (elem_of_table r c s y Hs) in Hy as (i & j & Hi & Hj & <-).
    exists (tget s' j i). split; [|rewrite Hm by assumption; lia].
    apply (elem_of_table c r s' _ Hs'). eauto.
Qed.

Section exchange_general.
Context (code1 code2 : list nat) (matrix matrix' : table).
Context (g : Z) (tp local : bool).
Hypothesis Hmirror : forall a b, tget matrix' b a = tget matrix a b.

Local Abbreviation n := (length code1).
Local Abbreviation m := (length code2).
Local Abbreviation T := (general_tables code1 code2 matrix g tp local).2.
Local Abbreviation T' := (general_tables code2 code1 matrix' g tp local).2.

Lemma mirror_cell (k i j : nat) :
  (i + j < k)%nat -> (i <= n)%nat -> (j <= m)%nat -> tget T' j i = tget T i j.
Proof using Hmirror.
  revert i j. induction k as [|k IH]; intros i j Hk Hi Hj; [lia|].
  destruct (general_tables_cells code1 code2 matrix g tp local)
    as (_ & _ & Hcell & Hborder).
  destruct (general_tables_cells code2 code1 matrix' g tp local)
    as (_ & _ & Hcell' & Hborder').
  destruct (decide (i = 0 \/ j = 0)%nat) as [Hb|Hb].
  - destruct (Hborder i j Hb) as [_ ->].
    destruct (Hborder' j i ltac:(lia)) as [_ ->].
    rewrite !init_general_score.
    destruct (local || negb tp); [reflexivity|].
    repeat (destruct (decide _) as [?|?]; try (exfalso; lia));
      try reflexivity; f_equal; f_equal; lia.
  - specialize (Hcell i j ltac:(lia) ltac:(lia)).
    specialize (Hcell' j i ltac:(lia) ltac:(lia)).
    apply cell_filled_score in Hcell, Hcell'. rewrite Hcell, Hcell'.
    f_equal. unfold selected. rewrite !Nat.add_sub.
    rewrite find_maximum_swap. unfold from_diag, from_left, from_top.
    rewrite (IH (i - 1) (j - 1))%nat by lia.
    rewrite (IH (i - 1) j)%nat by lia.
    rewrite (IH i (j - 1))%nat by lia.
    rewrite Hmirror. reflexivity.
Qed.

Lemma exchange_general :
  optimal_score_general code2 code1 matrix' g tp local
  = optimal_score_general code1 code2 matrix g tp local.
Proof using Hmirror.
  destruct (general_tables_cells code1 code2 matrix g tp local)
    as (_ & RS & _).
  destruct (general_tables_cells code2 code1 matrix' g tp local)
    as (_ & RS' & _).
  unfold optimal_score_general, starts_general.
  rewrite !if_pair_snd. cbn [snd].
  rewrite (shape0_rect _ _ _ RS), (shape1_rect _ _ _ RS ltac:(lia)).
  rewrite (shape0_rect _ _ _ RS'), (shape1_rect _ _ _ RS' ltac:(lia)).
  rewrite !Nat.add_sub.
  apply if_ext; intros _.
  - f_equal. apply (np_max_mirror (n + 1) (m + 1)); auto; try lia.
    intros i j Hi Hj. apply (mirror_cell (i + j + 1)); lia.
  - apply (mirror_cell (n + m + 1)); lia.
Qed.
End exchange_general.

Section exchange_affine.
Context (code1 code2 : list nat) (matrix matrix' : table).
Context (min_score go ge : Z) (tp local : bool).
Hypothesis Hmirror : forall a b, tget matrix' b a = tget matrix a b.

Local Abbreviation n := (length code1).
Local Abbreviation m := (length code2).
Local Abbreviation A := (affine_fill code1 code2 matrix min_score go ge tp local).
Local Abbreviation A' := (affine_fill code2 code1 matrix' min_score go ge tp local).

Lemma mirror_cell_affine (k i j : nat) :
  (i + j < k)%nat -> (i <= n)%nat -> (j <= m)%nat ->
  tget (a_m A') j i = tget (a_m A) i j
  /\ tget (a_g1 A') j i = tget (a_g2 A) i j
  /\ tget (a_g2 A') j i = tget (a_g1 A) i j.
Proof using Hmirror.
  revert i j. induction k as [|k IH]; intros i j Hk Hi Hj; [lia|].
  destruct (affine_fill_cells code1 code2 matrix min_score go ge tp local)
    as (_ & Hcell & Hborder).
  destruct (affine_fill_cells code2 code1 matrix' min_score go ge tp local)
    as (_ & Hcell' & Hborder').
  destruct (decide (i = 0 \/ j = 0)%nat) as [Hb|Hb].
  - destruct (Hborder i j Hb) as (_ & -> & -> & ->).
    destruct (Hborder' j i ltac:(lia)) as (_ & -> & -> & ->).
    unfold affine_init.
    destruct (init_affine_values (n + 1) (m + 1) (neg_inf go ge min_score)
                go ge tp local i j) as (_ & -> & -> & ->).
    destruct (init_affine_values (m + 1) (n + 1) (neg_inf go ge min_score)
                go ge tp local j i) as (_ & -> & -> & ->).
    destruct (local || negb tp);
      repeat (destruct (decide _) as [?|?]; try (exfalso; lia));
      repeat split; reflexivity.
  - specialize (Hcell i j ltac:(lia) ltac:(lia)).
    specialize (Hcell' j i ltac:(lia) ltac:(lia)).
    apply cell_filled_affine_scores in Hcell, Hcell'.
    unfold transitions_at in Hcell, Hcell'.
    rewrite !Nat.add_sub in Hcell, Hcell'. cbv zeta in Hcell, Hcell'.
    destruct (cell_transitions_scores code1 code2 matrix go ge tp n m
                (a_m A) (a_g1 A) (a_g2 A) i j)
      as (E1 & E2 & E3 & E4 & E5 & E6 & E7).
    destruct (cell_transitions_scores code2 code1 matrix' go ge tp m n
                (a_m A') (a_g1 A') (a_g2 A') j i)
      as (F1 & F2 & F3 & F4 & F5 & F6 & F7).
    cbv zeta in E1, E2, E3, F1, F2, F3.
    rewrite E1, E2, E3, E4, E5, E6, E7 in Hcell.
    rewrite F1, F2, F3, F4, F5, F6, F7 in Hcell'.
    destruct Hcell as (-> & -> & ->). destruct Hcell' as (-> & -> & ->).
    destruct (IH (i - 1) (j - 1))%nat as (D1 & D2 & D3); [lia ..|].
    destruct (IH (i - 1) j)%nat as (U1 & U2 & U3); [lia ..|].
    destruct (IH i (j - 1))%nat as (L1 & L2 & L3); [lia ..|].
    rewrite D1, D2, D3, U1, U2, L1, L3, Hmirror.
    split; [|split]; [|reflexivity ..].
    f_equal. apply find_maximum_swap.
Qed.

Lemma exchange_affine :
  optimal_score_affine code2 code1 matrix' min_score go ge tp local
  = optimal_score_affine code1 code2 matrix min_score go ge tp local.
Proof using Hmirror.
  destruct (affine_fill_cells code1 code2 matrix min_score go ge tp local)
    as ((R0 & RM & RG1 & RG2) & _).
  destruct (affine_fill_cells code2 code1 matrix' min_score go ge tp local)
    as ((R0' & RM' & RG1' & RG2') & _).
  assert (Hc : forall i j, (i < n + 1)%nat -> (j < m + 1)%nat ->
            tget (a_m A') j i = tget (a_m A) i j
            /\ tget (a_g1 A') j i = tget (a_g2 A) i j
            /\ tget (a_g2 A') j i = tget (a_g1 A) i j).
  { intros i j Hi Hj. apply (mirror_cell_affine (i + j + 1)); lia. }
  unfold optimal_score_affine, starts_affine.
  rewrite !if_pair_snd. cbn [snd].
  rewrite (shape0_rect _ _ _ R0), (shape1_rect _ _ _ R0 ltac:(lia)).
  rewrite (shape0_rect _ _ _ R0'), (shape1_rect _ _ _ R0' ltac:(lia)).
  rewrite !Nat.add_sub.
  apply if_ext; intros _.
  - f_equal. apply list_max_same.
    + intros E. apply app_eq_nil in E as [E _].
      exact (table_nonempty _ _ _ RM' ltac:(lia) ltac:(lia) E).
    + intros x Hx. exists x. split; [|lia].
      rewrite !elem_of_app in Hx. rewrite !elem_of_app.
      destruct Hx as [Hx|[Hx|Hx]];
        [apply (elem_of_table _ _ _ _ RM') in Hx
        |apply (elem_of_table _ _ _ _ RG1') in Hx
        |apply (elem_of_table _ _ _ _ RG2') in Hx];
        destruct Hx as (j & i & Hj & Hi & <-);
        destruct (Hc i j Hi Hj) as (C1 & C2 & C3).
      * left. rewrite C1. apply (elem_of_table _ _ _ _ RM). eauto.
      * right; right. rewrite C2. apply (elem_of_table _ _ _ _ RG2). eauto.
      * right; left. rewrite C3. apply (elem_of_table _ _ _ _ RG1). eauto.
    + intros x Hx. exists x. split; [|lia].
      rewrite !elem_of_app in Hx. rewrite !elem_of_app.
      destruct Hx as [Hx|[Hx|Hx]];
        [apply (elem_of_table _ _ _ _ RM) in Hx
        |apply (elem_of_table _ _ _ _ RG1) in Hx
        |apply (elem_of_table _ _ _ _ RG2) in Hx];
        destruct Hx as (i & j & Hi & Hj & <-);
        destruct (Hc i j Hi Hj) as (C1 & C2 & C3).
      * left. rewrite <- C1. apply (elem_of_table _ _ _ _ RM'). eauto.
      * right; right. rewrite <- C3. apply (elem_of_table _ _ _ _ RG2'). eauto.
      * right; left. rewrite <- C2. apply (elem_of_table _ _ _ _ RG1'). eauto.
  - destruct (Hc n m ltac:(lia) ltac:(lia)) as (-> & -> & ->). lia.
Qed.
End exchange_affine.

Lemma match_matrix_symmetric hit miss a b :
  tget (score_matrix (match_matrix hit miss)) b a
  = tget (score_matrix (match_matrix hit miss)) a b.
Proof.
  destruct a as [|[|[|[|a]]]]; destruct b as [|[|[|[|b]]]]; reflexivity.
Qed.

(** X8: exchanging the two sequences, with the substitution matrix
    transposed, leaves the score of [align_optimal] unchanged, for a
    general gap penalty in every mode (local or global, with or without
    terminal penalties) and whatever the values, wrap-around included. *)
Theorem general_score_exchange seq1 seq2 matrix matrix' g tp local
    log1 log1' alignments1 log2 log2' alignments2 :
  (forall a b, tget (score_matrix matrix') b a = tget (score_matrix matrix) a b) ->
  align_optimal seq1 seq2 matrix (PyInt g) tp local log1
  = (log1', Ok alignments1) ->
  align_optimal seq2 seq1 matrix' (PyInt g) tp local log2
  = (log2', Ok alignments2) ->
  forall a1 a2, a1 ∈ alignments1 -> a2 ∈ alignments2 -> score a1 = score a2.
Proof.
  intros Ht Heq1 Heq2 a1 a2 Ha1 Ha2.
  destruct (align_optimal_ok_inv _ _ _ _ _ _ _ _ _ Heq1) as (H1 & H2 & Hg).
  destruct (align_optimal_ok_inv _ _ _ _ _ _ _ _ _ Heq2) as (H1' & H2' & _).
  simpl in Hg.
  destruct (align_optimal_general_scores seq1 seq2 matrix g tp local log1
              H1 H2 Hg) as (l1 & als1 & E1 & _ & Hall1).
  destruct (align_optimal_general_scores seq2 seq1 matrix' g tp local log2
              H1' H2' Hg) as (l2 & als2 & E2 & _ & Hall2).
  rewrite Heq1 in E1. injection E1 as _ <-.
  rewrite Heq2 in E2. injection E2 as _ <-.
  rewrite Forall_forall in Hall1, Hall2.
  rewrite (Hall1 a1 Ha1), (Hall2 a2 Ha2). symmetry.
  apply exchange_general. exact Ht.
Qed.

Lemma general_score_exchange_witness :
  let a1 := {| sequences := (nuc [0; 1]%nat, nuc [0; 2; 2]%nat);
               trace := [(0, 0); (1, -1); (-1, 1); (-1, 2)]; score := 4 |} in
  let a2 := {| sequences := (nuc [0; 2; 2]%nat, nuc [0; 1]%nat);
               trace := [(0, 0); (-1, 1); (1, -1); (2, -1)]; score := 4 |} in
  align_optimal (nuc [0; 1]%nat) (nuc [0; 2; 2]%nat) (match_matrix 5 (-4))
    (PyInt (-1)) false false []
  = ([(3%nat, 4%nat); (3%nat, 4%nat)], Ok [a1])
  /\ align_optimal (nuc [0; 2; 2]%nat) (nuc [0; 1]%nat) (match_matrix 5 (-4))
       (PyInt (-1)) false false []
     = ([(4%nat, 3%nat); (4%nat, 3%nat)], Ok [a2])
  /\ score a1 = score a2.
Proof.
  intros a1 a2.
  assert (H1 : align_optimal (nuc [0; 1]%nat) (nuc [0; 2; 2]%nat)
                 (match_matrix 5 (-4)) (PyInt (-1)) false false []
               = ([(3%nat, 4%nat); (3%nat, 4%nat)], Ok [a1]))
    by (vm_compute; reflexivity).
  assert (H2 : align_optimal (nuc [0; 2; 2]%nat) (nuc [0; 1]%nat)
                 (match_matrix 5 (-4)) (PyInt (-1)) false false []
               = ([(4%nat, 3%nat); (4%nat, 3%nat)], Ok [a2]))
    by (vm_compute; reflexivity).
  split; [exact H1|]. split; [exact H2|].
  apply (general_score_exchange _ _ _ _ _ _ _ _ _ _ _ _ _
           (fun a b => match_matrix_symmetric 5 (-4) a b) H1 H2);
    apply list_elem_of_here.
Defined.

(** X9: the same for an affine gap penalty, when the two matrices have the
    same smallest entry: the match tables of the two runs mirror each other
    and the two gap tables change places. *)
Theorem affine_score_exchange seq1 seq2 matrix matrix' items tp local
    log1 log1' alignments1 log2 log2' alignments2 :
  (forall a b, tget (score_matrix matrix') b a = tget (score_matrix matrix) a b) ->
  np_min (score_matrix matrix') = np_min (score_matrix matrix) ->
  align_optimal seq1 seq2 matrix (PyTuple items) tp local log1
  = (log1', Ok alignments1) ->
  align_optimal seq2 seq1 matrix' (PyTuple items) tp local log2
  = (log2', Ok alignments2) ->
  forall a1 a2, a1 ∈ alignments1 -> a2 ∈ alignments2 -> score a1 = score a2.
Proof.
  intros Ht Hmin Heq1 Heq2 a1 a2 Ha1 Ha2.
  destruct (align_optimal_ok_inv _ _ _ _ _ _ _ _ _ Heq1) as (H1 & H2 & Hacc).
  destruct (align_optimal_ok_inv _ _ _ _ _ _ _ _ _ Heq2) as (H1' & H2' & _).
  destruct items as [|go [|ge more]]; try contradiction.
  destruct Hacc as (Hgo & Hge & Hsome).
  destruct (np_min (score_matrix matrix)) as [min_score|] eqn:E;
    [|congruence].
  change (align_optimal seq1 seq2 matrix (PyTuple [go; ge]) tp local log1
          = (log1', Ok alignments1)) in Heq1.
  change (align_optimal seq2 seq1 matrix' (PyTuple [go; ge]) tp local log2
          = (log2', Ok alignments2)) in Heq2.
  destruct (align_optimal_affine_scores seq1 seq2 matrix go ge min_score
              tp local log1 H1 H2 E Hgo Hge) as (l1 & als1 & E1 & _ & Hall1).
  destruct (align_optimal_affine_scores seq2 seq1 matrix' go ge min_score
              tp local log2 H1' H2' Hmin Hgo Hge)
    as (l2 & als2 & E2 & _ & Hall2).
  rewrite Heq1 in E1. injection E1 as _ <-.
  rewrite Heq2 in E2. injection E2 as _ <-.
  rewrite Forall_forall in Hall1, Hall2.
  rewrite (Hall1 a1 Ha1), (Hall2 a2 Ha2). symmetry.
  apply exchange_affine. exact Ht.
Qed.

Lemma affine_score_exchange_witness :
  let a1 := {| sequences := (nuc [0; 1]%nat, nuc [0; 2; 2]%nat);
               trace := [(0, 0); (1, 1); (-1, 2)]; score := 1 |} in
  let a2 := {| sequences := (nuc [0; 2; 2]%nat, nuc [0; 1]%nat);
               trace := [(0, 0); (1, 1); (2, -1)]; score := 1 |} in
  align_optimal (nuc [0; 1]%nat) (nuc [0; 2; 2]%nat) (match_matrix 5 (-4))
    (PyTuple [-1; -1]) false false []
  = ([(3%nat, 4%nat); (3%nat, 4%nat); (3%nat, 4%nat); (3%nat, 4%nat)],
     Ok [a1])
  /\ align_optimal (nuc [0; 2; 2]%nat) (nuc [0; 1]%nat) (match_matrix 5 (-4))
       (PyTuple [-1; -1]) false false []
     = ([(4%nat, 3%nat); (4%nat, 3%nat); (4%nat, 3%nat); (4%nat, 3%nat)],
        Ok [a2])
  /\ score a1 = score a2.
Proof.
  intros a1 a2.
  assert (H1 : align_optimal (nuc [0; 1]%nat) (nuc [0; 2; 2]%nat)
                 (match_matrix 5 (-4)) (PyTuple [-1; -1]) false false []
               = ([(3%nat, 4%nat); (3%nat, 4%nat); (3%nat, 4%nat);
                   (3%nat, 4%nat)], Ok [a1]))
    by (vm_compute; reflexivity).
  assert (H2 : align_optimal (nuc [0; 2; 2]%nat) (nuc [0; 1]%nat)
                 (match_matrix 5 (-4)) (PyTuple [-1; -1]) false false []
               = ([(4%nat, 3%nat); (4%nat, 3%nat); (4%nat, 3%nat);
                   (4%nat, 3%nat)], Ok [a2]))
    by (vm_compute; reflexivity).
  split; [exact H1|]. split; [exact H2|].
  apply (affine_score_exchange _ _ _ _ _ _ _ _ _ _ _ _ _
           (fun a b => match_matrix_symmetric 5 (-4) a b) eq_refl H1 H2);
    apply list_elem_of_here.
Defined.

(** ** The reported score is the best score of any alignment *)

Lemma list_max_char (l : list Z) (v : Z) :
  v ∈ l -> (forall x, x ∈ l -> x <= v) -> list_max l = Some v.
Proof.
  intros Hin Hle. destruct (list_max_is_Some l) as (w & Hw).
  { intros ->. inversion Hin. }
  rewrite Hw. f_equal. apply list_max_spec in Hw as [Hw1 Hw2].
  specialize (Hle w Hw1). specialize (Hw2 v Hin). lia.
Qed.

Lemma list_max_map_add (l : list Z) (c v : Z) :
  list_max l = Some v -> list_max (map (fun x => x + c) l) = Some (v + c).
Proof.
  intros H. apply list_max_spec in H as [H1 H2]. apply list_max_char.
  - apply list_elem_of_fmap. eauto.
  - intros x Hx. apply list_elem_of_fmap in Hx as (y & -> & Hy).
    specialize (H2 y Hy). lia.
Qed.

Lemma list_max_app (l1 l2 : list Z) (v1 v2 : Z) :
  list_max l1 = Some v1 -> list_max l2 = Some v2 ->
  list_max (l1 ++ l2) = Some (Z.max v1 v2).
Proof.
  intros H1 H2. apply list_max_spec in H1 as [A1 B1].
  apply list_max_spec in H2 as [A2 B2]. apply list_max_char.
  - apply elem_of_app.
    destruct (Z.max_spec v1 v2) as [[_ ->]|[_ ->]]; [right | left]; assumption.
  - intros x Hx. apply elem_of_app in Hx as [Hx|Hx];
      [specialize (B1 x Hx) | specialize (B2 x Hx)]; lia.
Qed.

(** The score of one row of a trace. *)
Definition row_score (code1 code2 : list nat) (matrix : table) (g : Z)
    (row : Z * Z) : Z :=
  if (row.1 =? -1) || (row.2 =? -1) then g
  else tget matrix (cget code1 (Z.to_nat row.1)) (cget code2 (Z.to_nat row.2)).

Lemma spec_trace_score_rows code1 code2 matrix g tr :
  spec_trace_score code1 code2 matrix g tr
  = foldr Z.add 0 (map (row_score code1 code2 matrix g) tr).
Proof. reflexivity. Qed.

Lemma spec_trace_score_snoc code1 code2 matrix g tr row :
  spec_trace_score code1 code2 matrix g (tr ++ [row])
  = spec_trace_score code1 code2 matrix g tr + row_score code1 code2 matrix g row.
Proof.
  rewrite !spec_trace_score_rows, map_app, foldr_app. simpl.
  generalize (row_score code1 code2 matrix g row) as c. intros c.
  induction tr as [|x tr IH]; simpl; [lia|]. rewrite IH. lia.
Qed.

(** The best score over all alignments of two prefixes. *)
Definition best_score (code1 code2 : list nat) (matrix : table) (g : Z)
    (i j : nat) : option Z :=
  list_max (map (spec_trace_score code1 code2 matrix g) (all_traces i j)).

Lemma best_score_snoc code1 code2 matrix g (l : list (list (Z * Z))) row v :
  list_max (map (spec_trace_score code1 code2 matrix g) l) = Some v ->
  list_max (map (spec_trace_score code1 code2 matrix g)
              (map (fun t => t ++ [row]) l))
  = Some (v + row_score code1 code2 matrix g row).
Proof.
  intros H. rewrite map_map.
  rewrite (map_ext _ (fun t => spec_trace_score code1 code2 matrix g t
                               + row_score code1 code2 matrix g row))
    by (intros; apply spec_trace_score_snoc).
  rewrite <- (map_map (spec_trace_score code1 code2 matrix g)
                (fun x => x + row_score code1 code2 matrix g row)).
  apply list_max_map_add. exact H.
Qed.

Lemma row_score_pair code1 code2 matrix g (i j : nat) :
  row_score code1 code2 matrix g (Z.of_nat i, Z.of_nat j)
  = tget matrix (cget code1 i) (cget code2 j).
Proof.
  unfold row_score. simpl.
  destruct (Z.eqb_spec (Z.of_nat i) (-1)); [lia|].
  destruct (Z.eqb_spec (Z.of_nat j) (-1)); [lia|].
  simpl. rewrite !Nat2Z.id. reflexivity.
Qed.

Lemma row_score_gap1 code1 code2 matrix g (j : Z) :
  row_score code1 code2 matrix g (-1, j) = g.
Proof. reflexivity. Qed.

Lemma row_score_gap2 code1 code2 matrix g (i : Z) :
  row_score code1 code2 matrix g (i, -1) = g.
Proof. unfold row_score. simpl. rewrite orb_true_r. reflexivity. Qed.

(** The recurrence of the best score. *)
Lemma best_score_rec code1 code2 matrix g i j :
  best_score code1 code2 matrix g 0 0 = Some 0
  /\ (forall v, best_score code1 code2 matrix g 0 j = Some v ->
        best_score code1 code2 matrix g 0 (S j) = Some (v + g))
  /\ (forall v, best_score code1 code2 matrix g i 0 = Some v ->
        best_score code1 code2 matrix g (S i) 0 = Some (v + g))
  /\ (forall d l t,
        best_score code1 code2 matrix g i j = Some d ->
        best_score code1 code2 matrix g (S i) j = Some l ->
        best_score code1 code2 matrix g i (S j) = Some t ->
        best_score code1 code2 matrix g (S i) (S j)
        = Some (Z.max (d + tget matrix (cget code1 i) (cget code2 j))
                  (Z.max (l + g) (t + g)))).
Proof.
  unfold best_score. split; [reflexivity|]. split; [|split].
  - intros v H. change (all_traces 0 (S j))
      with (map (fun t => t ++ [(-1, Z.of_nat j)]) (all_traces 0 j)).
    rewrite (best_score_snoc _ _ _ _ _ _ v H), row_score_gap1. reflexivity.
  - intros v H. change (all_traces (S i) 0)
      with (map (fun t => t ++ [(Z.of_nat i, -1)]) (all_traces i 0)).
    rewrite (best_score_snoc _ _ _ _ _ _ v H), row_score_gap2. reflexivity.
  - intros d l t Hd Hl Ht.
    change (all_traces (S i) (S j))
      with (map (fun t => t ++ [(Z.of_nat i, Z.of_nat j)]) (all_traces i j)
            ++ map (fun t => t ++ [(-1, Z.of_nat j)]) (all_traces (S i) j)
            ++ map (fun t => t ++ [(Z.of_nat i, -1)]) (all_traces i (S j))).
    rewrite !map_app.
    pose proof (best_score_snoc _ _ _ _ _ (Z.of_nat i, Z.of_nat j) d Hd) as Ed.
    pose proof (best_score_snoc _ _ _ _ _ (-1, Z.of_nat j) l Hl) as El.
    pose proof (best_score_snoc _ _ _ _ _ (Z.of_nat i, -1) t Ht) as Et.
    rewrite row_score_pair in Ed. rewrite row_score_gap1 in El.
    rewrite row_score_gap2 in Et.
    apply list_max_app; [exact Ed|]. apply list_max_app; assumption.
Qed.

Section needleman_wunsch.
Context (code1 code2 : list nat) (matrix : table) (g B : Z).

Local Abbreviation n := (length code1).
Local Abbreviation m := (length code2).
Local Abbreviation S := (tget (general_tables code1 code2 matrix g true false).2).

Hypothesis Hsize : (Z.of_nat (n + m) + 1) * B < 2147483648.
Hypothesis HB : forall i j, (i < n)%nat -> (j < m)%nat ->
  - B <= tget matrix (cget code1 i) (cget code2 j) <= B.
Hypothesis HgB : - B <= g <= B.

Lemma nw_size (k : nat) :
  (k <= n + m)%nat -> 0 <= Z.of_nat k * B /\ Z.of_nat k * B + B < 2147483648.
Proof using All.
  intros Hk. assert (0 <= B) by lia.
  assert (Z.of_nat k * B <= Z.of_nat (n + m) * B)
    by (apply Z.mul_le_mono_nonneg_r; lia).
  split; [apply Z.mul_nonneg_nonneg; lia | lia].
Qed.

Lemma nw_gap_multiple (k : nat) :
  - (Z.of_nat k * B) <= Z.of_nat k * g <= Z.of_nat k * B.
Proof using All.
  assert (0 <= Z.of_nat k) by lia.
  assert (Z.of_nat k * (- B) <= Z.of_nat k * g)
    by (apply Z.mul_le_mono_nonneg_l; lia).
  assert (Z.of_nat k * g <= Z.of_nat k * B)
    by (apply Z.mul_le_mono_nonneg_l; lia).
  lia.
Qed.

(** The border of the score table holds multiples of the penalty. *)
Lemma nw_border i j :
  (i <= n)%nat -> (j <= m)%nat -> (i = 0 \/ j = 0)%nat ->
  S i j = Z.of_nat (i + j) * g.
Proof using All.
  intros Hi Hj Hb.
  destruct (general_tables_cells code1 code2 matrix g true false)
    as (_ & _ & _ & Hborder).
  destruct (Hborder i j Hb) as [_ ->]. rewrite init_general_score.
  pose proof (nw_size (i + j) ltac:(lia)) as Hsz.
  pose proof (nw_gap_multiple (i + j)) as Hg.
  assert (Hw : wrap32 (Z.of_nat (i + j) * g) = Z.of_nat (i + j) * g).
  { apply wrap32_id. unfold INT32_MIN, INT32_MAX. lia. }
  simpl. destruct Hb as [-> | ->].
  - rewrite decide_True by lia. rewrite <- Hw. reflexivity.
  - destruct (decide _) as [?|?].
    + assert (i = 0%nat) as -> by lia. reflexivity.
    + rewrite decide_True by lia. rewrite <- Hw. f_equal. f_equal. lia.
Qed.

(** What the fill stores in an interior cell. *)
Lemma nw_interior i j :
  (1 <= i <= n)%nat -> (1 <= j <= m)%nat ->
  S i j
  = (find_maximum
       (add32 (S (i - 1) (j - 1))
          (tget matrix (cget code1 (i - 1)) (cget code2 (j - 1))))
       (add32 (S i (j - 1)) g) (add32 (S (i - 1) j) g)).2.
Proof using All.
  intros Hi Hj.
  destruct (general_tables_cells code1 code2 matrix g true false)
    as (_ & _ & Hcell & _).
  specialize (Hcell i j ltac:(lia) ltac:(lia)).
  apply cell_filled_score in Hcell. rewrite Hcell. rewrite clamp_global.
  unfold selected. rewrite !Nat.add_sub. reflexivity.
Qed.

(** Whether the fill meets the tie branch at cell [(i, j)]. *)
Definition nw_tie (i j : nat) : Prop :=
  add32 (S (i - 1) (j - 1)) (tget matrix (cget code1 (i - 1)) (cget code2 (j - 1)))
  < add32 (S i (j - 1)) g
  /\ add32 (S i (j - 1)) g = add32 (S (i - 1) j) g.

(** Every cell of the score table holds at most the best score over all
    alignments of the two prefixes it stands for, and exactly the best
    score when no cell up to it met the tie branch. *)
Lemma nw_cell (k i j : nat) :
  (i + j < k)%nat -> (i <= n)%nat -> (j <= m)%nat ->
  exists b, best_score code1 code2 matrix g i j = Some b
    /\ S i j <= b
    /\ - (Z.of_nat (i + j) * B) <= S i j <= Z.of_nat (i + j) * B
    /\ ((forall i' j', (1 <= i' <= i)%nat -> (1 <= j' <= j)%nat -> ~ nw_tie i' j') ->
        S i j = b).
Proof using All.
  revert i j. induction k as [|k IH]; intros i j Hk Hi Hj; [lia|].
  destruct (decide (i = 0 \/ j = 0)%nat) as [Hb|Hb].
  - exists (S i j). rewrite (nw_border i j Hi Hj Hb).
    split; [|split; [lia | split; [apply nw_gap_multiple | reflexivity]]].
    destruct i as [|i]; [destruct j as [|j]|].
    + reflexivity.
    + destruct (IH 0%nat j ltac:(lia) ltac:(lia) ltac:(lia))
        as (b & Hbest & _ & _ & Heq).
      rewrite <- Heq in Hbest by (intros; lia).
      rewrite (nw_border 0 j ltac:(lia) ltac:(lia) ltac:(lia)) in Hbest.
      destruct (best_score_rec code1 code2 matrix g 0 j) as (_ & H & _).
      rewrite (H _ Hbest). f_equal. simpl (0 + _)%nat.
      rewrite Nat2Z.inj_succ. ring.
    + assert (j = 0%nat) as -> by lia.
      destruct (IH i 0%nat ltac:(lia) ltac:(lia) ltac:(lia))
        as (b & Hbest & _ & _ & Heq).
      rewrite <- Heq in Hbest by (intros; lia).
      rewrite (nw_border i 0 ltac:(lia) ltac:(lia) ltac:(lia)) in Hbest.
      destruct (best_score_rec code1 code2 matrix g i 0) as (_ & _ & H & _).
      rewrite (H _ Hbest). f_equal. rewrite !Nat.add_0_r.
      rewrite Nat2Z.inj_succ. ring.
  - destruct i as [|i]; [lia|]. destruct j as [|j]; [lia|].
    destruct (IH i j ltac:(lia) ltac:(lia) ltac:(lia))
      as (bd & Hd & Ld & Bd & Ed).
    destruct (IH (Datatypes.S i) j ltac:(lia) ltac:(lia) ltac:(lia))
      as (bl & Hl & Ll & Bl & El).
    destruct (IH i (Datatypes.S j) ltac:(lia) ltac:(lia) ltac:(lia))
      as (bt & Ht & Lt & Bt & Et).
    destruct (best_score_rec code1 code2 matrix g i j) as (_ & _ & _ & H).
    rewrite (H _ _ _ Hd Hl Ht). eexists. split; [reflexivity|].
    assert (Htie : (forall i' j', (1 <= i' <= Datatypes.S i)%nat ->
                      (1 <= j' <= Datatypes.S j)%nat -> ~ nw_tie i' j') ->
                   S i j = bd /\ S (Datatypes.S i) j = bl
                   /\ S i (Datatypes.S j) = bt
                   /\ ~ nw_tie (Datatypes.S i) (Datatypes.S j)).
    { intros Hfree. repeat split.
      - apply Ed. intros. apply Hfree; lia.
      - apply El. intros. apply Hfree; lia.
      - apply Et. intros. apply Hfree; lia.
      - apply Hfree; lia. }
    unfold nw_tie in Htie.
    rewrite (nw_interior (Datatypes.S i) (Datatypes.S j)) by lia.
    simpl (Datatypes.S _ - 1)%nat in *. rewrite !Nat.sub_0_r in *.
    pose proof (HB i j ltac:(lia) ltac:(lia)) as Hs.
    pose proof (nw_size (Datatypes.S i + Datatypes.S j) ltac:(lia)) as Hsz.
    assert (Kd : Z.of_nat (i + j) * B
                 = Z.of_nat (Datatypes.S i + Datatypes.S j) * B - 2 * B).
    { replace (Z.of_nat (i + j))
        with (Z.of_nat (Datatypes.S i + Datatypes.S j) - 2) by lia. ring. }
    assert (Kl : Z.of_nat (Datatypes.S i + j) * B
                 = Z.of_nat (Datatypes.S i + Datatypes.S j) * B - B).
    { replace (Z.of_nat (Datatypes.S i + j))
        with (Z.of_nat (Datatypes.S i + Datatypes.S j) - 1) by lia. ring. }
    assert (Kt : Z.of_nat (i + Datatypes.S j) * B
                 = Z.of_nat (Datatypes.S i + Datatypes.S j) * B - B).
    { replace (Z.of_nat (i + Datatypes.S j))
        with (Z.of_nat (Datatypes.S i + Datatypes.S j) - 1) by lia. ring. }
    rewrite Kd in Bd. rewrite Kl in Bl. rewrite Kt in Bt.
    clear Kd Kl Kt HB Hsize Hd Hl Ht H IH Ed El Et.
    set (K := Z.of_nat (Datatypes.S i + Datatypes.S j) * B) in *. clearbody K.
    set (s := tget matrix (cget code1 i) (cget code2 j)) in *. clearbody s.
    set (Sd := S i j) in *. clearbody Sd.
    set (Sl := S (Datatypes.S i) j) in *. clearbody Sl.
    set (St := S i (Datatypes.S j)) in *. clearbody St.
    rewrite !add32_exact in * by (unfold INT32_MIN, INT32_MAX; lia).
    pose proof (find_maximum_le (Sd + s) (Sl + g) (St + g)) as Hle.
    pose proof (find_maximum_max (Sd + s) (Sl + g) (St + g)) as Hmax.
    assert (Hlow : Z.min (Sd + s) (Z.min (Sl + g) (St + g))
                   <= (find_maximum (Sd + s) (Sl + g) (St + g)).2).
    { unfold find_maximum.
      repeat (destruct (_ >? _) || destruct (_ =? _)); simpl; lia. }
    split; [lia | split; [lia|]].
    intros Hfree. destruct (Htie Hfree) as (-> & -> & -> & Hno).
    rewrite Hmax by exact Hno. reflexivity.
Qed.
End needleman_wunsch.

(** The substitution scores the two sequences use lie within [B]. *)
Definition used_scores_bounded (code1 code2 : list nat) (matrix : table)
    (B : Z) : bool :=
  forallb (fun i =>
    forallb (fun j =>
               (- B <=? tget matrix (cget code1 i) (cget code2 j))
               && (tget matrix (cget code1 i) (cget code2 j) <=? B))
            (seq 0 (length code2)))
    (seq 0 (length code1)).

Lemma used_scores_bounded_spec code1 code2 matrix B :
  used_scores_bounded code1 code2 matrix B = true ->
  forall i j, (i < length code1)%nat -> (j < length code2)%nat ->
    - B <= tget matrix (cget code1 i) (cget code2 j) <= B.
Proof.
  unfold used_scores_bounded. rewrite forallb_forall. intros H i j Hi Hj.
  specialize (H i ltac:(apply in_seq; lia)). rewrite forallb_forall in H.
  specialize (H j ltac:(apply in_seq; lia)).
  apply andb_true_iff in H as [H1 H2]. lia.
Qed.

Lemma tie_free_general_spec code1 code2 matrix g i j :
  tie_free_general code1 code2 matrix g true false = true ->
  (1 <= i <= length code1)%nat -> (1 <= j <= length code2)%nat ->
  ~ nw_tie code1 code2 matrix g i j.
Proof.
  intros Htg Hi Hj [H1 H2].
  unfold tie_free_general in Htg. rewrite forallb_forall in Htg.
  specialize (Htg (i, j) ltac:(apply list_elem_of_In, elem_of_cells; lia)).
  cbn [fst snd] in Htg. unfold from_diag, from_left, from_top in Htg.
  cbn [negb andb] in Htg.
  rewrite (proj2 (Z.ltb_lt _ _) H1), (proj2 (Z.eqb_eq _ _) H2) in Htg.
  discriminate Htg.
Qed.

(** X10: for a global alignment with a general gap penalty and penalised
    terminal gaps, when the scores and the penalty are small enough for no
    addition to wrap, the score [align_optimal] reports is never above the
    best score any alignment of the two sequences attains when re-scored
    row by row; and when no cell of the fill meets the tie branch, it is
    that best score: the result is optimal, as the docstring promises. *)
Theorem reported_score_optimal seq1 seq2 matrix g B log :
  covered1 matrix seq1 = true -> covered2 matrix seq2 = true ->
  - B <= g <= B ->
  used_scores_bounded (code seq1) (code seq2) (score_matrix matrix) B = true ->
  (Z.of_nat (length (code seq1) + length (code seq2)) + 1) * B < 2147483648 ->
  exists log' alignments best,
    align_optimal seq1 seq2 matrix (PyInt g) true false log
    = (log', Ok alignments)
    /\ alignments <> []
    /\ spec_best_score (code seq1) (code seq2) (score_matrix matrix) g = Some best
    /\ Forall (fun a => score a <= best) alignments
    /\ (tie_free_general (code seq1) (code seq2) (score_matrix matrix) g
          true false = true ->
        Forall (fun a => score a = best) alignments).
Proof.
  intros H1 H2 HgB HB Hsize.
  assert (Hfit : fits_int32 g = true).
  { unfold fits_int32, INT32_MIN, INT32_MAX.
    apply andb_true_iff. split; apply Z.leb_le; nia. }
  destruct (align_optimal_general_scores seq1 seq2 matrix g true false log
              H1 H2 Hfit) as (log' & alignments & Heq & Hne & Hall).
  destruct (nw_cell (code seq1) (code seq2) (score_matrix matrix) g B Hsize
              (used_scores_bounded_spec _ _ _ _ HB) HgB
              (length (code seq1) + length (code seq2) + 1)
              (length (code seq1)) (length (code seq2))
              ltac:(lia) ltac:(lia) ltac:(lia))
    as (best & Hbest & Hle & _ & Hfree).
  assert (Hopt : optimal_score_general (code seq1) (code seq2)
                   (score_matrix matrix) g true false
                 = tget (general_tables (code seq1) (code seq2)
                           (score_matrix matrix) g true false).2
                     (length (code seq1)) (length (code seq2))).
  { destruct (general_tables_cells (code seq1) (code seq2)
                (score_matrix matrix) g true false) as (_ & RS & _).
    unfold optimal_score_general, starts_general. cbn [snd].
    rewrite (shape0_rect _ _ _ RS), (shape1_rect _ _ _ RS ltac:(lia)).
    rewrite !Nat.add_sub. reflexivity. }
  exists log', alignments, best.
  split; [exact Heq | split; [exact Hne | split; [exact Hbest | split]]].
  - eapply Forall_impl; [exact Hall|]. simpl. intros a ->.
    rewrite Hopt. exact Hle.
  - intros Htg. eapply Forall_impl; [exact Hall|]. simpl. intros a ->.
    rewrite Hopt. apply Hfree. intros i' j' Hi' Hj'.
    apply tie_free_general_spec; [exact Htg | lia | lia].
Qed.

(** The sequences of the docstring, with penalty -7. *)
Lemma reported_score_optimal_witness :
  exists log' alignments best,
    align_optimal ATACGCTTGCT AGGCGCAGCT (match_matrix 5 (-4)) (PyInt (-7))
      true false [] = (log', Ok alignments)
    /\ alignments <> []
    /\ spec_best_score (code ATACGCTTGCT) (code AGGCGCAGCT)
         (score_matrix (match_matrix 5 (-4))) (-7) = Some best
    /\ Forall (fun a => score a <= best) alignments
    /\ (tie_free_general (code ATACGCTTGCT) (code AGGCGCAGCT)
          (score_matrix (match_matrix 5 (-4))) (-7) true false = true ->
        Forall (fun a => score a = best) alignments).
Proof.
  apply (reported_score_optimal ATACGCTTGCT AGGCGCAGCT (match_matrix 5 (-4))
           (-7) 7 []);
    solve [vm_compute; reflexivity | lia | vm_compute; congruence].
Defined.

(** ** The traces the traceback returns follow the trace bits *)

(** The rows a walk of the traceback writes from cell [(i, j)] in state
    [s] until its loop ends: at every cell where the loop goes on, the row
    of the cell is written and the walk moves on to one of the next steps
    the trace value of the cell offers. *)
Inductive path (tt : table) : nat -> nat -> Z -> list (Z * Z) -> Prop :=
| path_end i j s :
    loop_ends s (tget tt i j) = true -> path tt i j s []
| path_step i j s i' j' s' ext :
    loop_ends s (tget tt i j) = false ->
    (Z.of_nat i', Z.of_nat j', s')
      ∈ next_steps s (tget tt i j) (Z.of_nat i) (Z.of_nat j) ->
    path tt i' j' s' ext ->
    path tt i j s ((Z.of_nat i - 1, Z.of_nat j - 1) :: ext).

(** Every trace [_follow_trace] appends continues the rows written so far
    by such a path. *)
Lemma follow_trace_path general r c tt (Hok : table_ok general r c tt) :
  forall fuel (i j : nat) rows k state,
    in_mode general state -> (i < r)%nat -> (j < c)%nat ->
    written rows ->
    (forall rl, last rows = Some rl -> move (Z.of_nat i - 1, Z.of_nat j - 1) rl) ->
    (i + j < fuel)%nat -> (i + j <= k)%nat ->
    exists traces,
      _follow_trace fuel tt (Z.of_nat i) (Z.of_nat j) (length rows)
        (padded rows k) state = Ok traces
      /\ traces <> []
      /\ Forall (fun t => written t
                          /\ exists ext, t = rows ++ ext /\ path tt i j state ext)
           traces.
Proof.
  pose proof Hok as (Hrect & _).
  induction fuel as [|fuel IH]; intros i j rows k state Hmode Hi Hj Hw Hlink Hfuel Hk;
    [lia|].
  simpl. rewrite (mv_get_inside r c) by assumption.
  unfold mbind at 1, result_bind at 1. simpl.
  destruct (loop_ends state (tget tt i j)) eqn:Hloop.
  - exists [rows]. rewrite trim_padded by (apply written_rows_ok; exact Hw).
    split; [reflexivity | split; [discriminate|]].
    constructor; [|constructor]. split; [exact Hw|].
    exists []. rewrite app_nil_r. split; [reflexivity|].
    apply path_end. exact Hloop.
  - destruct (next_steps_inside general r c tt i j state Hok Hmode Hi Hj Hloop)
      as (Hcell & Hnext).
    destruct k as [|k]; [lia|].
    rewrite write_row_padded. unfold mbind at 1, result_bind at 1. simpl.
    set (row := (Z.of_nat i - 1, Z.of_nat j - 1)).
    set (P := fun traces : list (list (Z * Z)) =>
                traces <> []
                /\ Forall (fun t => written t
                                    /\ exists ext, t = rows ++ ext
                                                   /\ path tt i j state ext)
                     traces).
    assert (Hw' : written (rows ++ [row])).
    { apply written_snoc; auto. subst row. unfold row_ok. simpl. lia. }
    assert (Hcall : forall step,
              step ∈ next_steps state (tget tt i j) (Z.of_nat i) (Z.of_nat j) ->
              exists traces,
                (let '(new_i, new_j, new_state) := step in
                 _follow_trace fuel tt new_i new_j (S (length rows))
                   (padded (rows ++ [row]) k) new_state) = Ok traces
                /\ P traces).
    { intros [[i' j'] s'] Hin.
      destruct (Hnext i' j' s' Hin) as (a & b & -> & -> & Ha & Hb & Hlt & Hm & Hmv).
      replace (S (length rows)) with (length (rows ++ [row]))
        by (rewrite length_app; simpl; lia).
      destruct (IH a b (rows ++ [row]) k s') as (traces & Heq & Hne & Hall);
        auto; try lia.
      { intros rl Hrl. rewrite last_snoc in Hrl. injection Hrl as <-. exact Hmv. }
      exists traces. split; [exact Heq|]. split; [exact Hne|].
      eapply Forall_impl; [exact Hall|]. simpl.
      intros t (Ht & ext & -> & Hpath). split; [exact Ht|].
      exists (row :: ext). rewrite <- app_assoc. split; [reflexivity|].
      subst row. eapply path_step; eauto. }
    pose proof (next_steps_nonempty general state (tget tt i j) (Z.of_nat i)
                  (Z.of_nat j) Hmode) as Hne.
    destruct Hok as (_ & _ & _ & Hcells).
    specialize (Hne (proj1 (Hcells i j Hi Hj)) Hloop).
    destruct (next_steps state (tget tt i j) (Z.of_nat i) (Z.of_nat j))
      as [|first others]; [congruence|].
    destruct (rmap_Forall
                (fun '(new_i, new_j, new_state) =>
                   _follow_trace fuel tt new_i new_j (S (length rows))
                     (padded (rows ++ [row]) k) new_state)
                P others)
      as (split & Hsplit & Hall & _).
    { intros step Hstep. apply Hcall. right. exact Hstep. }
    rewrite Hsplit. unfold mbind at 1, result_bind at 1. simpl.
    destruct (Hcall first) as (own & Hown & Hown1 & Hown2); [left|].
    destruct first as [[i' j'] s']. rewrite Hown.
    unfold mbind, result_bind. simpl.
    exists (concat split ++ own). split; [reflexivity|]. split.
    + destruct own; [congruence|]. intros E. apply app_eq_nil in E as [_ E].
      discriminate.
    + apply Forall_app. split; [|exact Hown2].
      apply Forall_concat. eapply Forall_impl; [exact Hall|].
      simpl. intros ? [_ ?]. assumption.
Qed.

(** The same for all the starts of one call of [align_optimal]. *)
Lemma traceback_paths general r c seq1 seq2 tt starts max_score :
  table_ok general r c tt -> Forall (start_ok general r c) starts ->
  exists alignments,
    traceback seq1 seq2 tt starts max_score = Ok alignments
    /\ Forall (fun a =>
                 score a = max_score /\ sequences a = (seq1, seq2)
                 /\ exists s t, s ∈ starts /\ written t
                                /\ path tt s.1.1 s.1.2 s.2 t
                                /\ trace a = replace_gaps t) alignments.
Proof.
  intros Hok Hstarts. unfold traceback, follow_all.
  destruct (rmap_Forall (follow_start tt)
              (Forall (fun t => exists s, s ∈ starts /\ written t
                                          /\ path tt s.1.1 s.1.2 s.2 t)) starts)
    as (traces & Hrun & Hall & _).
  { intros [[i j] s] Hin. rewrite Forall_forall in Hstarts. unfold follow_start.
    destruct (Hstarts _ Hin) as (Hi & Hj & Hm). simpl in Hi, Hj, Hm.
    destruct (follow_trace_path general r c tt Hok (i + j + 1) i j []
                (i + 1 + j + 1) s) as (ts & Heq & _ & Hts); auto; try lia.
    - constructor.
    - intros rl Hrl. discriminate.
    - exists ts. split; [exact Heq|].
      eapply Forall_impl; [exact Hts|]. simpl.
      intros t (Hw & ext & -> & Hp). exists (i, j, s). auto. }
  rewrite Hrun. unfold mbind, result_bind. simpl. eexists. split; [reflexivity|].
  apply Forall_fmap. apply Forall_concat in Hall.
  eapply Forall_impl; [exact Hall|]. simpl.
  intros t (s & Hs & Hw & Hp). repeat split. exists s, t. auto.
Qed.

(** What [align_optimal] returns for a general gap penalty: every
    alignment carries the optimal score and the gap-replaced rows of a
    path from one of the start cells. *)
Lemma align_optimal_general_paths seq1 seq2 matrix g tp local log :
  covered1 matrix seq1 = true -> covered2 matrix seq2 = true ->
  fits_int32 g = true ->
  let tables := general_tables (code seq1) (code seq2) (score_matrix matrix)
                  g tp local in
  exists log' alignments,
    align_optimal seq1 seq2 matrix (PyInt g) tp local log = (log', Ok alignments)
    /\ Forall (fun a =>
                 score a = optimal_score_general (code seq1) (code seq2)
                             (score_matrix matrix) g tp local
                 /\ sequences a = (seq1, seq2)
                 /\ exists s t, s ∈ (starts_general tables.2 local).1
                                /\ written t
                                /\ path tables.1 s.1.1 s.1.2 s.2 t
                                /\ trace a = replace_gaps t) alignments.
Proof.
  intros H1 H2 Hg tables. rewrite align_optimal_general by assumption.
  unfold optimal_score_general. fold tables.
  pose proof (general_trace_ok (code seq1) (code seq2) (score_matrix matrix)
                g tp local) as Hok.
  destruct (general_tables_cells (code seq1) (code seq2) (score_matrix matrix)
              g tp local) as (_ & Hrect & _).
  fold tables in Hok, Hrect.
  destruct tables as [tt st]. simpl in Hok, Hrect.
  pose proof (starts_general_ok _ _ st local Hrect ltac:(lia) ltac:(lia)) as Hst.
  cbn [fst snd]. destruct (starts_general st local) as [starts mx].
  simpl in Hst. cbn [fst snd].
  destruct (traceback_paths true _ _ seq1 seq2 tt starts mx Hok Hst)
    as (alignments & Heq & Hall).
  rewrite Heq. eauto.
Qed.

(** ** Global alignments cover both sequences *)

(** In a global alignment with a general gap penalty the only cell with
    an empty trace value is the corner. *)
Lemma general_global_trace_nonzero code1 code2 matrix g tp i j :
  (i <= length code1)%nat -> (j <= length code2)%nat ->
  tget (general_tables code1 code2 matrix g tp false).1 i j = 0 ->
  i = 0%nat /\ j = 0%nat.
Proof.
  intros Hi Hj H0.
  destruct (general_tables_cells code1 code2 matrix g tp false)
    as (_ & _ & Hcell & Hborder).
  destruct (decide (i = 0 \/ j = 0)%nat) as [Hb|Hb].
  - destruct (Hborder i j Hb) as [E _]. rewrite E, init_general_trace in H0.
    repeat (destruct (decide _) as [?|?]; try discriminate H0); lia.
  - exfalso. specialize (Hcell i j ltac:(lia) ltac:(lia)).
    unfold cell_filled, selected in Hcell.
    match type of Hcell with context [find_maximum ?d ?l ?t] =>
      pose proof (find_maximum_trace d l t) as Htr;
      destruct (find_maximum d l t) as [trace score] end.
    simpl in Hcell, Htr. destruct Hcell as [_ E]. rewrite E in H0. subst trace.
    intuition discriminate.
Qed.

(** The last entry of a column that starts after [p]. *)
Definition last_entry (p : Z) (l : list Z) : Z := default p (last l).

Lemma last_entry_cons p x l : last_entry p (x :: l) = last_entry x l.
Proof.
  unfold last_entry. destruct l as [|y l]; [reflexivity|].
  rewrite last_cons_cons. simpl.
  destruct (last (y :: l)) eqn:E; [reflexivity|].
  apply last_None in E. discriminate.
Qed.

Lemma slow_last p l : slow p l -> p <= last_entry p l.
Proof.
  revert p. induction l as [|x l IH]; intros p H; [unfold last_entry; simpl; lia|].
  destruct H as [Hx H]. rewrite last_entry_cons. specialize (IH x H). lia.
Qed.

(** The indices the gap replacement keeps in a column of a path are all
    the integers from the first to the last. *)
Lemma mark_range l : forall p,
  -1 <= p -> slow p l ->
  non_gaps (mark (Some p) l) = seqZ (p + 1) (last_entry p l - p).
Proof.
  induction l as [|x l IH]; intros p Hp Hslow.
  - unfold last_entry. simpl. rewrite Z.sub_diag. reflexivity.
  - destruct Hslow as [Hx Hslow]. simpl. unfold non_gaps.
    rewrite last_entry_cons. pose proof (slow_last x l Hslow) as Hlast.
    destruct Hx as [->| ->].
    + rewrite decide_True by reflexivity.
      rewrite filter_cons_False by (intros H; apply H; reflexivity).
      apply IH; assumption.
    + rewrite decide_False by (intros [= ?]; lia).
      rewrite filter_cons_True by lia.
      fold (non_gaps (mark (Some (p + 1)) l)).
      rewrite (IH (p + 1) ltac:(lia) Hslow).
      rewrite (seqZ_cons (p + 1)) by lia. f_equal. f_equal; lia.
Qed.

(** The same for a whole column whose first entry is a gap or index 0. *)
Lemma mark_column_range x l :
  x = -1 \/ x = 0 -> slow x l ->
  non_gaps (mark_column (x :: l)) = seqZ 0 (last_entry x l + 1).
Proof.
  intros Hx Hslow. rewrite mark_column_slow by exact Hslow. simpl.
  unfold non_gaps. pose proof (slow_last x l Hslow) as Hlast.
  destruct Hx as [->| ->].
  - rewrite filter_cons_False by (intros H; apply H; reflexivity).
    fold (non_gaps (mark (Some (-1)) l)).
    rewrite mark_range by (lia || assumption). f_equal; lia.
  - rewrite filter_cons_True by lia.
    fold (non_gaps (mark (Some 0) l)).
    rewrite mark_range by (lia || assumption).
    rewrite (seqZ_cons 0) by lia. f_equal; f_equal; lia.
Qed.

Lemma last_entry_last x l : last (x :: l) = Some (last_entry x l).
Proof.
  revert x. induction l as [|y l IH]; intros x; [reflexivity|].
  rewrite last_cons_cons, last_entry_cons. apply IH.
Qed.

(** A path of a global traceback with a general gap penalty ends in the
    corner: its rows start with the row of the cell it starts from and end
    with the row of a neighbour of the corner. *)
Lemma global_path_ends code1 code2 matrix g tp i j s ext :
  path (general_tables code1 code2 matrix g tp false).1 i j s ext ->
  s = 0 -> (i <= length code1)%nat -> (j <= length code2)%nat ->
  match ext with
  | [] => i = 0%nat /\ j = 0%nat
  | r :: _ =>
    r = (Z.of_nat i - 1, Z.of_nat j - 1)
    /\ exists rl, last ext = Some rl
                  /\ (rl = (0, 0) \/ rl = (-1, 0) \/ rl = (0, -1))
  end.
Proof.
  induction 1 as [i j s Hend|i j s i' j' s' ext Hloop Hin Hpath IH];
    intros -> Hi Hj.
  - rewrite loop_ends_general in Hend. apply Z.eqb_eq in Hend.
    exact (general_global_trace_nonzero _ _ _ _ _ _ _ Hi Hj Hend).
  - split; [reflexivity|].
    destruct (elem_of_next_steps _ _ _ _ _ _ _ Hin) as [Hdir Hs'].
    simpl in Hs'. specialize (IH Hs' ltac:(lia) ltac:(lia)).
    destruct ext as [|r ext].
    + destruct IH as [-> ->]. eexists. split; [reflexivity|].
      simpl in Hdir.
      destruct Hdir as [[? ?]|[[? ?]|[? ?]]];
        [left | right; left | right; right]; f_equal; lia.
    + destruct IH as (_ & rl & Hlast & Hrl). exists rl.
      rewrite last_cons_cons. auto.
Qed.

(** The first column of the gap-replaced trace of such a path holds every
    index of the first sequence up to the start row, once each and in
    order; the same for the second column. *)
Lemma covered_columns ext a b rl :
  written ext -> head ext = Some (a, b) -> last ext = Some rl ->
  rl = (0, 0) \/ rl = (-1, 0) \/ rl = (0, -1) ->
  non_gaps ((replace_gaps ext).*1) = seqZ 0 (a + 1)
  /\ non_gaps ((replace_gaps ext).*2) = seqZ 0 (b + 1).
Proof.
  intros Hw Hhead Hlast Hrl. rewrite replace_gaps_columns.
  apply written_forward in Hw.
  rewrite <- head_reverse in Hlast. rewrite <- last_reverse in Hhead.
  destruct (reverse ext) as [|r l]; [discriminate|].
  simpl in Hlast. injection Hlast as ->.
  destruct Hw as [_ Hc]. destruct (chain_slow l rl Hc) as [S1 S2].
  rewrite !fmap_cons.
  rewrite fst_zip, snd_zip
    by (unfold mark_column; rewrite !length_imap; simpl; rewrite !length_fmap; lia).
  assert (E1 : last_entry rl.1 (l.*1) = a).
  { pose proof (last_entry_last rl.1 (l.*1)) as E.
    rewrite <- fmap_cons, fmap_last, Hhead in E. simpl in E. congruence. }
  assert (E2 : last_entry rl.2 (l.*2) = b).
  { pose proof (last_entry_last rl.2 (l.*2)) as E.
    rewrite <- fmap_cons, fmap_last, Hhead in E. simpl in E. congruence. }
  rewrite !mark_column_range, E1, E2; auto.
  - destruct Hrl as [->|[->| ->]]; simpl; auto.
  - destruct Hrl as [->|[->| ->]]; simpl; auto.
Qed.

Lemma length_non_gaps (t : list (Z * Z)) :
  Forall (fun row => row.1 <> -1 \/ row.2 <> -1) t ->
  (length t <= length (non_gaps (t.*1)) + length (non_gaps (t.*2)))%nat.
Proof.
  unfold non_gaps. induction 1 as [|row t Hrow _ IH]; [simpl; lia|].
  rewrite !fmap_cons.
  destruct (decide (row.1 <> -1)) as [H1|H1];
    destruct (decide (row.2 <> -1)) as [H2|H2];
    [| | |exfalso; tauto];
    rewrite ?(filter_cons_True _ (row.1)) by exact H1;
    rewrite ?(filter_cons_False _ (row.1)) by exact H1;
    rewrite ?(filter_cons_True _ (row.2)) by exact H2;
    rewrite ?(filter_cons_False _ (row.2)) by exact H2;
    cbn [length]; lia.
Qed.

(** X11: in a global alignment with a general gap penalty every returned
    trace covers both sequences completely: the entries of its first
    column that are not gaps are exactly the indices 0 .. len(seq1) - 1 in
    order, those of its second column the indices 0 .. len(seq2) - 1, and
    its length lies between the length of the longer sequence and the sum
    of the two lengths. *)
Theorem global_traces_cover seq1 seq2 matrix g tp log log' alignments :
  align_optimal seq1 seq2 matrix (PyInt g) tp false log = (log', Ok alignments) ->
  Forall (fun a =>
            non_gaps ((trace a).*1) = seqZ 0 (Z.of_nat (length (code seq1)))
            /\ non_gaps ((trace a).*2) = seqZ 0 (Z.of_nat (length (code seq2)))
            /\ (length (code seq1) `max` length (code seq2)
                <= length (trace a)
                <= length (code seq1) + length (code seq2))%nat) alignments.
Proof.
  intros Heq.
  destruct (align_optimal_ok_inv _ _ _ _ _ _ _ _ _ Heq) as (H1 & H2 & Hacc).
  simpl in Hacc.
  destruct (align_optimal_general_paths seq1 seq2 matrix g tp false log
              H1 H2 Hacc) as (log'' & alignments' & Heq' & Hall).
  rewrite Heq in Heq'. injection Heq' as _ <-.
  destruct (general_tables_cells (code seq1) (code seq2) (score_matrix matrix)
              g tp false) as (_ & RS & _).
  eapply Forall_impl; [exact Hall|]. simpl.
  intros a (_ & _ & s & t & Hs & Hw & Hp & Ht).
  unfold starts_general in Hs. simpl in Hs.
  rewrite (shape0_rect _ _ _ RS), (shape1_rect _ _ _ RS ltac:(lia)) in Hs.
  rewrite !Nat.add_sub in Hs. apply list_elem_of_singleton in Hs. subst s.
  simpl in Hp.
  pose proof (global_path_ends _ _ _ _ _ _ _ _ _ Hp eq_refl
                ltac:(lia) ltac:(lia)) as Hends.
  assert (Hcols : non_gaps ((trace a).*1) = seqZ 0 (Z.of_nat (length (code seq1)))
                  /\ non_gaps ((trace a).*2)
                     = seqZ 0 (Z.of_nat (length (code seq2)))).
  { rewrite Ht. destruct t as [|r t].
    - destruct Hends as [-> ->]. split; reflexivity.
    - destruct Hends as (-> & rl & Hlast & Hrl).
      destruct (covered_columns _ _ _ rl Hw eq_refl Hlast Hrl) as [-> ->].
      split; f_equal; lia. }
  destruct Hcols as [C1 C2]. split; [exact C1 | split; [exact C2|]].
  pose proof (replace_gaps_valid t Hw) as (_ & _ & Hrows).
  rewrite <- Ht in Hrows. apply length_non_gaps in Hrows.
  rewrite C1, C2, !length_seqZ, !Nat2Z.id in Hrows.
  pose proof (length_filter (fun x => x <> -1) ((trace a).*1)) as L1.
  pose proof (length_filter (fun x => x <> -1) ((trace a).*2)) as L2.
  fold (non_gaps ((trace a).*1)) in L1. fold (non_gaps ((trace a).*2)) in L2.
  rewrite C1, length_seqZ, Nat2Z.id, length_fmap in L1.
  rewrite C2, length_seqZ, Nat2Z.id, length_fmap in L2.
  lia.
Qed.

Lemma global_traces_cover_witness :
  Forall (fun a =>
            non_gaps ((trace a).*1) = seqZ 0 (Z.of_nat 2)
            /\ non_gaps ((trace a).*2) = seqZ 0 (Z.of_nat 3)
            /\ (2 `max` 3 <= length (trace a) <= 2 + 3)%nat)
    [{| sequences := (nuc [0; 1]%nat, nuc [0; 2; 2]%nat);
        trace := [(0, 0); (1, -1); (-1, 1); (-1, 2)]; score := 4 |}].
Proof.
  apply (global_traces_cover (nuc [0; 1]%nat) (nuc [0; 2; 2]%nat)
           (match_matrix 5 (-4)) (-1) false []
           [(3%nat, 4%nat); (3%nat, 4%nat)]).
  vm_compute. reflexivity.
Defined.

(** ** The reported score is the score of the returned traces *)

(** The gap replacement, row by row: an index that repeats the one of the
    row before becomes a gap. *)
Definition gap_row (prev r : Z * Z) : Z * Z :=
  (if decide (prev.1 = r.1) then -1 else r.1,
   if decide (prev.2 = r.2) then -1 else r.2).

Fixpoint gap_rows (prev : Z * Z) (rows : list (Z * Z)) : list (Z * Z) :=
  match rows with
  | [] => []
  | r :: rows' => gap_row prev r :: gap_rows r rows'
  end.

Lemma gap_rows_marks rows : forall prev,
  gap_rows prev rows
  = zip (mark (Some prev.1) (rows.*1)) (mark (Some prev.2) (rows.*2)).
Proof.
  induction rows as [|r rows IH]; intros prev; [reflexivity|].
  simpl. rewrite IH. unfold gap_row. f_equal. f_equal.
  - destruct (decide (prev.1 = r.1)), (decide (Some prev.1 = Some r.1));
      congruence.
  - destruct (decide (prev.2 = r.2)), (decide (Some prev.2 = Some r.2));
      congruence.
Qed.

Lemma mark_None l : mark None l = mark (Some (-1)) l.
Proof.
  destruct l as [|x l]; [reflexivity|]. simpl. f_equal.
  destruct (decide (Some (-1) = Some x)) as [[= <-]|]; reflexivity.
Qed.

(** On the rows of a path the gap replacement of [align_optimal] is the
    row-by-row replacement, started before the first row. *)
Lemma replace_gaps_rows t :
  written t -> replace_gaps t = gap_rows (-1, -1) (reverse t).
Proof.
  intros Hw. rewrite replace_gaps_columns, gap_rows_marks.
  apply written_forward in Hw. destruct (reverse t) as [|r l]; [reflexivity|].
  destruct Hw as [_ Hc]. destruct (chain_slow l r Hc) as [S1 S2].
  rewrite !fmap_cons, !mark_column_slow, !mark_None by assumption.
  reflexivity.
Qed.

Lemma gap_rows_snoc rows : forall prev r,
  gap_rows prev (rows ++ [r])
  = gap_rows prev rows ++ [gap_row (default prev (last rows)) r].
Proof.
  induction rows as [|x rows IH]; intros prev r; [reflexivity|].
  simpl. rewrite IH. f_equal. f_equal. f_equal.
  destruct rows as [|y rows]; [reflexivity|].
  rewrite last_cons_cons.
  destruct (last (y :: rows)) eqn:E; [reflexivity|].
  apply last_None in E. discriminate.
Qed.

Section rescoring.
Context (code1 code2 : list nat) (matrix : table) (g B : Z).

Local Abbreviation n := (length code1).
Local Abbreviation m := (length code2).
Local Abbreviation T := (tget (general_tables code1 code2 matrix g true false).1).
Local Abbreviation S := (tget (general_tables code1 code2 matrix g true false).2).

Hypothesis Hsize : (Z.of_nat (n + m) + 1) * B < 2147483648.
Hypothesis HB : forall i j, (i < n)%nat -> (j < m)%nat ->
  - B <= tget matrix (cget code1 i) (cget code2 j) <= B.
Hypothesis HgB : - B <= g <= B.
Hypothesis Htg : tie_free_general code1 code2 matrix g true false = true.

Lemma rescoring_bounds i j :
  (i <= n)%nat -> (j <= m)%nat ->
  - (Z.of_nat (i + j) * B) <= S i j <= Z.of_nat (i + j) * B.
Proof using Hsize HB HgB.
  intros Hi Hj.
  destruct (nw_cell code1 code2 matrix g B Hsize HB HgB (i + j + 1) i j
              ltac:(lia) Hi Hj) as (b & _ & _ & Hb & _).
  exact Hb.
Qed.

(** Every step the traceback takes from a cell accounts for the
    difference of the two scores: the substitution score of the cell for a
    diagonal step, the gap penalty for a step to the left or upwards. *)
Lemma step_score i j i' j' s' :
  (i <= n)%nat -> (j <= m)%nat ->
  loop_ends 0 (T i j) = false ->
  (Z.of_nat i', Z.of_nat j', s')
    ∈ next_steps 0 (T i j) (Z.of_nat i) (Z.of_nat j) ->
  S i j
  = S i' j'
    + row_score code1 code2 matrix g
        (gap_row (Z.of_nat i' - 1, Z.of_nat j' - 1)
                 (Z.of_nat i - 1, Z.of_nat j - 1)).
Proof using All.
  intros Hi Hj Hloop Hin.
  destruct (general_tables_cells code1 code2 matrix g true false)
    as (_ & _ & Hcell & Hborder).
  assert (Hgap1 : forall a b : Z, row_score code1 code2 matrix g (-1, b) = g)
    by reflexivity.
  assert (Hgap2 : forall a : Z, row_score code1 code2 matrix g (a, -1) = g).
  { intros a. unfold row_score. simpl. rewrite orb_true_r. reflexivity. }
  destruct (decide (i = 0 \/ j = 0)%nat) as [Hb|Hb].
  - destruct (Hborder i j Hb) as [E _]. rewrite E, init_general_trace in Hin, Hloop.
    cbn [negb] in Hin, Hloop.
    repeat (destruct (decide _) as [?|?] in Hin, Hloop;
            try (discriminate Hloop)).
    + unfold next_steps, bit_set in Hin. simpl in Hin.
      apply list_elem_of_singleton in Hin as [= Hi' Hj' _].
      assert (i = 0%nat) as -> by lia. assert (i' = 0%nat) as -> by lia.
      assert (j' = (j - 1)%nat) as -> by lia.
      rewrite (nw_border code1 code2 matrix g B Hsize HB HgB 0 j)
        by (lia || auto).
      rewrite (nw_border code1 code2 matrix g B Hsize HB HgB 0 (j - 1))
        by (lia || auto).
      unfold gap_row. simpl. rewrite decide_False by lia.
      rewrite Hgap1 by exact 0. simpl (0 + _)%nat.
      rewrite Nat2Z.inj_sub by lia. simpl. ring.
    + unfold next_steps, bit_set in Hin. simpl in Hin.
      apply list_elem_of_singleton in Hin as [= Hi' Hj' _].
      assert (j = 0%nat) as -> by lia. assert (j' = 0%nat) as -> by lia.
      assert (i' = (i - 1)%nat) as -> by lia.
      rewrite (nw_border code1 code2 matrix g B Hsize HB HgB i 0)
        by (lia || auto).
      rewrite (nw_border code1 code2 matrix g B Hsize HB HgB (i - 1) 0)
        by (lia || auto).
      unfold gap_row. simpl. rewrite decide_False by lia.
      rewrite Hgap2. rewrite !Nat.add_0_r.
      rewrite Nat2Z.inj_sub by lia. simpl. ring.
  - assert (Hi1 : (1 <= i <= n)%nat) by lia.
    assert (Hj1 : (1 <= j <= m)%nat) by lia.
    specialize (Hcell i j ltac:(lia) ltac:(lia)).
    unfold cell_filled, selected in Hcell. rewrite !Nat.add_sub in Hcell.
    unfold from_diag, from_left, from_top in Hcell. cbn [negb andb] in Hcell.
    pose proof (tie_free_general_spec code1 code2 matrix g i j Htg Hi1 Hj1)
      as Hfree. unfold nw_tie in Hfree.
    pose proof (rescoring_bounds (i - 1) (j - 1) ltac:(lia) ltac:(lia)) as Bd.
    pose proof (rescoring_bounds i (j - 1) ltac:(lia) ltac:(lia)) as Bl.
    pose proof (rescoring_bounds (i - 1) j ltac:(lia) ltac:(lia)) as Bt.
    pose proof (HB (i - 1) (j - 1) ltac:(lia) ltac:(lia))%nat as Hs.
    pose proof (nw_size code1 code2 matrix g B Hsize HB HgB (i + j) ltac:(lia)) as Hsz.
    assert (Kd : Z.of_nat (i - 1 + (j - 1)) * B = Z.of_nat (i + j) * B - 2 * B).
    { replace (Z.of_nat (i - 1 + (j - 1))) with (Z.of_nat (i + j) - 2) by lia.
      ring. }
    assert (Kl : Z.of_nat (i + (j - 1)) * B = Z.of_nat (i + j) * B - B).
    { replace (Z.of_nat (i + (j - 1))) with (Z.of_nat (i + j) - 1) by lia. ring. }
    assert (Kt : Z.of_nat (i - 1 + j) * B = Z.of_nat (i + j) * B - B).
    { replace (Z.of_nat (i - 1 + j)) with (Z.of_nat (i + j) - 1) by lia. ring. }
    rewrite Kd in Bd. rewrite Kl in Bl. rewrite Kt in Bt.
    set (s := tget matrix (cget code1 (i - 1)) (cget code2 (j - 1))) in *.
    rewrite !add32_exact in Hcell, Hfree
      by (unfold INT32_MIN, INT32_MAX; lia).
    pose proof (find_maximum_flags (S (i - 1) (j - 1) + s) (S i (j - 1) + g)
                  (S (i - 1) j + g)) as (F1 & F2 & F4).
    pose proof (find_maximum_max _ _ _ Hfree) as Hmax.
    destruct (find_maximum _ _ _) as [trace score]. simpl in *.
    destruct Hcell as [HS HT]. rewrite HT in Hin. rewrite HS, Hmax.
    unfold next_steps in Hin. simpl in Hin.
    rewrite !elem_of_app, !elem_of_when in Hin.
    destruct Hin as [[Hbit [= Hi' Hj' _]]|[[Hbit [= Hi' Hj' _]]|[Hbit [= Hi' Hj' _]]]].
    + apply F1 in Hbit. rewrite <- Hbit.
      assert (i' = (i - 1)%nat) as -> by lia.
      assert (j' = (j - 1)%nat) as -> by lia.
      f_equal. unfold gap_row. simpl.
      rewrite !decide_False by lia.
      replace (Z.of_nat i - 1) with (Z.of_nat (i - 1)) by lia.
      replace (Z.of_nat j - 1) with (Z.of_nat (j - 1)) by lia.
      rewrite row_score_pair. reflexivity.
    + apply F2 in Hbit. rewrite <- Hbit.
      assert (i' = i) as -> by lia.
      assert (j' = (j - 1)%nat) as -> by lia.
      f_equal. unfold gap_row. simpl.
      rewrite decide_True by lia. rewrite Hgap1 by exact 0. reflexivity.
    + apply F4 in Hbit. rewrite <- Hbit.
      assert (i' = (i - 1)%nat) as -> by lia.
      assert (j' = j) as -> by lia.
      f_equal. unfold gap_row. simpl.
      rewrite (decide_True (P := Z.of_nat j - 1 = Z.of_nat j - 1)) by lia.
      rewrite Hgap2. reflexivity.
Qed.

(** Along a path the rows, after the gap replacement, add up to the score
    of the cell the path starts from. *)
Lemma path_score i j s ext :
  path (general_tables code1 code2 matrix g true false).1 i j s ext ->
  s = 0 -> (i <= n)%nat -> (j <= m)%nat ->
  spec_trace_score code1 code2 matrix g (gap_rows (-1, -1) (reverse ext))
  = S i j.
Proof using All.
  induction 1 as [i j s Hend|i j s i' j' s' ext Hloop Hin Hpath IH];
    intros -> Hi Hj.
  - rewrite loop_ends_general in Hend. apply Z.eqb_eq in Hend.
    destruct (general_global_trace_nonzero _ _ _ _ _ _ _ Hi Hj Hend) as [-> ->].
    rewrite (nw_border code1 code2 matrix g B Hsize HB HgB 0 0)
      by (lia || auto).
    reflexivity.
  - destruct (elem_of_next_steps _ _ _ _ _ _ _ Hin) as [Hdir Hs'].
    simpl in Hs'. subst s'.
    assert (Hi' : (i' <= n)%nat) by lia. assert (Hj' : (j' <= m)%nat) by lia.
    specialize (IH eq_refl Hi' Hj').
    rewrite reverse_cons, gap_rows_snoc, spec_trace_score_snoc, IH.
    rewrite (step_score i j i' j' 0 Hi Hj Hloop Hin). f_equal. f_equal. f_equal.
    pose proof (global_path_ends _ _ _ _ _ _ _ _ _ Hpath eq_refl Hi' Hj') as He.
    rewrite last_reverse. destruct ext as [|r ext].
    + destruct He as [-> ->]. reflexivity.
    + destruct He as [-> _]. reflexivity.
Qed.
End rescoring.

(** X12: for a global alignment with a general gap penalty and penalised
    terminal gaps, when the scores and the penalty are small enough for no
    addition to wrap and no cell of the fill meets the tie branch, every
    alignment [align_optimal] returns is worth the score reported for it:
    re-scoring its trace row by row (the penalty for a row with a gap, the
    substitution score otherwise) gives that score. *)
Theorem returned_traces_rescore seq1 seq2 matrix g B log :
  covered1 matrix seq1 = true -> covered2 matrix seq2 = true ->
  - B <= g <= B ->
  used_scores_bounded (code seq1) (code seq2) (score_matrix matrix) B = true ->
  (Z.of_nat (length (code seq1) + length (code seq2)) + 1) * B < 2147483648 ->
  tie_free_general (code seq1) (code seq2) (score_matrix matrix) g true false
  = true ->
  exists log' alignments,
    align_optimal seq1 seq2 matrix (PyInt g) true false log
    = (log', Ok alignments)
    /\ alignments <> []
    /\ Forall (fun a =>
                 spec_trace_score (code seq1) (code seq2) (score_matrix matrix)
                   g (trace a) = score a) alignments.
Proof.
  intros H1 H2 HgB HB Hsize Htg.
  assert (Hfit : fits_int32 g = true).
  { unfold fits_int32, INT32_MIN, INT32_MAX.
    apply andb_true_iff. split; apply Z.leb_le; nia. }
  destruct (align_optimal_general_scores seq1 seq2 matrix g true false log
              H1 H2 Hfit) as (log' & alignments & Heq & Hne & _).
  destruct (align_optimal_general_paths seq1 seq2 matrix g true false log
              H1 H2 Hfit) as (log'' & alignments' & Heq' & Hall).
  rewrite Heq in Heq'. injection Heq' as _ <-.
  exists log', alignments. split; [exact Heq | split; [exact Hne|]].
  destruct (general_tables_cells (code seq1) (code seq2) (score_matrix matrix)
              g true false) as (_ & RS & _).
  eapply Forall_impl; [exact Hall|]. simpl.
  intros a (Hscore & _ & s & t & Hs & Hw & Hp & Ht).
  unfold starts_general in Hs. simpl in Hs.
  rewrite (shape0_rect _ _ _ RS), (shape1_rect _ _ _ RS ltac:(lia)) in Hs.
  rewrite !Nat.add_sub in Hs. apply list_elem_of_singleton in Hs. subst s.
  simpl in Hp.
  rewrite Ht, (replace_gaps_rows t Hw).
  rewrite (path_score (code seq1) (code seq2) (score_matrix matrix) g B Hsize
             (used_scores_bounded_spec _ _ _ _ HB) HgB Htg _ _ _ _ Hp eq_refl)
    by lia.
  rewrite Hscore. unfold optimal_score_general, starts_general. cbn [snd].
  rewrite (shape0_rect _ _ _ RS), (shape1_rect _ _ _ RS ltac:(lia)).
  rewrite !Nat.add_sub. reflexivity.
Qed.

(** The sequences of the docstring, with penalty -7. *)
Lemma returned_traces_rescore_witness :
  exists log' alignments,
    align_optimal ATACGCTTGCT AGGCGCAGCT (match_matrix 5 (-4)) (PyInt (-7))
      true false [] = (log', Ok alignments)
    /\ alignments <> []
    /\ Forall (fun a =>
                 spec_trace_score (code ATACGCTTGCT) (code AGGCGCAGCT)
                   (score_matrix (match_matrix 5 (-4))) (-7) (trace a)
                 = score a) alignments.
Proof.
  apply (returned_traces_rescore ATACGCTTGCT AGGCGCAGCT (match_matrix 5 (-4))
           (-7) 7 []);
    solve [vm_compute; reflexivity | lia | vm_compute; congruence].
Defined.

(** ** The traceback returns every path *)

Lemma rmap_Forall2 {A B} (f : A -> result B) (R : A -> B -> Prop) (l : list A) :
  (forall x, x ∈ l -> exists y, f x = Ok y /\ R x y) ->
  exists ys, rmap f l = Ok ys /\ Forall2 R l ys.
Proof.
  induction l as [|x l IH]; intros H; simpl.
  - exists []. split; constructor.
  - destruct (H x) as (y & Hy & HR); [left|].
    destruct IH as (ys & Hys & HRs); [intros; apply H; right; assumption|].
    exists (y :: ys). rewrite Hy. simpl. unfold mbind, result_bind. simpl.
    rewrite Hys. simpl. split; [reflexivity | constructor; assumption].
Qed.

(** Every path from the cell [_follow_trace] is called on is among the
    traces it appends, after the rows written so far. *)
Lemma follow_trace_complete general r c tt (Hok : table_ok general r c tt) :
  forall fuel (i j : nat) rows k state,
    in_mode general state -> (i < r)%nat -> (j < c)%nat ->
    written rows ->
    (forall rl, last rows = Some rl -> move (Z.of_nat i - 1, Z.of_nat j - 1) rl) ->
    (i + j < fuel)%nat -> (i + j <= k)%nat ->
    exists traces,
      _follow_trace fuel tt (Z.of_nat i) (Z.of_nat j) (length rows)
        (padded rows k) state = Ok traces
      /\ forall ext, path tt i j state ext -> rows ++ ext ∈ traces.
Proof.
  pose proof Hok as (Hrect & _).
  induction fuel as [|fuel IH]; intros i j rows k state Hmode Hi Hj Hw Hlink Hfuel Hk;
    [lia|].
  simpl. rewrite (mv_get_inside r c) by assumption.
  unfold mbind at 1, result_bind at 1. simpl.
  destruct (loop_ends state (tget tt i j)) eqn:Hloop.
  - exists [rows]. rewrite trim_padded by (apply written_rows_ok; exact Hw).
    split; [reflexivity|]. intros ext Hp. inversion Hp; subst; [|congruence].
    rewrite app_nil_r. left.
  - destruct (next_steps_inside general r c tt i j state Hok Hmode Hi Hj Hloop)
      as (Hcell & Hnext).
    destruct k as [|k]; [lia|].
    rewrite write_row_padded. unfold mbind at 1, result_bind at 1. simpl.
    set (row := (Z.of_nat i - 1, Z.of_nat j - 1)).
    set (R := fun (step : Z * Z * Z) (traces : list (list (Z * Z))) =>
                forall i' j' s' ext,
                  step = (Z.of_nat i', Z.of_nat j', s') ->
                  path tt i' j' s' ext -> (rows ++ [row]) ++ ext ∈ traces).
    assert (Hw' : written (rows ++ [row])).
    { apply written_snoc; auto. subst row. unfold row_ok. simpl. lia. }
    assert (Hcall : forall step,
              step ∈ next_steps state (tget tt i j) (Z.of_nat i) (Z.of_nat j) ->
              exists traces,
                (let '(new_i, new_j, new_state) := step in
                 _follow_trace fuel tt new_i new_j (S (length rows))
                   (padded (rows ++ [row]) k) new_state) = Ok traces
                /\ R step traces).
    { intros [[i' j'] s'] Hin.
      destruct (Hnext i' j' s' Hin) as (a & b & -> & -> & Ha & Hb & Hlt & Hm & Hmv).
      replace (S (length rows)) with (length (rows ++ [row]))
        by (rewrite length_app; simpl; lia).
      destruct (IH a b (rows ++ [row]) k s') as (traces & Heq & Hall);
        auto; try lia.
      { intros rl Hrl. rewrite last_snoc in Hrl. injection Hrl as <-. exact Hmv. }
      exists traces. split; [exact Heq|].
      intros i'' j'' s'' ext [= Ea Eb <-] Hp.
      apply Nat2Z.inj in Ea, Eb. subst i'' j''. apply Hall. exact Hp. }
    destruct (next_steps state (tget tt i j) (Z.of_nat i) (Z.of_nat j))
      as [|first others] eqn:Hsteps.
    { exists []. split; [|intros ext Hp; inversion Hp; subst; [congruence|]].
      - exfalso.
        pose proof (next_steps_nonempty general state (tget tt i j) (Z.of_nat i)
                      (Z.of_nat j) Hmode) as Hne.
        destruct Hok as (_ & _ & _ & Hcells).
        exact (Hne (proj1 (Hcells i j Hi Hj)) Hloop Hsteps).
      - match goal with H : _ ∈ next_steps _ _ _ _ |- _ =>
          rewrite Hsteps in H; inversion H end. }
    destruct (rmap_Forall2
                (fun '(new_i, new_j, new_state) =>
                   _follow_trace fuel tt new_i new_j (S (length rows))
                     (padded (rows ++ [row]) k) new_state)
                R others)
      as (split & Hsplit & Hall).
    { intros step Hstep. apply Hcall. right. exact Hstep. }
    rewrite Hsplit. unfold mbind at 1, result_bind at 1. simpl.
    destruct (Hcall first) as (own & Hown & Hown1); [left|].
    destruct first as [[i' j'] s']. rewrite Hown.
    unfold mbind, result_bind. simpl.
    exists (concat split ++ own). split; [reflexivity|].
    intros ext Hp. inversion Hp; subst; [congruence|].
    match goal with
    | Hin : (Z.of_nat ?a, Z.of_nat ?b, ?s'') ∈ next_steps _ _ _ _,
      Hp' : path tt ?a ?b ?s'' ?ext' |- _ =>
      rewrite Hsteps in Hin; apply elem_of_app;
      replace (rows ++ (Z.of_nat i - 1, Z.of_nat j - 1) :: ext')
        with ((rows ++ [row]) ++ ext')
        by (rewrite <- app_assoc; reflexivity);
      apply elem_of_cons in Hin as [Hin|Hin];
      [ right; exact (Hown1 a b s'' ext' (eq_sym Hin) Hp')
      | left; apply list_elem_of_lookup in Hin as (q & Hq);
        destruct (Forall2_lookup_l _ _ _ _ _ Hall Hq) as (ts & Hts & HR);
        apply elem_of_concat; exists ts; split;
        [ exact (HR a b s'' ext' eq_refl Hp')
        | apply list_elem_of_lookup; eauto ] ]
    end.
Qed.

Lemma traceback_complete general r c seq1 seq2 tt starts max_score :
  table_ok general r c tt -> Forall (start_ok general r c) starts ->
  exists alignments,
    traceback seq1 seq2 tt starts max_score = Ok alignments
    /\ forall s t, s ∈ starts -> path tt s.1.1 s.1.2 s.2 t ->
         {| sequences := (seq1, seq2); trace := replace_gaps t;
            score := max_score |} ∈ alignments.
Proof.
  intros Hok Hstarts. unfold traceback, follow_all.
  destruct (rmap_Forall2 (follow_start tt)
              (fun s ts => forall t, path tt s.1.1 s.1.2 s.2 t -> t ∈ ts) starts)
    as (traces & Hrun & Hall).
  { intros [[i j] s] Hin. rewrite Forall_forall in Hstarts. unfold follow_start.
    destruct (Hstarts _ Hin) as (Hi & Hj & Hm). simpl in Hi, Hj, Hm.
    destruct (follow_trace_complete general r c tt Hok (i + j + 1) i j []
                (i + 1 + j + 1) s) as (ts & Heq & Hts); auto; try lia.
    - constructor.
    - intros rl Hrl. discriminate.
    - exists ts. split; [exact Heq|]. intros t Hp. exact (Hts t Hp). }
  rewrite Hrun. unfold mbind, result_bind. simpl. eexists. split; [reflexivity|].
  intros s t Hs Hp. apply list_elem_of_fmap. exists t. split; [reflexivity|].
  apply list_elem_of_lookup in Hs as (q & Hq).
  destruct (Forall2_lookup_l _ _ _ _ _ Hall Hq) as (ts & Hts & HR).
  apply elem_of_concat. exists ts. split; [exact (HR t Hp)|].
  apply list_elem_of_lookup. eauto.
Qed.

(** X13: with a general gap penalty, in every mode, the alignments
    [align_optimal] returns are exactly the paths of the trace table: an
    alignment is returned if and only if its trace is the gap-replaced row
    list of a walk that starts in a start cell, moves at every cell to a
    neighbour whose bit is set there, and stops where the trace value is
    0.  No flagged path is left out and nothing else is returned. *)
Theorem returned_alignments_are_paths seq1 seq2 matrix g tp local log :
  covered1 matrix seq1 = true -> covered2 matrix seq2 = true ->
  fits_int32 g = true ->
  let tables := general_tables (code seq1) (code seq2) (score_matrix matrix)
                  g tp local in
  exists log' alignments,
    align_optimal seq1 seq2 matrix (PyInt g) tp local log = (log', Ok alignments)
    /\ forall a,
         a ∈ alignments
         <-> exists s t,
               s ∈ (starts_general tables.2 local).1
               /\ path tables.1 s.1.1 s.1.2 s.2 t
               /\ a = {| sequences := (seq1, seq2); trace := replace_gaps t;
                         score := optimal_score_general (code seq1) (code seq2)
                                    (score_matrix matrix) g tp local |}.
Proof.
  intros H1 H2 Hg tables.
  destruct (align_optimal_general_paths seq1 seq2 matrix g tp local log
              H1 H2 Hg) as (log' & alignments & Heq & Hall).
  fold tables in Hall. exists log', alignments. split; [exact Heq|].
  intros a. split.
  - intros Ha. rewrite Forall_forall in Hall.
    destruct (Hall a Ha) as (Hs & Hq & s & t & Hin & _ & Hp & Ht).
    exists s, t. split; [exact Hin | split; [exact Hp|]].
    destruct a as [sq tr sc]. simpl in *. congruence.
  - intros (s & t & Hin & Hp & ->).
    rewrite align_optimal_general in Heq by assumption.
    unfold optimal_score_general. fold tables in Heq |- *.
    pose proof (general_trace_ok (code seq1) (code seq2) (score_matrix matrix)
                  g tp local) as Hok.
    destruct (general_tables_cells (code seq1) (code seq2) (score_matrix matrix)
                g tp local) as (_ & Hrect & _).
    fold tables in Hok, Hrect.
    destruct tables as [tt st]. simpl in Hok, Hrect, Hin, Hp. cbn [snd].
    pose proof (starts_general_ok _ _ st local Hrect ltac:(lia) ltac:(lia))
      as Hst.
    destruct (starts_general st local) as [starts mx]. simpl in Hst, Hin.
    cbn [snd].
    destruct (traceback_complete true _ _ seq1 seq2 tt starts mx Hok Hst)
      as (alignments' & Heq' & Hall').
    rewrite Heq' in Heq. injection Heq as _ <-.
    exact (Hall' s t Hin Hp).
Qed.

Lemma returned_alignments_are_paths_witness :
  let tables := general_tables (code ATACGCTTGCT) (code AGGCGCAGCT)
                  (score_matrix (match_matrix 5 (-4))) (-6) true false in
  exists log' alignments,
    align_optimal ATACGCTTGCT AGGCGCAGCT (match_matrix 5 (-4)) (PyInt (-6))
      true false [] = (log', Ok alignments)
    /\ forall a,
         a ∈ alignments
         <-> exists s t,
               s ∈ (starts_general tables.2 false).1
               /\ path tables.1 s.1.1 s.1.2 s.2 t
               /\ a = {| sequences := (ATACGCTTGCT, AGGCGCAGCT);
                         trace := replace_gaps t;
                         score := optimal_score_general (code ATACGCTTGCT)
                                    (code AGGCGCAGCT)
                                    (score_matrix (match_matrix 5 (-4)))
                                    (-6) true false |}.
Proof.
  apply (returned_alignments_are_paths ATACGCTTGCT AGGCGCAGCT
           (match_matrix 5 (-4)) (-6) true false []); reflexivity.
Defined.

(** X14: the same with an affine gap penalty, where a walk also carries
    the table it is in (match, gap in sequence 1, gap in sequence 2), reads
    only the bits of that table's group in each trace byte, and stops
    where that group is empty. *)
Theorem returned_alignments_are_paths_affine seq1 seq2 matrix go ge min_score
    tp local log :
  covered1 matrix seq1 = true -> covered2 matrix seq2 = true ->
  np_min (score_matrix matrix) = Some min_score ->
  fits_int32 go = true -> fits_int32 ge = true ->
  let t := affine_fill (code seq1) (code seq2) (score_matrix matrix)
             min_score go ge tp local in
  exists log' alignments,
    align_optimal seq1 seq2 matrix (PyTuple [go; ge]) tp local log
    = (log', Ok alignments)
    /\ forall a,
         a ∈ alignments
         <-> exists s rows,
               s ∈ (starts_affine t local).1
               /\ path (a_trace t) s.1.1 s.1.2 s.2 rows
               /\ a = {| sequences := (seq1, seq2); trace := replace_gaps rows;
                         score := optimal_score_affine (code seq1) (code seq2)
                                    (score_matrix matrix) min_score go ge
                                    tp local |}.
Proof.
  intros H1 H2 Hmin Hgo Hge t.
  rewrite (align_optimal_affine _ _ _ _ _ _ min_score) by assumption.
  unfold optimal_score_affine. cbv zeta. fold t.
  pose proof (affine_trace_ok (code seq1) (code seq2) (score_matrix matrix)
                min_score go ge tp local) as Hok.
  destruct (affine_fill_cells (code seq1) (code seq2) (score_matrix matrix)
              min_score go ge tp local) as (Hrect & _).
  fold t in Hok, Hrect.
  pose proof (starts_affine_ok _ _ t local Hrect ltac:(lia) ltac:(lia)) as Hst.
  destruct (starts_affine t local) as [starts mx]. simpl in Hst. cbn [fst snd].
  destruct (traceback_paths false _ _ seq1 seq2 (a_trace t) starts mx Hok Hst)
    as (alignments & Heq & Hall).
  destruct (traceback_complete false _ _ seq1 seq2 (a_trace t) starts mx Hok Hst)
    as (alignments' & Heq' & Hall').
  rewrite Heq in Heq'. injection Heq' as <-.
  rewrite Heq. do 2 eexists. split; [reflexivity|].
  intros a. split.
  - intros Ha. rewrite Forall_forall in Hall.
    destruct (Hall a Ha) as (Hs & Hq & s & rows & Hin & _ & Hp & Ht).
    exists s, rows. split; [exact Hin | split; [exact Hp|]].
    destruct a as [sq tr sc]. simpl in *. congruence.
  - intros (s & rows & Hin & Hp & ->). exact (Hall' s rows Hin Hp).
Qed.

Lemma returned_alignments_are_paths_affine_witness :
  let t := affine_fill (code ATACGCTTGCT) (code AGGCGCAGCT)
             (score_matrix (match_matrix 5 (-4))) (-4) (-6) (-2) true false in
  exists log' alignments,
    align_optimal ATACGCTTGCT AGGCGCAGCT (match_matrix 5 (-4))
      (PyTuple [-6; -2]) true false [] = (log', Ok alignments)
    /\ forall a,
         a ∈ alignments
         <-> exists s rows,
               s ∈ (starts_affine t false).1
               /\ path (a_trace t) s.1.1 s.1.2 s.2 rows
               /\ a = {| sequences := (ATACGCTTGCT, AGGCGCAGCT);
                         trace := replace_gaps rows;
                         score := optimal_score_affine (code ATACGCTTGCT)
                                    (code AGGCGCAGCT)
                                    (score_matrix (match_matrix 5 (-4)))
                                    (-4) (-6) (-2) true false |}.
Proof.
  apply (returned_alignments_are_paths_affine ATACGCTTGCT AGGCGCAGCT
           (match_matrix 5 (-4)) (-6) (-2) (-4) true false []);
    vm_compute; reflexivity.
Defined.

(** ** Gaps never lower the optimal score *)

Lemma identity_trace_S n :
  identity_trace (S n) = identity_trace n ++ [(Z.of_nat n, Z.of_nat n)].
Proof. unfold identity_trace. rewrite seq_S, map_app. reflexivity. Qed.

(** The alignment without gaps is one of the alignments of two sequences
    of the same length. *)
Lemma identity_trace_in n : identity_trace n ∈ all_traces n n.
Proof.
  induction n as [|n IH]; [left|].
  change (all_traces (S n) (S n))
    with (map (fun t => t ++ [(Z.of_nat n, Z.of_nat n)]) (all_traces n n)
          ++ map (fun t => t ++ [(-1, Z.of_nat n)]) (all_traces (S n) n)
          ++ map (fun t => t ++ [(Z.of_nat n, -1)]) (all_traces n (S n))).
  apply elem_of_app. left. rewrite identity_trace_S.
  apply list_elem_of_fmap. exists (identity_trace n). auto.
Qed.

(** Re-scored, it is worth the ungapped score. *)
Lemma identity_trace_score code1 code2 matrix g :
  spec_trace_score code1 code2 matrix g (identity_trace (length code1))
  = spec_ungapped_score code1 code2 matrix.
Proof.
  unfold spec_trace_score, spec_ungapped_score, identity_trace.
  rewrite map_map. f_equal. apply map_ext. intros i.
  apply (row_score_pair code1 code2 matrix g i i).
Qed.

Lemma sum_bounded (f : nat -> Z) (B : Z) (l : list nat) :
  (forall i, In i l -> - B <= f i <= B) ->
  - (Z.of_nat (length l) * B) <= foldr Z.add 0 (map f l) <= Z.of_nat (length l) * B.
Proof.
  induction l as [|x l IH]; intros H; simpl; [lia|].
  specialize (IH ltac:(intros; apply H; right; assumption)).
  pose proof (H x ltac:(left; reflexivity)). lia.
Qed.

(** X15: for two sequences of the same length, when the scores and the
    penalty are small enough for no addition to wrap and no cell of the
    fill meets the tie branch, the score of the global alignment computed
    by [align_optimal] (general gap penalty, terminal gaps penalised) is at
    least the score [align_ungapped] returns for the same sequences and
    matrix. *)
Theorem optimal_at_least_ungapped seq1 seq2 matrix g B log :
  ungapped_accepts seq1 seq2 matrix ->
  covered1 matrix seq1 = true -> covered2 matrix seq2 = true ->
  - B <= g <= B ->
  used_scores_bounded (code seq1) (code seq2) (score_matrix matrix) B = true ->
  (Z.of_nat (length (code seq1) + length (code seq2)) + 1) * B < 2147483648 ->
  tie_free_general (code seq1) (code seq2) (score_matrix matrix) g true false
  = true ->
  exists ungapped log' alignments,
    align_ungapped seq1 seq2 matrix true = Ok (ScoreOnly ungapped)
    /\ align_optimal seq1 seq2 matrix (PyInt g) true false log
       = (log', Ok alignments)
    /\ alignments <> []
    /\ Forall (fun a => ungapped <= score a) alignments.
Proof.
  intros Hacc H1 H2 HgB HB Hsize Htg.
  pose proof Hacc as [Hlen Halph].
  assert (Hfit : fits_int32 g = true).
  { unfold fits_int32, INT32_MIN, INT32_MAX.
    apply andb_true_iff. split; apply Z.leb_le; nia. }
  pose proof (used_scores_bounded_spec _ _ _ _ HB) as HB'.
  set (exact := spec_ungapped_score (code seq1) (code seq2) (score_matrix matrix)).
  assert (Hsum : - (Z.of_nat (length (code seq1)) * B) <= exact
                 <= Z.of_nat (length (code seq1)) * B).
  { subst exact. unfold spec_ungapped_score.
    pose proof (sum_bounded
                  (fun i => tget (score_matrix matrix) (cget (code seq1) i)
                              (cget (code seq2) i)) B
                  (seq 0 (length (code seq1)))) as Hs.
    rewrite length_seq in Hs. apply Hs.
    intros i Hi. apply in_seq in Hi. apply HB'; lia. }
  assert (Hn : 0 <= Z.of_nat (length (code seq1)) * B
               /\ Z.of_nat (length (code seq1)) * B < 2147483648).
  { assert (0 <= B) by lia. split; [apply Z.mul_nonneg_nonneg; lia|].
    assert (Z.of_nat (length (code seq1)) * B
            <= Z.of_nat (length (code seq1) + length (code seq2)) * B)
      by (apply Z.mul_le_mono_nonneg_r; lia).
    lia. }
  assert (Hung : align_ungapped seq1 seq2 matrix true = Ok (ScoreOnly exact)).
  { unfold align_ungapped, alphabet_eqb.
    rewrite Hlen, Nat.eqb_refl. cbn [negb].
    assert (Hchk : negb (String.eqb (get_alphabet1 matrix) (get_alphabet seq1))
                   && negb (String.eqb (get_alphabet2 matrix) (get_alphabet seq2))
                   = false).
    { destruct Halph as [->| ->]; rewrite String.eqb_refl; simpl;
        [reflexivity | apply andb_false_r]. }
    rewrite Hchk, add_scores_wrap. fold exact.
    rewrite wrap32_id by (unfold INT32_MIN, INT32_MAX; lia). reflexivity. }
  destruct (align_optimal_general_scores seq1 seq2 matrix g true false log
              H1 H2 Hfit) as (log' & alignments & Heq & Hne & Hall).
  exists exact, log', alignments.
  split; [exact Hung | split; [exact Heq | split; [exact Hne|]]].
  destruct (nw_cell (code seq1) (code seq2) (score_matrix matrix) g B Hsize
              HB' HgB (length (code seq1) + length (code seq2) + 1)
              (length (code seq1)) (length (code seq2))
              ltac:(lia) ltac:(lia) ltac:(lia))
    as (best & Hbest & _ & _ & Hfree).
  assert (Hopt : optimal_score_general (code seq1) (code seq2)
                   (score_matrix matrix) g true false = best).
  { destruct (general_tables_cells (code seq1) (code seq2)
                (score_matrix matrix) g true false) as (_ & RS & _).
    unfold optimal_score_general, starts_general. cbn [snd].
    rewrite (shape0_rect _ _ _ RS), (shape1_rect _ _ _ RS ltac:(lia)).
    rewrite !Nat.add_sub. apply Hfree. intros i' j' Hi' Hj'.
    apply tie_free_general_spec; [exact Htg | lia | lia]. }
  assert (Hle : exact <= best).
  { unfold best_score in Hbest. apply list_max_spec in Hbest as [_ Hmax].
    apply Hmax. subst exact. rewrite <- (identity_trace_score _ _ _ g).
    apply list_elem_of_fmap. exists (identity_trace (length (code seq1))).
    split; [reflexivity|]. rewrite <- Hlen. apply identity_trace_in. }
  eapply Forall_impl; [exact Hall|]. simpl. intros a ->. rewrite Hopt. exact Hle.
Qed.

Lemma optimal_at_least_ungapped_witness :
  exists ungapped log' alignments,
    align_ungapped (nuc [0; 1; 2; 3; 1]%nat) (nuc [1; 2; 3; 1; 2]%nat) (match_matrix 5 (-4))
      true = Ok (ScoreOnly ungapped)
    /\ align_optimal (nuc [0; 1; 2; 3; 1]%nat) (nuc [1; 2; 3; 1; 2]%nat)
         (match_matrix 5 (-4)) (PyInt (-2)) true false []
       = (log', Ok alignments)
    /\ alignments <> []
    /\ Forall (fun a => ungapped <= score a) alignments.
Proof.
  apply (optimal_at_least_ungapped (nuc [0; 1; 2; 3; 1]%nat) (nuc [1; 2; 3; 1; 2]%nat)
           (match_matrix 5 (-4)) (-2) 5 []);
    solve [vm_compute; reflexivity | lia | vm_compute; congruence
          | split; [reflexivity | left; reflexivity]].
Defined.

(** ** Aligning an empty sequence *)

(** One iteration of [_follow_trace]. *)
Lemma follow_trace_step fuel tt i j pos trace state :
  _follow_trace (S fuel) tt i j pos trace state
  = (trace_value ← mv_get tt i j;
     if loop_ends state trace_value then Ok [trim_trace trace]
     else
       trace ← write_row trace pos (i - 1, j - 1);
       match next_steps state trace_value i j with
       | [] => Raise IndexError
       | first :: others =>
         split ← rmap (fun '(new_i, new_j, new_state) =>
                         _follow_trace fuel tt new_i new_j (S pos) trace
                           new_state) others;
         let '(i, j, state) := first in
         own ← _follow_trace fuel tt i j (S pos) trace state;
         Ok (concat split ++ own)
       end).
Proof. reflexivity. Qed.

(** Along a first row that points to the left everywhere, the traceback
    walks to the corner and returns one trace. *)
Lemma follow_first_row r c tt :
  rect r c tt -> (0 < r)%nat ->
  (forall j, (1 <= j < c)%nat -> tget tt 0 j = 2) -> tget tt 0 0 = 0 ->
  forall (j fuel : nat) rows k,
    (j < c)%nat -> (j < fuel)%nat -> (j <= k)%nat -> Forall row_ok rows ->
    _follow_trace fuel tt 0 (Z.of_nat j) (length rows) (padded rows k) 0
    = Ok [rows ++ map (fun b => (-1, Z.of_nat b)) (reverse (seq 0 j))].
Proof.
  intros Hrect Hr Hrow Hcorner.
  assert (Hmv : forall j, (j < c)%nat ->
            mv_get tt 0 (Z.of_nat j) = Ok (tget tt 0 j)).
  { intros j Hj. exact (mv_get_inside r c tt 0 j Hrect Hr Hj). }
  induction j as [|j IH]; intros fuel rows k Hj Hfuel Hk Hrows;
    (destruct fuel as [|fuel]; [lia|]); rewrite follow_trace_step, Hmv by lia;
    unfold mbind at 1, result_bind at 1; cbn [rbind].
  - rewrite Hcorner. change (loop_ends 0 0) with true. cbv iota.
    rewrite trim_padded by exact Hrows. rewrite app_nil_r. reflexivity.
  - rewrite (Hrow (S j)) by lia.
    change (loop_ends 0 2) with false. cbv iota.
    destruct k as [|k]; [lia|].
    rewrite write_row_padded. unfold mbind at 1, result_bind at 1. cbn [rbind].
    change (next_steps 0 2 0 (Z.of_nat (S j)))
      with [(0, Z.of_nat (S j) - 1, 0)].
    cbn [rmap]. unfold mbind at 1, result_bind at 1. cbn [rbind].
    replace (Z.of_nat (S j) - 1) with (Z.of_nat j) by lia.
    replace (S (length rows)) with (length (rows ++ [(0 - 1, Z.of_nat j)]))
      by (rewrite length_app; simpl; lia).
    rewrite (IH fuel (rows ++ [(0 - 1, Z.of_nat j)]) k) by
      first [ lia
            | apply Forall_app; split; [exact Hrows|];
              constructor; [unfold row_ok; simpl; lia | constructor] ].
    unfold mbind, result_bind. cbn [rbind concat app].
    rewrite seq_S, reverse_app, reverse_singleton. cbn [app map Nat.add].
    rewrite <- app_assoc. reflexivity.
Qed.

Lemma gap_rows_first_row len : forall (a : nat) (p : Z),
  p < Z.of_nat a ->
  gap_rows (-1, p) (map (fun b => (-1, Z.of_nat b)) (seq a len))
  = map (fun b => (-1, Z.of_nat b)) (seq a len).
Proof.
  induction len as [|len IH]; intros a p Hp; [reflexivity|].
  cbn [seq map gap_rows]. rewrite (IH (S a) (Z.of_nat a)) by lia.
  f_equal. unfold gap_row. cbn [fst snd].
  rewrite decide_True by reflexivity. rewrite decide_False by lia. reflexivity.
Qed.

(** X16: a global alignment of an empty first sequence with a general gap
    penalty returns exactly one alignment: every symbol of the second
    sequence stands opposite a gap, and the score is the penalty times the
    length of the second sequence (as a 32-bit integer) when terminal gaps
    are penalised and 0 when they are not. *)
Theorem align_optimal_empty_first seq1 seq2 matrix g tp log :
  covered1 matrix seq1 = true -> covered2 matrix seq2 = true ->
  fits_int32 g = true -> code seq1 = [] ->
  align_optimal seq1 seq2 matrix (PyInt g) tp false log
  = (log ++ [(1%nat, (length (code seq2) + 1)%nat);
             (1%nat, (length (code seq2) + 1)%nat)],
     Ok [{| sequences := (seq1, seq2);
            trace := map (fun b => (-1, Z.of_nat b)) (seq 0 (length (code seq2)));
            score := if tp then wrap32 (Z.of_nat (length (code seq2)) * g)
                     else 0 |}]).
Proof.
  intros H1 H2 Hg Hempty. rewrite align_optimal_general by assumption.
  rewrite Hempty. cbn [length Nat.add]. f_equal.
  set (m := length (code seq2)).
  pose proof (general_trace_ok [] (code seq2) (score_matrix matrix) g tp false)
    as Hok.
  destruct (general_tables_cells [] (code seq2) (score_matrix matrix) g tp false)
    as (RT & RS & _ & Hborder).
  cbn [length Nat.add] in Hok, RT, RS, Hborder. fold m in Hok, RT, RS, Hborder.
  destruct (general_tables [] (code seq2) (score_matrix matrix) g tp false)
    as [tt st].
  cbn [fst snd] in Hok, RT, RS, Hborder.
  unfold starts_general.
  rewrite (shape0_rect _ _ _ RS), (shape1_rect _ _ _ RS ltac:(lia)).
  rewrite Nat.add_sub. cbn [Nat.sub].
  assert (Hrow : forall j, (1 <= j < m + 1)%nat -> tget tt 0 j = 2).
  { intros j Hj. destruct (Hborder 0%nat j ltac:(lia)) as [-> _].
    rewrite init_general_trace. cbn [negb].
    rewrite decide_True by lia. reflexivity. }
  assert (Hcorner : tget tt 0 0 = 0).
  { destruct (Hborder 0%nat 0%nat ltac:(lia)) as [-> _].
    rewrite init_general_trace. cbn [negb].
    rewrite !decide_False by lia. reflexivity. }
  assert (Hscore : tget st 0 m
                   = if tp then wrap32 (Z.of_nat m * g) else 0).
  { destruct (Hborder 0%nat m ltac:(lia)) as [_ ->].
    rewrite init_general_score. destruct tp; cbn [negb orb]; [|reflexivity].
    rewrite decide_True by lia. reflexivity. }
  set (t0 := map (fun b : nat => (-1, Z.of_nat b)) (reverse (seq 0 m))).
  assert (Hfollow : follow_all tt [(0%nat, m, 0)] = Ok [t0]).
  { unfold follow_all. cbn [rmap]. unfold follow_start.
    pose proof (follow_first_row 1 (m + 1) tt RT ltac:(lia) Hrow Hcorner m
                  (0 + m + 1) [] (0 + 1 + m + 1) ltac:(lia) ltac:(lia)
                  ltac:(lia) ltac:(constructor)) as E.
    unfold padded in E. cbn [app length] in E.
    change (Z.of_nat 0) with 0. rewrite E. reflexivity. }
  assert (Hw : written t0).
  { destruct (follow_all_written true 1 (m + 1) tt [(0%nat, m, 0)] Hok)
      as (traces & Heq & Hw & _).
    - constructor; [|constructor]. repeat split; simpl; lia.
    - rewrite Hfollow in Heq. injection Heq as <-.
      apply Forall_cons in Hw as [Hw _]. exact Hw. }
  unfold traceback. rewrite Hfollow. unfold mbind, result_bind. cbn [rbind map].
  rewrite Hscore, (replace_gaps_rows t0 Hw).
  assert (Hrev : reverse t0 = map (fun b : nat => (-1, Z.of_nat b)) (seq 0 m)).
  { subst t0.
    change (reverse ((fun b : nat => (-1, Z.of_nat b)) <$> reverse (seq 0 m))
            = (fun b : nat => (-1, Z.of_nat b)) <$> seq 0 m).
    rewrite <- fmap_reverse, reverse_involutive. reflexivity. }
  rewrite Hrev, (gap_rows_first_row m 0 (-1)) by lia. reflexivity.
Qed.

Lemma align_optimal_empty_first_witness :
  align_optimal (nuc []) (nuc [0; 2; 2]%nat) (match_matrix 5 (-4)) (PyInt (-3))
    true false []
  = ([(1%nat, 4%nat); (1%nat, 4%nat)],
     Ok [{| sequences := (nuc [], nuc [0; 2; 2]%nat);
            trace := [(-1, 0); (-1, 1); (-1, 2)];
            score := -9 |}]).
Proof.
  apply (align_optimal_empty_first (nuc []) (nuc [0; 2; 2]%nat)
           (match_matrix 5 (-4)) (-3) true []); reflexivity.
Defined.

(** ** Local alignments without a positive score *)

(** No substitution score the two sequences use is positive. *)
Definition no_positive_score (code1 code2 : list nat) (matrix : table) : bool :=
  forallb (fun i =>
    forallb (fun j =>
               (INT32_MIN <=? tget matrix (cget code1 i) (cget code2 j))
               && (tget matrix (cget code1 i) (cget code2 j) <=? 0))
            (seq 0 (length code2)))
    (seq 0 (length code1)).

Lemma no_positive_score_spec code1 code2 matrix :
  no_positive_score code1 code2 matrix = true ->
  forall i j, (i < length code1)%nat -> (j < length code2)%nat ->
    INT32_MIN <= tget matrix (cget code1 i) (cget code2 j) <= 0.
Proof.
  unfold no_positive_score. rewrite forallb_forall. intros H i j Hi Hj.
  specialize (H i ltac:(apply in_seq; lia)). rewrite forallb_forall in H.
  specialize (H j ltac:(apply in_seq; lia)).
  apply andb_true_iff in H as [H1 H2]. lia.
Qed.

(** Then the local fill leaves both tables empty. *)
Lemma local_tables_empty code1 code2 matrix g tp (k i j : nat) :
  no_positive_score code1 code2 matrix = true ->
  fits_int32 g = true -> g <= 0 ->
  (i + j < k)%nat -> (i <= length code1)%nat -> (j <= length code2)%nat ->
  tget (general_tables code1 code2 matrix g tp true).1 i j = 0
  /\ tget (general_tables code1 code2 matrix g tp true).2 i j = 0.
Proof.
  intros Hnp Hfit Hg. pose proof (no_positive_score_spec _ _ _ Hnp) as Hs.
  apply andb_true_iff in Hfit as [Hg1 Hg2].
  apply Z.leb_le in Hg1, Hg2.
  revert i j. induction k as [|k IH]; intros i j Hk Hi Hj; [lia|].
  destruct (general_tables_cells code1 code2 matrix g tp true)
    as (_ & _ & Hcell & Hborder).
  destruct (decide (i = 0 \/ j = 0)%nat) as [Hb|Hb].
  - destruct (Hborder i j Hb) as [-> ->].
    rewrite init_general_trace, init_general_score. auto.
  - specialize (Hcell i j ltac:(lia) ltac:(lia)).
    unfold cell_filled, selected in Hcell. rewrite !Nat.add_sub in Hcell.
    rewrite init_general_trace in Hcell.
    unfold from_diag, from_left, from_top in Hcell.
    destruct (IH (i - 1) (j - 1))%nat as [_ Ed]; [lia ..|].
    destruct (IH i (j - 1))%nat as [_ El]; [lia ..|].
    destruct (IH (i - 1) j)%nat as [_ Et]; [lia ..|].
    rewrite Ed, El, Et in Hcell.
    specialize (Hs (i - 1) (j - 1) ltac:(lia) ltac:(lia))%nat.
    rewrite !add32_exact in Hcell by (unfold INT32_MIN, INT32_MAX in *; lia).
    match type of Hcell with context [find_maximum ?d ?l ?t] =>
      pose proof (find_maximum_le d l t) as Hle;
      destruct (find_maximum d l t) as [trace score] end.
    simpl in Hle. cbn [andb] in Hcell.
    assert (Hscore : score <= 0).
    { destruct (negb tp && (i =? length code1)%nat);
        destruct (negb tp && (j =? length code2)%nat); lia. }
    rewrite (proj2 (Z.leb_le _ _) Hscore) in Hcell. tauto.
Qed.

Lemma rmap_const {A B} (f : A -> result B) (y : B) (l : list A) :
  (forall x, x ∈ l -> f x = Ok y) -> rmap f l = Ok (replicate (length l) y).
Proof.
  induction l as [|x l IH]; intros H; [reflexivity|].
  cbn [rmap]. rewrite (H x) by left. unfold mbind, result_bind. cbn [rbind].
  rewrite IH by (intros; apply H; right; assumption). reflexivity.
Qed.

(** Started on a cell with an empty trace value, the traceback returns
    the empty trace. *)
Lemma follow_start_empty r c tt i j :
  rect r c tt -> (i < r)%nat -> (j < c)%nat -> tget tt i j = 0 ->
  follow_start tt (i, j, 0) = Ok [[]].
Proof.
  intros Hrect Hi Hj H0. unfold follow_start.
  rewrite Nat.add_1_r, follow_trace_step, (mv_get_inside r c) by assumption.
  unfold mbind, result_bind. cbn [rbind]. rewrite H0.
  change (loop_ends 0 0) with true. cbv iota.
  change (replicate (i + 1 + j + 1) (-1, -1)) with (padded [] (i + 1 + j + 1)).
  rewrite trim_padded by constructor. reflexivity.
Qed.

(** [np.where] on a table all of whose entries have the value looked for
    returns every cell. *)
Lemma where_row_full (v : Z) (row : list Z) : forall (h : nat -> nat * nat),
  Forall (fun x => x = v) row ->
  length (omap (fun x => x)
            (imap (fun j x => if x =? v then Some (h j) else None) row))
  = length row.
Proof.
  induction row as [|x row IH]; intros h H; [reflexivity|].
  apply Forall_cons in H as [-> H]. rewrite imap_cons, Z.eqb_refl.
  cbn [omap list_omap length]. f_equal.
  exact (IH (h ∘ S) H).
Qed.

Lemma np_where_full r c (t : table) (v : Z) :
  rect r c t ->
  (forall i j, (i < r)%nat -> (j < c)%nat -> tget t i j = v) ->
  length (np_where t v) = (r * c)%nat.
Proof.
  intros [Hlen Hrows] Hall. unfold np_where.
  assert (Hfull : Forall (Forall (fun x => x = v)) t).
  { apply Forall_lookup. intros i row Hi. apply Forall_lookup. intros j x Hj.
    rewrite Forall_lookup in Hrows. pose proof (Hrows i row Hi) as Hc.
    specialize (Hall i j ltac:(apply lookup_lt_Some in Hi; lia)
                  ltac:(apply lookup_lt_Some in Hj; lia)).
    unfold tget in Hall. rewrite Hi, Hj in Hall. exact Hall. }
  clear Hall. subst r.
  assert (Hgen : forall (g : nat -> nat),
            length (concat (imap (fun i row =>
                      omap (fun x => x)
                        (imap (fun j x => if x =? v then Some (g i, j) else None)
                           row)) t))
            = (length t * c)%nat).
  { induction t as [|row t IH]; intros g; [reflexivity|].
    apply Forall_cons in Hrows as [Hrow Hrows].
    apply Forall_cons in Hfull as [Hf Hfull].
    rewrite imap_cons. cbn [concat]. rewrite length_app.
    replace (length (row :: t) * c)%nat with (length row + length t * c)%nat
      by (simpl; lia).
    f_equal; [exact (where_row_full v row (fun j => (g 0%nat, j)) Hf)|].
    exact (IH Hrows Hfull (g ∘ S)). }
  exact (Hgen (fun i => i)).
Qed.

Lemma concat_replicate_single {A} (k : nat) (x : A) :
  concat (replicate k [x]) = replicate k x.
Proof. induction k as [|k IH]; simpl; [|rewrite IH]; reflexivity. Qed.

(** X17: a local alignment with a general gap penalty that is not
    positive, of two sequences no two symbols of which score above 0,
    finds the score 0 in every cell of the table and returns one empty
    alignment for each of them: (len(seq1) + 1) * (len(seq2) + 1)
    alignments with an empty trace and score 0. *)
Theorem local_without_positive_score seq1 seq2 matrix g tp log :
  covered1 matrix seq1 = true -> covered2 matrix seq2 = true ->
  fits_int32 g = true -> g <= 0 ->
  no_positive_score (code seq1) (code seq2) (score_matrix matrix) = true ->
  align_optimal seq1 seq2 matrix (PyInt g) tp true log
  = (log ++ [((length (code seq1) + 1)%nat, (length (code seq2) + 1)%nat);
             ((length (code seq1) + 1)%nat, (length (code seq2) + 1)%nat)],
     Ok (replicate ((length (code seq1) + 1) * (length (code seq2) + 1))
           {| sequences := (seq1, seq2); trace := []; score := 0 |})).
Proof.
  intros H1 H2 Hfit Hg Hnp. rewrite align_optimal_general by assumption.
  f_equal.
  destruct (general_tables_cells (code seq1) (code seq2) (score_matrix matrix)
              g tp true) as (RT & RS & _).
  assert (Hzero : forall i j, (i < length (code seq1) + 1)%nat ->
                    (j < length (code seq2) + 1)%nat ->
                    tget (general_tables (code seq1) (code seq2)
                            (score_matrix matrix) g tp true).1 i j = 0
                    /\ tget (general_tables (code seq1) (code seq2)
                               (score_matrix matrix) g tp true).2 i j = 0).
  { intros i j Hi Hj.
    apply (local_tables_empty _ _ _ _ _ (i + j + 1)); auto; lia. }
  destruct (general_tables (code seq1) (code seq2) (score_matrix matrix)
              g tp true) as [tt st].
  cbn [fst snd] in RT, RS, Hzero.
  assert (Hmax : default 0 (np_max st) = 0).
  { destruct (list_max_is_Some _
                (table_nonempty _ _ _ RS ltac:(lia) ltac:(lia))) as (v & Hv).
    unfold np_max. rewrite Hv. simpl.
    apply list_max_spec in Hv as [Hin _].
    apply (elem_of_table _ _ _ _ RS) in Hin as (i & j & Hi & Hj & <-).
    apply Hzero; assumption. }
  unfold starts_general. rewrite Hmax.
  unfold traceback, follow_all.
  rewrite (rmap_const (follow_start tt) [[]]).
  - unfold mbind, result_bind. cbn [rbind].
    rewrite length_map, concat_replicate_single.
    rewrite (np_where_full _ _ st 0 RS) by (intros; apply Hzero; assumption).
    change (map ?f (replicate ?k ?x)) with (f <$> replicate k x).
    rewrite fmap_replicate. reflexivity.
  - intros s Hs. apply list_elem_of_fmap in Hs as ([i j] & -> & Hs).
    apply (np_where_inside _ _ _ _ _ _ RS) in Hs as [Hi Hj].
    apply (follow_start_empty _ _ tt i j RT Hi Hj).
    apply Hzero; assumption.
Qed.

Lemma local_without_positive_score_witness :
  align_optimal (nuc [0; 1]%nat) (nuc [2; 3]%nat) (match_matrix 5 (-4))
    (PyInt (-1)) true true []
  = ([(3%nat, 3%nat); (3%nat, 3%nat)],
     Ok (replicate 9 {| sequences := (nuc [0; 1]%nat, nuc [2; 3]%nat);
                        trace := []; score := 0 |})).
Proof.
  apply (local_without_positive_score (nuc [0; 1]%nat) (nuc [2; 3]%nat)
           (match_matrix 5 (-4)) (-1) true []);
    solve [vm_compute; reflexivity | lia].
Defined.

(** ** Local alignments begin and end with a pair of symbols *)

Lemma find_maximum_in d l t :
  (find_maximum d l t).2 = d \/ (find_maximum d l t).2 = l
  \/ (find_maximum d l t).2 = t.
Proof.
  unfold find_maximum.
  repeat (destruct (_ >? _) || destruct (_ =? _)); simpl; auto.
Qed.

Section local_ends.
Context (code1 code2 : list nat) (matrix : table) (g : Z).
Hypothesis Hfit : fits_int32 g = true.
Hypothesis Hneg : g < 0.

Local Abbreviation n := (length code1).
Local Abbreviation m := (length code2).
Local Abbreviation T := (tget (general_tables code1 code2 matrix g true true).1).
Local Abbreviation S := (tget (general_tables code1 code2 matrix g true true).2).

(** In local mode only interior cells have a trace value. *)
Lemma local_trace_interior i j :
  T i j <> 0 -> (1 <= i <= n)%nat /\ (1 <= j <= m)%nat.
Proof using Type.
  intros Hne.
  destruct (general_tables_cells code1 code2 matrix g true true)
    as (RT & _ & _ & Hborder).
  destruct (decide (n + 1 <= i \/ m + 1 <= j)%nat) as [Hout|Hin].
  { exfalso. apply Hne. apply (tget_outside _ _ _ _ _ RT). exact Hout. }
  destruct (decide (i = 0 \/ j = 0)%nat) as [Hb|Hb]; [|lia].
  exfalso. apply Hne. destruct (Hborder i j Hb) as [-> _].
  apply init_general_trace.
Qed.

(** The scores of a local alignment are never negative. *)
Lemma local_scores_range i j :
  (i <= n)%nat -> (j <= m)%nat -> 0 <= S i j <= INT32_MAX.
Proof using Type.
  intros Hi Hj.
  destruct (general_tables_cells code1 code2 matrix g true true)
    as (_ & _ & Hcell & Hborder).
  destruct (decide (i = 0 \/ j = 0)%nat) as [Hb|Hb].
  - destruct (Hborder i j Hb) as [_ ->]. rewrite init_general_score.
    simpl. unfold INT32_MAX. lia.
  - specialize (Hcell i j ltac:(lia) ltac:(lia)).
    unfold cell_filled, selected in Hcell.
    unfold from_diag, from_left, from_top in Hcell. cbn [negb andb] in Hcell.
    match type of Hcell with context [find_maximum ?d ?l ?t] =>
      pose proof (find_maximum_in d l t) as Hin;
      destruct (find_maximum d l t) as [trace score] end.
    simpl in Hin.
    destruct (Z.leb_spec score 0) as [Hs|Hs]; destruct Hcell as [-> _];
      [unfold INT32_MAX; lia|].
    split; [lia|].
    destruct Hin as [->|[->| ->]]; apply wrap32_range.
Qed.

(** From a cell whose score no cell exceeds, the traceback can only step
    diagonally. *)
Lemma local_first_step i j i' j' s' :
  (forall a b, (a <= n)%nat -> (b <= m)%nat -> S a b <= S i j) ->
  loop_ends 0 (T i j) = false ->
  (Z.of_nat i', Z.of_nat j', s')
    ∈ next_steps 0 (T i j) (Z.of_nat i) (Z.of_nat j) ->
  (1 <= i)%nat /\ (1 <= j)%nat /\ i' = (i - 1)%nat /\ j' = (j - 1)%nat.
Proof using All.
  intros Hmax Hloop Hin.
  assert (Hne : T i j <> 0).
  { intros E. rewrite E in Hloop. discriminate Hloop. }
  destruct (local_trace_interior i j Hne) as [Hi Hj].
  destruct (general_tables_cells code1 code2 matrix g true true)
    as (_ & _ & Hcell & _).
  specialize (Hcell i j ltac:(lia) ltac:(lia)).
  unfold cell_filled, selected in Hcell. rewrite init_general_trace in Hcell.
  unfold from_diag, from_left, from_top in Hcell. cbn [negb andb] in Hcell.
  pose proof (local_scores_range i (j - 1) ltac:(lia) ltac:(lia)) as Rl.
  pose proof (local_scores_range (i - 1) j ltac:(lia) ltac:(lia)) as Rt.
  pose proof (Hmax i (j - 1)%nat ltac:(lia) ltac:(lia)) as Ml.
  pose proof (Hmax (i - 1)%nat j ltac:(lia) ltac:(lia)) as Mt.
  apply andb_true_iff in Hfit as [Hg1 Hg2]. apply Z.leb_le in Hg1, Hg2.
  rewrite !(add32_exact _ g) in Hcell by (unfold INT32_MIN, INT32_MAX in *; lia).
  match type of Hcell with context [find_maximum ?d ?l ?t] =>
    pose proof (find_maximum_flags d l t) as (_ & F2 & F4);
    pose proof (find_maximum_le d l t) as Hle;
    destruct (find_maximum d l t) as [trace score] end.
  simpl in F2, F4, Hle.
  destruct (Z.leb_spec score 0) as [Hs|Hs]; destruct Hcell as [HS HT];
    [contradiction|].
  rewrite HT in Hin. unfold next_steps in Hin. simpl in Hin.
  rewrite !elem_of_app, !elem_of_when in Hin.
  destruct Hin as [[_ [= Hi' Hj' _]]|[[Hbit [= Hi' Hj' _]]|[Hbit [= Hi' Hj' _]]]].
  - lia.
  - exfalso. apply F2 in Hbit. lia.
  - exfalso. apply F4 in Hbit. lia.
Qed.

(** Every row a local traceback writes stands for an interior cell. *)
Lemma local_rows_inside i j s rows :
  path (general_tables code1 code2 matrix g true true).1 i j s rows ->
  s = 0 -> Forall (fun r => 0 <= r.1 /\ 0 <= r.2) rows.
Proof using Type.
  induction 1 as [|i j s i' j' s' ext Hloop Hin Hpath IH]; intros ->;
    [constructor|].
  destruct (elem_of_next_steps _ _ _ _ _ _ _ Hin) as [_ Hs']. simpl in Hs'.
  constructor; [|exact (IH Hs')].
  assert (Hne : T i j <> 0).
  { intros E. rewrite E in Hloop. discriminate Hloop. }
  destruct (local_trace_interior i j Hne). simpl. lia.
Qed.

Lemma gap_row_keeps prev r :
  0 <= r.1 -> 0 <= r.2 -> prev.1 <> r.1 -> prev.2 <> r.2 -> gap_row prev r = r.
Proof using Type.
  intros. unfold gap_row. rewrite !decide_False by assumption.
  destruct r. reflexivity.
Qed.

(** The first and the last row of a trace returned from a start cell of
    maximal score hold no gap. *)
Lemma local_path_ends i j rows r :
  (forall a b, (a <= n)%nat -> (b <= m)%nat -> S a b <= S i j) ->
  path (general_tables code1 code2 matrix g true true).1 i j 0 rows ->
  head (gap_rows (-1, -1) (reverse rows)) = Some r
  \/ last (gap_rows (-1, -1) (reverse rows)) = Some r ->
  r.1 <> -1 /\ r.2 <> -1.
Proof using All.
  intros Hmax Hp Hr.
  pose proof (local_rows_inside i j 0 rows Hp eq_refl) as Hin.
  assert (Hnn : 0 <= r.1 /\ 0 <= r.2); [|lia].
  destruct Hr as [Hr|Hr].
  - destruct (reverse rows) as [|x l] eqn:E; [discriminate|].
    simpl in Hr. injection Hr as <-.
    assert (Hx : 0 <= x.1 /\ 0 <= x.2).
    { rewrite Forall_forall in Hin. apply Hin.
      apply elem_of_reverse. rewrite E. left. }
    rewrite gap_row_keeps; simpl; lia.
  - inversion Hp as [|? ? ? i' j' s' ext Hloop Hstep Hp']; subst;
      [discriminate|].
    rewrite reverse_cons, gap_rows_snoc, last_snoc in Hr. injection Hr as <-.
    destruct (local_first_step i j i' j' s' Hmax Hloop Hstep)
      as (Hi & Hj & -> & ->).
    rewrite gap_row_keeps; simpl; try lia.
    + rewrite last_reverse.
      inversion Hp'; subst; simpl; lia.
    + rewrite last_reverse.
      inversion Hp'; subst; simpl; lia.
Qed.
End local_ends.

(** [np.where(t == v)] returns only cells that hold [v]. *)
Lemma np_where_value (t : table) v i j : (i, j) ∈ np_where t v -> tget t i j = v.
Proof.
  intros Hin. unfold np_where in Hin.
  apply elem_of_concat in Hin as (l & Hin & Hl).
  apply list_elem_of_lookup in Hl as (a & Hl).
  apply list_lookup_imap_Some in Hl as (row & Hrow & ->).
  apply list_elem_of_omap in Hin as (o & Ho & Hsome). simpl in Hsome. subst o.
  apply list_elem_of_lookup in Ho as (b & Ho).
  apply list_lookup_imap_Some in Ho as (x & Hx & Heq).
  destruct (Z.eqb_spec x v) as [->|]; [|discriminate]. injection Heq as -> ->.
  unfold tget. rewrite Hrow, Hx. reflexivity.
Qed.

(** X18: in a local alignment with a negative general gap penalty and
    penalised terminal gaps, no returned trace begins or ends with a gap:
    its first row and its last row pair a symbol of one sequence with a
    symbol of the other. *)
Theorem local_traces_end_in_pairs seq1 seq2 matrix g log log' alignments :
  g < 0 ->
  align_optimal seq1 seq2 matrix (PyInt g) true true log = (log', Ok alignments) ->
  Forall (fun a => forall r,
            head (trace a) = Some r \/ last (trace a) = Some r ->
            r.1 <> -1 /\ r.2 <> -1) alignments.
Proof.
  intros Hneg Heq.
  destruct (align_optimal_ok_inv _ _ _ _ _ _ _ _ _ Heq) as (H1 & H2 & Hfit).
  simpl in Hfit.
  destruct (align_optimal_general_paths seq1 seq2 matrix g true true log
              H1 H2 Hfit) as (log'' & alignments' & Heq' & Hall).
  rewrite Heq in Heq'. injection Heq' as _ <-.
  destruct (general_tables_cells (code seq1) (code seq2) (score_matrix matrix)
              g true true) as (_ & RS & _).
  eapply Forall_impl; [exact Hall|]. simpl.
  intros a (_ & _ & s & t & Hs & Hw & Hp & Ht) r Hr.
  unfold starts_general in Hs. cbn [fst] in Hs.
  apply list_elem_of_fmap in Hs as ([i j] & -> & Hs). cbn [fst snd] in Hp.
  apply np_where_value in Hs.
  rewrite Ht, (replace_gaps_rows t Hw) in Hr.
  apply (local_path_ends (code seq1) (code seq2) (score_matrix matrix) g
           Hfit Hneg i j t r); [|exact Hp | exact Hr].
  intros a' b' Ha' Hb'. rewrite Hs.
  destruct (list_max_is_Some _
              (table_nonempty _ _ _ RS ltac:(lia) ltac:(lia))) as (v & Hv).
  unfold np_max. rewrite Hv. simpl.
  apply (list_max_spec _ _ Hv). apply (elem_of_table _ _ _ _ RS).
  exists a', b'. repeat split; lia.
Qed.

Lemma local_traces_end_in_pairs_witness :
  Forall (fun a => forall r,
            head (trace a) = Some r \/ last (trace a) = Some r ->
            r.1 <> -1 /\ r.2 <> -1)
    [{| sequences := (ATACGCTTGCT, AGGCGCAGCT);
        trace := [(3, 3); (4, 4); (5, 5); (6, 6); (7, -1); (8, 7); (9, 8);
                  (10, 9)];
        score := 20 |};
     {| sequences := (ATACGCTTGCT, AGGCGCAGCT);
        trace := [(3, 3); (4, 4); (5, 5); (6, -1); (7, 6); (8, 7); (9, 8);
                  (10, 9)];
        score := 20 |}].
Proof.
  apply (local_traces_end_in_pairs ATACGCTTGCT AGGCGCAGCT (match_matrix 5 (-4))
           (-6) [] [(12%nat, 11%nat); (12%nat, 11%nat)]); [lia|].
  vm_compute. reflexivity.
Defined.
